(** * generate_lenses: a shallow embedding of [scripts/generate_lenses.py]

    The script reads a résumé, sends one prompt per configured lens to a
    hosted inference endpoint, recovers a JSON object from each reply and
    writes a consolidated JSON document.

    Conventions of the embedding.
    - A Python [str] is a list of Unicode code points ([pystr]); a [bytes]
      object is a list of [Byte.byte].
    - Values produced by [json.loads] are the inductive [value]; a [dict] is
      an association list with unique keys in insertion order.
    - Raising is the [Err] branch of [result]; functions that touch the
      environment, the file system, the clock or the network thread a
      [World] through the state-and-error monad [M].
    - Functions of the Python standard library that the script calls
      ([str.strip], [str.find], [json.loads], [json.dumps],
      [textwrap.dedent], the UTF-8 codec) are transcribed from CPython's
      behaviour and keep their Python names where Rocq allows it. *)

From Stdlib Require Import String Ascii List NArith ZArith Bool Lia.
From Stdlib.Strings Require Import Byte.
Import ListNotations.

Set Implicit Arguments.

(** ** Python strings *)

Definition pystr := list N.
Definition bytes := list byte.

(** An ASCII literal as a Python string. *)
Definition u (s : string) : pystr :=
  map N_of_ascii (list_ascii_of_string s).

Definition DQUOTE : N := 34.
Definition SQUOTE : N := 39.
Definition BACKSLASH : N := 92.
Definition NL : N := 10.
Definition SPACE : N := 32.
Definition TAB : N := 9.

(** A literal in which the apostrophe stands for the double quote, used to
    write JSON texts. *)
Definition q (s : string) : pystr :=
  map (fun c => if N.eqb c SQUOTE then DQUOTE else c) (u s).

Fixpoint pystr_eqb (a b : pystr) : bool :=
  match a, b with
  | [], [] => true
  | x :: a', y :: b' => N.eqb x y && pystr_eqb a' b'
  | _, _ => false
  end.

(** [Py_UNICODE_ISSPACE]: the code points [str.strip()] and [str.isspace()]
    treat as whitespace. *)
Definition isspace (c : N) : bool :=
  ((9 <=? c) && (c <=? 13) || (28 <=? c) && (c <=? 32)
   || (c =? 133) || (c =? 160) || (c =? 5760)
   || (8192 <=? c) && (c <=? 8202)
   || (c =? 8232) || (c =? 8233) || (c =? 8239) || (c =? 8287)
   || (c =? 12288))%N.

Fixpoint lstrip (s : pystr) : pystr :=
  match s with
  | c :: r => if isspace c then lstrip r else s
  | [] => []
  end.

Definition rstrip (s : pystr) : pystr := rev (lstrip (rev s)).

(** [s.strip()] *)
Definition strip (s : pystr) : pystr := rstrip (lstrip s).

(** [s.find(c)] for a one-character needle: the least index, or -1. *)
Fixpoint find (c : N) (s : pystr) : Z :=
  match s with
  | [] => (-1)%Z
  | x :: r =>
      if N.eqb x c then 0%Z
      else let i := find c r in if (i <? 0)%Z then (-1)%Z else (i + 1)%Z
  end.

(** [s.rfind(c)]: the greatest index, or -1. *)
Fixpoint rfind (c : N) (s : pystr) : Z :=
  match s with
  | [] => (-1)%Z
  | x :: r =>
      let i := rfind c r in
      if (0 <=? i)%Z then (i + 1)%Z
      else if N.eqb x c then 0%Z else (-1)%Z
  end.

(** [s[a:b]] with Python's treatment of negative and out-of-range bounds. *)
Definition slice (s : pystr) (a b : Z) : pystr :=
  let n := Z.of_nat (length s) in
  let clamp i := Z.min n (Z.max 0 (if (i <? 0)%Z then i + n else i))%Z in
  let a' := clamp a in
  let b' := clamp b in
  firstn (Z.to_nat (b' - a')) (skipn (Z.to_nat a') s).

(** [needle in s] for strings: [needle] occurs as a contiguous substring. *)
Definition contains (s needle : pystr) : Prop :=
  exists pre post, s = pre ++ needle ++ post.

Fixpoint starts_with (p s : pystr) : bool :=
  match p, s with
  | [], _ => true
  | x :: p', y :: s' => N.eqb x y && starts_with p' s'
  | _ :: _, [] => false
  end.

Fixpoint containsb (s needle : pystr) : bool :=
  starts_with needle s ||
  match s with
  | [] => false
  | _ :: r => containsb r needle
  end.

(** Decimal digits of a natural number, most significant first. *)
Fixpoint digits_fuel (fuel : nat) (n : N) (acc : pystr) : pystr :=
  match fuel with
  | O => acc
  | S f =>
      let acc' := (48 + n mod 10)%N :: acc in
      if (n <? 10)%N then acc' else digits_fuel f (n / 10)%N acc'
  end.

Definition digits (n : N) : pystr := digits_fuel (S (N.to_nat (N.log2 n))) n [].

(** [str(i)] for an [int]. *)
Definition str_int (z : Z) : pystr :=
  if (z <? 0)%Z then 45%N :: digits (Z.to_N (- z)) else digits (Z.to_N z).

(** ** Values, dictionaries and exceptions *)

#[warnings="-register-all"]
Inductive value : Type :=
| VNone
| VBool (b : bool)
| VInt (z : Z)
| VFloat (literal : pystr)
| VStr (s : pystr)
| VList (l : list value)
| VDict (d : list (pystr * value)).

Definition pydict := list (pystr * value).

Fixpoint dict_get (d : pydict) (k : pystr) : option value :=
  match d with
  | [] => None
  | (k', v) :: r => if pystr_eqb k' k then Some v else dict_get r k
  end.

(** [d[k] = v]: an existing key keeps its position. *)
Fixpoint dict_set (d : pydict) (k : pystr) (v : value) : pydict :=
  match d with
  | [] => [(k, v)]
  | (k', v') :: r =>
      if pystr_eqb k' k then (k', v) :: r else (k', v') :: dict_set r k v
  end.

(** [dict(pairs)] *)
Definition dict_of_pairs (pairs : list (pystr * value)) : pydict :=
  fold_left (fun d kv => dict_set d (fst kv) (snd kv)) pairs [].

(** The exceptions the script can raise.  A message built by an f-string
    that interpolates an object is kept as the literal part and the object:
    the text is [prefix ++ str(obj)].  [OutOfFuel] is no exception of Python:
    it is what the decoder below answers when its fuel runs out, which never
    happens ([json_loads_fuel]). *)
Inductive pyerror : Type :=
| FileNotFoundError (msg : pystr)
| EnvironmentError (msg : pystr)
| RuntimeError (msg : pystr)
| ValueError (prefix : pystr) (obj : value)
| JSONDecodeError (msg : pystr)
| UnicodeDecodeError
| AttributeError (msg : pystr)
| TypeError (msg : pystr)
| RecursionError
| TransportError (name : pystr)
| OutOfFuel.

Inductive result (A : Type) : Type :=
| Ok (a : A)
| Err (e : pyerror).
Arguments Ok {A} a.
Arguments Err {A} e.

Definition rbind {A B} (r : result A) (f : A -> result B) : result B :=
  match r with
  | Ok a => f a
  | Err e => Err e
  end.

Declare Scope result_scope.
Delimit Scope result_scope with result.
Notation "'try' x <- c1 ; c2" := (rbind c1 (fun x => c2))
  (at level 61, x name, c1 at next level, right associativity) : result_scope.
Notation "'try' ' p <- c1 ; c2" :=
  (rbind c1 (fun t => match t with p => c2 end))
  (at level 61, p pattern, c1 at next level, right associativity) : result_scope.

Local Open Scope result_scope.

(** ** [json.loads]

    The decoder follows CPython's [json.decoder] and [json.scanner] with the
    default options: strict strings, [NaN], [Infinity] and [-Infinity]
    accepted, a repeated key keeping its last value.  A [JSONDecodeError]
    carries the decoder's message without the position.

    Two limits of the interpreter are part of the decoder.  An integer
    literal of more than [INT_MAX_STR_DIGITS] digits makes [int()] raise a
    [ValueError].  Every array or object entered, the empty ones too, takes
    one level of the interpreter's recursion allowance: [depth] is the
    number of levels left where the decoder is called, and entering an array
    or object with none left raises [RecursionError].

    The fuel is a device of the embedding: it is taken from the length of
    the text and is never used up ([json_loads_fuel]). *)

Definition json_ws (c : N) : bool :=
  ((c =? 32) || (c =? 9) || (c =? 10) || (c =? 13))%N.

Fixpoint skip_ws (s : pystr) : pystr :=
  match s with
  | c :: r => if json_ws c then skip_ws r else s
  | [] => []
  end.

Definition is_digit (c : N) : bool := ((48 <=? c) && (c <=? 57))%N.

Definition hexval (c : N) : option N :=
  if is_digit c then Some (c - 48)%N
  else if ((97 <=? c) && (c <=? 102))%N then Some (c - 87)%N
  else if ((65 <=? c) && (c <=? 70))%N then Some (c - 55)%N
  else None.

(** The [BACKSLASH] table of [json.decoder]. *)
Definition backslash (c : N) : option N :=
  if (c =? 34)%N then Some 34%N
  else if (c =? 92)%N then Some 92%N
  else if (c =? 47)%N then Some 47%N
  else if (c =? 98)%N then Some 8%N
  else if (c =? 102)%N then Some 12%N
  else if (c =? 110)%N then Some 10%N
  else if (c =? 114)%N then Some 13%N
  else if (c =? 116)%N then Some 9%N
  else None.

(** A decoded string item: a character of the text, or the 16-bit unit of a
    [\uXXXX] escape (two such units may form a surrogate pair). *)
Inductive sitem : Type :=
| Lit (c : N)
| Esc (unit16 : N).

Inductive sstate : Type :=
| SNormal
| SEscape
| SHex (k : nat) (acc : N).

(** [scanstring] after the opening quote: the items up to the closing quote
    and the rest of the text. *)
Fixpoint scan_items (st : sstate) (acc : list sitem) (s : pystr)
  : result (list sitem * pystr) :=
  match s with
  | [] =>
      match st with
      | SHex _ _ => Err (JSONDecodeError (u "Invalid \uXXXX escape"))
      | _ => Err (JSONDecodeError (u "Unterminated string starting at"))
      end
  | c :: r =>
      match st with
      | SNormal =>
          if (c =? 34)%N then Ok (rev acc, r)
          else if (c =? 92)%N then scan_items SEscape acc r
          else if (c <? 32)%N
               then Err (JSONDecodeError (u "Invalid control character at"))
          else scan_items SNormal (Lit c :: acc) r
      | SEscape =>
          if (c =? 117)%N then scan_items (SHex 0 0%N) acc r
          else match backslash c with
               | Some d => scan_items SNormal (Lit d :: acc) r
               | None => Err (JSONDecodeError (u "Invalid \escape"))
               end
      | SHex k a =>
          match hexval c with
          | None => Err (JSONDecodeError (u "Invalid \uXXXX escape"))
          | Some h =>
              let a' := (a * 16 + h)%N in
              if Nat.eqb k 3 then scan_items SNormal (Esc a' :: acc) r
              else scan_items (SHex (S k) a') acc r
          end
      end
  end.

(** An escaped high surrogate directly followed by an escaped low surrogate
    is one code point; any other item is its own code point. *)
Fixpoint join_surrogates (l : list sitem) : pystr :=
  match l with
  | [] => []
  | Lit c :: r => c :: join_surrogates r
  | Esc hi :: r =>
      match r with
      | Esc lo :: r' =>
          if ((55296 <=? hi) && (hi <=? 56319) && (56320 <=? lo) && (lo <=? 57343))%N
          then (65536 + ((hi - 55296) * 1024 + (lo - 56320)))%N :: join_surrogates r'
          else hi :: join_surrogates r
      | _ => hi :: join_surrogates r
      end
  end.

Definition scanstring (s : pystr) : result (pystr * pystr) :=
  try '(items, rest) <- scan_items SNormal [] s;
  Ok (join_surrogates items, rest).

(** The rest of [s] when its first character is [c]. *)
Definition head_is (c : N) (s : pystr) : option pystr :=
  match s with
  | x :: r => if (x =? c)%N then Some r else None
  | [] => None
  end.

Fixpoint span_digits (s : pystr) : pystr * pystr :=
  match s with
  | c :: r =>
      if is_digit c then let '(d, r') := span_digits r in (c :: d, r')
      else ([], s)
  | [] => ([], [])
  end.

Definition nat_of_digits (d : pystr) : N :=
  fold_left (fun acc c => (acc * 10 + (c - 48))%N) d 0%N.

(** The parts of [NUMBER_RE], each returning what it matched at the head of
    [s] and the rest: an optional minus sign; a single zero, or a digit 1-9
    followed by digits; optionally a dot and at least one digit; optionally
    e or E, an optional sign and at least one digit. *)
Definition match_sign (s : pystr) : pystr * pystr :=
  match head_is 45 s with
  | Some r => ([45%N], r)
  | None => ([], s)
  end.

Definition match_int (s : pystr) : option (pystr * pystr) :=
  match head_is 48 s with
  | Some r => Some ([48%N], r)
  | None =>
      match s with
      | c :: r =>
          if is_digit c then let '(d, r') := span_digits r in Some (c :: d, r')
          else None
      | [] => None
      end
  end.

Definition match_frac (s : pystr) : pystr * pystr :=
  match head_is 46 s with
  | Some r =>
      match span_digits r with
      | ([], _) => ([], s)
      | (d, r') => (46%N :: d, r')
      end
  | None => ([], s)
  end.

Definition match_exp_sign (s : pystr) : pystr * pystr :=
  match s with
  | c :: r => if ((c =? 45) || (c =? 43))%N then ([c], r) else ([], s)
  | [] => ([], s)
  end.

Definition match_exp (s : pystr) : pystr * pystr :=
  match s with
  | e :: r =>
      if ((e =? 101) || (e =? 69))%N then
        let '(sg, r1) := match_exp_sign r in
        match span_digits r1 with
        | ([], _) => ([], s)
        | (d, r2) => (e :: sg ++ d, r2)
        end
      else ([], s)
  | [] => ([], s)
  end.

(** [NUMBER_RE] matched at the head of [s]: its three groups (an absent
    group is empty) and the rest. *)
Definition match_number (s : pystr) : option (pystr * pystr * pystr * pystr) :=
  let '(sign, s1) := match_sign s in
  match match_int s1 with
  | None => None
  | Some (ds, s2) =>
      let '(frac, s3) := match_frac s2 in
      let '(ex, s4) := match_exp s3 in
      Some (sign ++ ds, frac, ex, s4)
  end.

(** [sys.get_int_max_str_digits()], at its default. *)
Definition INT_MAX_STR_DIGITS : N := 4300.

(** The [ValueError] of [int()] on a literal of [n] digits, above the limit. *)
Definition int_limit_error (n : nat) : pyerror :=
  ValueError
    (u "Exceeds the limit (4300 digits) for integer string conversion: value has ")
    (VStr (digits (N.of_nat n)
           ++ u " digits; use sys.set_int_max_str_digits() to increase the limit")).

(** [int(literal)] for a literal matched by the first group: the digits are
    counted without the sign. *)
Definition parse_int (lit : pystr) : result Z :=
  let '(negative, d) :=
    match head_is 45 lit with
    | Some d => (true, d)
    | None => (false, lit)
    end in
  if (INT_MAX_STR_DIGITS <? N.of_nat (List.length d))%N
  then Err (int_limit_error (List.length d))
  else Ok (if negative then - Z.of_N (nat_of_digits d) else Z.of_N (nat_of_digits d))%Z.

Definition strip_prefix (p s : pystr) : option pystr :=
  if starts_with p s then Some (skipn (List.length p) s) else None.

Definition expecting_value : pyerror := JSONDecodeError (u "Expecting value").

Definition PROPERTY_NAME_EXPECTED : pyerror :=
  JSONDecodeError (u "Expecting property name enclosed in double quotes").

Definition COMMA_EXPECTED : pyerror := JSONDecodeError (u "Expecting ',' delimiter").

Definition COLON_EXPECTED : pyerror := JSONDecodeError (u "Expecting ':' delimiter").

(** [scan_once], [JSONObject] and [JSONArray].  [object_loop] is entered
    after the opening quote of a key, [array_loop] at the start of an
    element; both read their values with the levels left inside the
    container. *)
Fixpoint scan_once (fuel depth : nat) (s : pystr) {struct fuel}
  : result (value * pystr) :=
  match fuel with
  | O => Err OutOfFuel
  | S f =>
      match s with
      | [] => Err expecting_value
      | c :: r =>
          if (c =? 34)%N then
            try '(str, r') <- scanstring r; Ok (VStr str, r')
          else if (c =? 123)%N then
            match depth with
            | O => Err RecursionError
            | S d =>
                match head_is 125 (skip_ws r), head_is 34 (skip_ws r) with
                | Some r', _ => Ok (VDict [], r')
                | None, Some r' =>
                    try '(pairs, r'') <- object_loop f d [] r';
                    Ok (VDict (dict_of_pairs pairs), r'')
                | None, None => Err PROPERTY_NAME_EXPECTED
                end
            end
          else if (c =? 91)%N then
            match depth with
            | O => Err RecursionError
            | S d =>
                match head_is 93 (skip_ws r) with
                | Some r' => Ok (VList [], r')
                | None =>
                    try '(items, r'') <- array_loop f d [] (skip_ws r);
                    Ok (VList items, r'')
                end
            end
          else
            match strip_prefix (u "null") s,
                  strip_prefix (u "true") s,
                  strip_prefix (u "false") s with
            | Some r', _, _ => Ok (VNone, r')
            | _, Some r', _ => Ok (VBool true, r')
            | _, _, Some r' => Ok (VBool false, r')
            | _, _, _ =>
                match match_number s with
                | Some (integer, frac, ex, r') =>
                    match frac, ex with
                    | [], [] => try z <- parse_int integer; Ok (VInt z, r')
                    | _, _ => Ok (VFloat (integer ++ frac ++ ex), r')
                    end
                | None =>
                    match strip_prefix (u "NaN") s,
                          strip_prefix (u "Infinity") s,
                          strip_prefix (u "-Infinity") s with
                    | Some r', _, _ => Ok (VFloat (u "NaN"), r')
                    | _, Some r', _ => Ok (VFloat (u "Infinity"), r')
                    | _, _, Some r' => Ok (VFloat (u "-Infinity"), r')
                    | _, _, _ => Err expecting_value
                    end
                end
            end
      end
  end

with object_loop (fuel depth : nat) (acc : list (pystr * value)) (s : pystr)
  {struct fuel} : result (list (pystr * value) * pystr) :=
  match fuel with
  | O => Err OutOfFuel
  | S f =>
      try '(key, r1) <- scanstring s;
      match head_is 58 (skip_ws r1) with
      | Some r2 =>
          try '(v, r3) <- scan_once f depth (skip_ws r2);
          let acc' := acc ++ [(key, v)] in
          match head_is 125 (skip_ws r3), head_is 44 (skip_ws r3) with
          | Some r4, _ => Ok (acc', r4)
          | None, Some r4 =>
              match head_is 34 (skip_ws r4) with
              | Some r5 => object_loop f depth acc' r5
              | None => Err PROPERTY_NAME_EXPECTED
              end
          | None, None => Err COMMA_EXPECTED
          end
      | None => Err COLON_EXPECTED
      end
  end

with array_loop (fuel depth : nat) (acc : list value) (s : pystr) {struct fuel}
  : result (list value * pystr) :=
  match fuel with
  | O => Err OutOfFuel
  | S f =>
      try '(v, r1) <- scan_once f depth s;
      let acc' := acc ++ [v] in
      match head_is 93 (skip_ws r1), head_is 44 (skip_ws r1) with
      | Some r2, _ => Ok (acc', r2)
      | None, Some r2 => array_loop f depth acc' (skip_ws r2)
      | None, None => Err COMMA_EXPECTED
      end
  end.

(** [json.loads(s)] for a [str], called where the interpreter has [limit]
    levels of nesting left. *)
Definition json_loads (limit : nat) (s : pystr) : result value :=
  match head_is 65279 s with
  | Some _ =>
      Err (JSONDecodeError (u "Unexpected UTF-8 BOM (decode using utf-8-sig)"))
  | None =>
      try '(v, rest) <- scan_once (2 * List.length s + 2) limit (skip_ws s);
      match skip_ws rest with
      | [] => Ok v
      | _ => Err (JSONDecodeError (u "Extra data"))
      end
  end.

(** ** Truthiness and [str()] *)

(** The value of the third group of [match_number]: the letter, an optional
    sign and digits. *)
Definition exponent_of (ex : pystr) : Z :=
  match ex with
  | _ :: r =>
      match head_is 45 r, head_is 43 r with
      | Some d, _ => (- Z.of_N (nat_of_digits d))%Z
      | None, Some d => Z.of_N (nat_of_digits d)
      | None, None => Z.of_N (nat_of_digits r)
      end
  | [] => 0%Z
  end.

(** Whether the float denoted by a JSON number literal is zero.  The literal
    denotes [m * 10^e]; conversion rounds to nearest, ties to even, so the
    result is zero exactly when [m * 10^e <= 2^-1075], half the least
    positive double.  [NaN] and the infinities are not zero. *)
Definition float_is_zero (literal : pystr) : bool :=
  match match_number literal with
  | None => false
  | Some (integer, frac, ex, _) =>
      let int_digits :=
        match head_is 45 integer with
        | Some d => d
        | None => integer
        end in
      let m := Z.of_N (nat_of_digits (int_digits ++ tl frac)) in
      let e := (exponent_of ex - Z.of_nat (List.length (tl frac)))%Z in
      if (m =? 0)%Z then true
      else if (0 <=? e)%Z then false
      else (m * 2 ^ 1075 <=? 10 ^ (- e))%Z
  end.

(** [bool(v)] *)
Definition truthy (v : value) : bool :=
  match v with
  | VNone => false
  | VBool b => b
  | VInt z => negb (z =? 0)%Z
  | VFloat l => negb (float_is_zero l)
  | VStr s => match s with [] => false | _ => true end
  | VList l => match l with [] => false | _ => true end
  | VDict d => match d with [] => false | _ => true end
  end.

(** What the embedding takes from the Python runtime without defining it:
    [repr] of the float a number literal denotes, the Unicode database's
    [str.isprintable] (consulted only for code points above 127), and the
    number of nested arrays and objects the interpreter's recursion limit
    lets [json.loads] enter where the script calls it.  That number depends
    on the interpreter and its settings; it is taken to be at least four,
    the nesting of the document the script itself writes. *)
Record Runtime : Type := {
  float_repr : pystr -> pystr;
  isprintable : N -> bool;
  nesting_limit : nat;
  nesting_floor : (4 <=? nesting_limit)%nat = true
}.

Fixpoint join (sep : pystr) (l : list pystr) : pystr :=
  match l with
  | [] => []
  | [x] => x
  | x :: r => x ++ sep ++ join sep r
  end.

Definition hex_digit (n : N) : N :=
  if (n <? 10)%N then (48 + n)%N else (87 + n)%N.

(** [k] lower-case hexadecimal digits of [n]. *)
Fixpoint hex (k : nat) (n : N) : pystr :=
  match k with
  | O => []
  | S k' => hex k' (n / 16)%N ++ [hex_digit (n mod 16)%N]
  end.

Section Str.
Variable rt : Runtime.

Definition repr_char (quote c : N) : pystr :=
  if ((c =? quote) || (c =? 92))%N then [92%N; c]
  else if (c =? 9)%N then u "\t"
  else if (c =? 10)%N then u "\n"
  else if (c =? 13)%N then u "\r"
  else if ((c <? 32) || (c =? 127))%N then u "\x" ++ hex 2 c
  else if (c <? 127)%N then [c]
  else if isprintable rt c then [c]
  else if (c <=? 255)%N then u "\x" ++ hex 2 c
  else if (c <=? 65535)%N then u "\u" ++ hex 4 c
  else u "\U" ++ hex 8 c.

(** [repr(s)] for a [str]: single quotes unless the text has a single
    quote and no double quote. *)
Definition repr_str (s : pystr) : pystr :=
  let quote :=
    if existsb (N.eqb 39) s && negb (existsb (N.eqb 34) s)
    then 34%N else 39%N in
  [quote] ++ flat_map (repr_char quote) s ++ [quote].

Fixpoint repr (v : value) : pystr :=
  match v with
  | VNone => u "None"
  | VBool true => u "True"
  | VBool false => u "False"
  | VInt z => str_int z
  | VFloat l => float_repr rt l
  | VStr s => repr_str s
  | VList l => u "[" ++ join (u ", ") (map repr l) ++ u "]"
  | VDict d =>
      u "{"
      ++ join (u ", ") (map (fun kv => repr_str (fst kv) ++ u ": " ++ repr (snd kv)) d)
      ++ u "}"
  end.

(** [str(v)] *)
Definition str_ (v : value) : pystr :=
  match v with
  | VStr s => s
  | _ => repr v
  end.

(** The text of an exception, [str(e)]. *)
Definition error_message (e : pyerror) : pystr :=
  match e with
  | FileNotFoundError m | EnvironmentError m | RuntimeError m
  | JSONDecodeError m | AttributeError m | TypeError m
  | TransportError m => m
  | ValueError prefix obj => prefix ++ str_ obj
  | UnicodeDecodeError => u "invalid utf-8"
  | RecursionError => u "maximum recursion depth exceeded"
  | OutOfFuel => []
  end.
End Str.

(** A runtime for examples: floats print as their literal, every code
    point above 127 counts as printable, and the decoder may enter 900
    levels. *)
Definition example_runtime : Runtime :=
  {| float_repr := fun l => l; isprintable := fun _ => true;
     nesting_limit := 900; nesting_floor := eq_refl |}.

(** The same runtime with the fewest levels a runtime has. *)
Definition minimal_runtime : Runtime :=
  {| float_repr := fun l => l; isprintable := fun _ => true;
     nesting_limit := 4; nesting_floor := eq_refl |}.

(** ** The UTF-8 codec *)

Inductive ustate : Type :=
| UStart
| UCont (need : nat) (acc lo hi : N).

(** The lead byte of a sequence: a code point, a state expecting
    continuation bytes, or nothing for an invalid lead. *)
Definition utf8_start (n : N) : option (N + ustate) :=
  if (n <? 128)%N then Some (inl n)
  else if (n <? 194)%N then None
  else if (n <? 224)%N then Some (inr (UCont 1 (n - 192) 128 191))
  else if (n =? 224)%N then Some (inr (UCont 2 0 160 191))
  else if (n =? 237)%N then Some (inr (UCont 2 13 128 159))
  else if (n <? 240)%N then Some (inr (UCont 2 (n - 224) 128 191))
  else if (n =? 240)%N then Some (inr (UCont 3 0 144 191))
  else if (n <? 244)%N then Some (inr (UCont 3 (n - 240) 128 191))
  else if (n =? 244)%N then Some (inr (UCont 3 4 128 143))
  else None.

(** [b.decode("utf-8")], and with [ignore] set
    [b.decode("utf-8", errors="ignore")]: an ill-formed sequence is dropped
    up to the byte that broke it, and decoding resumes at that byte. *)
Fixpoint utf8_decode (ignore : bool) (st : ustate) (s : bytes) : result pystr :=
  match s with
  | [] =>
      match st with
      | UStart => Ok []
      | UCont _ _ _ _ => if ignore then Ok [] else Err UnicodeDecodeError
      end
  | b :: r =>
      let n := Byte.to_N b in
      let from_start :=
        match utf8_start n with
        | Some (inl c) => try t <- utf8_decode ignore UStart r; Ok (c :: t)
        | Some (inr st') => utf8_decode ignore st' r
        | None =>
            if ignore then utf8_decode ignore UStart r
            else Err UnicodeDecodeError
        end in
      match st with
      | UStart => from_start
      | UCont need acc lo hi =>
          if ((lo <=? n) && (n <=? hi))%N then
            let acc' := (acc * 64 + (n - 128))%N in
            match need with
            | S (S k) => utf8_decode ignore (UCont (S k) acc' 128 191) r
            | _ => try t <- utf8_decode ignore UStart r; Ok (acc' :: t)
            end
          else if ignore then from_start
          else Err UnicodeDecodeError
      end
  end.

Definition decode_utf8 (b : bytes) : result pystr := utf8_decode false UStart b.

Definition decode_utf8_ignore (b : bytes) : pystr :=
  match utf8_decode true UStart b with
  | Ok s => s
  | Err _ => []
  end.

Definition byte_of_N (n : N) : byte :=
  match Byte.of_N n with
  | Some b => b
  | None => x00
  end.

(** [s.encode("utf-8")] for a text of ASCII characters, which is what
    [json.dumps] produces with its default [ensure_ascii]. *)
Definition encode_ascii (s : pystr) : bytes := map byte_of_N s.

(** Text-mode reading translates [\r\n] and a lone [\r] to [\n]. *)
Fixpoint universal_newlines (s : pystr) : pystr :=
  match s with
  | [] => []
  | 13%N :: r =>
      10%N :: match r with
              | 10%N :: r' => universal_newlines r'
              | _ => universal_newlines r
              end
  | c :: r => c :: universal_newlines r
  end.

(** ** [textwrap.dedent]

    CPython's regex-based implementation, read line by line: the multi-line
    anchors of its three patterns match exactly at the boundaries of the lines
    separated by [\n]. *)

(** [s.split("\n")] *)
Fixpoint split_lines (s : pystr) : list pystr :=
  match s with
  | [] => [[]]
  | c :: r =>
      if (c =? 10)%N then [] :: split_lines r
      else match split_lines r with
           | l :: ls => (c :: l) :: ls
           | [] => [[c]]
           end
  end.

Definition join_lines (ls : list pystr) : pystr := join [NL] ls.

(** The class of a space or a tab. *)
Definition is_blank (c : N) : bool := ((c =? 32) || (c =? 9))%N.

(** [_whitespace_only_re.sub('', text)] on one line: a non-empty line of
    spaces and tabs becomes empty. *)
Definition normalize_line (l : pystr) : pystr :=
  match l with
  | [] => []
  | _ => if forallb is_blank l then [] else l
  end.

Fixpoint leading_blanks (l : pystr) : pystr :=
  match l with
  | c :: r => if is_blank c then c :: leading_blanks r else []
  | [] => []
  end.

(** [_leading_whitespace_re.findall(text)] on one line: the indentation of a
    line that has a character other than space and tab. *)
Definition indents_of_line (l : pystr) : list pystr :=
  if forallb is_blank l then [] else [leading_blanks l].

Fixpoint common_prefix (a b : pystr) : pystr :=
  match a, b with
  | x :: a', y :: b' => if (x =? y)%N then x :: common_prefix a' b' else []
  | _, _ => []
  end.

(** One turn of the loop over [indents]. *)
Definition margin_step (margin : option pystr) (indent : pystr) : option pystr :=
  match margin with
  | None => Some indent
  | Some m =>
      if starts_with m indent then Some m
      else if starts_with indent m then Some indent
      else Some (common_prefix m indent)
  end.

(** [re.sub(r'(?m)^' + margin, '', text)] on one line. *)
Definition remove_margin (margin l : pystr) : pystr :=
  if starts_with margin l then skipn (List.length margin) l else l.

Definition dedent (text : pystr) : pystr :=
  let ls := map normalize_line (split_lines text) in
  let margin := fold_left margin_step (flat_map indents_of_line ls) None in
  match margin with
  | Some (c :: m) => join_lines (map (remove_margin (c :: m)) ls)
  | _ => join_lines ls
  end.

(** ** Configuration *)

Record LensSpec : Type := {
  title : pystr;
  instruction : pystr;
  recommended_terms : list pystr;
  source_notes : option (list pystr)
}.

Definition HF_DEFAULT_MODEL : pystr := u "mistralai/Mistral-7B-Instruct-v0.3".

Definition AI_PRIVACY : LensSpec :=
  {| title := u "AI + privacy";
     instruction :=
       u "Summarise how George Larson applies AI while protecting privacy and regulated data. "
       ++ u "Focus on applied systems, leadership signals, and measurable outcomes. "
       ++ u "Return bullet points that show real projects, not generic traits.";
     recommended_terms := [u "privacy"; u "AI"; u "OCR"; u "security"; u "tabletop"];
     source_notes := None |}.

Definition MANUFACTURING_OPS : LensSpec :=
  {| title := u "Manufacturing operations";
     instruction :=
       u "Summarise George Larson's experience with manufacturing, firmware, and production systems. "
       ++ u "Highlight uptime improvements, hardware labs, and PLC or robotics work.";
     recommended_terms := [u "manufacturing"; u "TiVo"; u "PLC"; u "conveyors"; u "uptime"];
     source_notes := None |}.

Definition TECHNOLOGY_LEADERSHIP : LensSpec :=
  {| title := u "Technology leadership";
     instruction :=
       u "Summarise George Larson's leadership style. "
       ++ u "Cover roadmaps, mixed teams, communication, and how he balances hands-on work with management.";
     recommended_terms := [u "roadmap"; u "team"; u "Agile"; u "mentorship"; u "leadership"];
     source_notes := None |}.

(** The table [LENSES], in the order of the dictionary literal. *)
Definition LENSES : list (pystr * LensSpec) :=
  [ (u "ai-privacy", AI_PRIVACY);
    (u "manufacturing-ops", MANUFACTURING_OPS);
    (u "technology-leadership", TECHNOLOGY_LEADERSHIP) ].

(** ** The prompt *)

(** Twelve spaces: the indentation of the template in the source. *)
Definition IND : pystr := u "            ".

(** The literal parts of the f-string, before the résumé, between the résumé
    and the instruction, and after the instruction. *)
Definition TEMPLATE_HEAD : pystr :=
  [NL] ++ IND ++ u "System:" ++ [NL]
  ++ IND ++ u "You generate concise JSON summaries for professional r"
  ++ [233%N] ++ u "sum" ++ [233%N]
  ++ u "s. Do not include commentary outside JSON." ++ [NL]
  ++ [NL]
  ++ IND ++ u "Resume:" ++ [NL]
  ++ IND.

Definition TEMPLATE_MID : pystr :=
  [NL] ++ [NL] ++ IND ++ u "Instruction:" ++ [NL] ++ IND.

Definition TEMPLATE_TAIL : pystr :=
  [NL] ++ [NL]
  ++ IND ++ u "Format:" ++ [NL]
  ++ IND ++ u "{" ++ [NL]
  ++ IND ++ q "  'summary': '<80-120 word paragraph>'," ++ [NL]
  ++ IND ++ q "  'bullets': [" ++ [NL]
  ++ IND ++ q "    'bullet one'," ++ [NL]
  ++ IND ++ q "    'bullet two'," ++ [NL]
  ++ IND ++ q "    'bullet three'" ++ [NL]
  ++ IND ++ u "  ]" ++ [NL]
  ++ IND ++ u "}" ++ [NL]
  ++ IND.

(** The f-string of [generate_sections] before [dedent]. *)
Definition template (resume_text instr : pystr) : pystr :=
  TEMPLATE_HEAD ++ resume_text ++ TEMPLATE_MID ++ instr ++ TEMPLATE_TAIL.

Definition build_prompt (resume_text : pystr) (spec : LensSpec) : pystr :=
  strip (dedent (template resume_text (instruction spec))).

(** ** The world and its monad *)

Record Request : Type := {
  url : pystr;
  headers : list (pystr * pystr);
  data : bytes;
  method : pystr;
  timeout : N
}.

(** What [urlopen] does with a request: a response body, an [HTTPError]
    with its status and body, a [URLError] with its reason, or another
    exception of the transport. *)
Inductive HttpOutcome : Type :=
| HttpOk (body : bytes)
| HttpError (code : Z) (body : bytes)
| UrlError (reason : pystr)
| TransportRaises (name : pystr).

Record datetime : Type := {
  year : N; month : N; day : N; hour : N; minute : N; second : N
}.

(** The state outside the program.  [remote] answers a request given all
    the requests sent so far (the last one is the request being answered);
    [sent] is that log.  Directories are not modelled: creating the parent
    of the output file and writing the file succeed. *)
Record World : Type := {
  root : pystr;
  resume_file : option bytes;
  output_file : option bytes;
  environ : pystr -> option pystr;
  remote : list Request -> HttpOutcome;
  sent : list Request;
  now : datetime;
  stdout : list pystr
}.

Definition M (A : Type) : Type := World -> result A * World.

Definition ret {A} (a : A) : M A := fun w => (Ok a, w).
Definition raise {A} (e : pyerror) : M A := fun w => (Err e, w).
Definition lift {A} (r : result A) : M A := fun w => (r, w).

Definition bind {A B} (m : M A) (f : A -> M B) : M B :=
  fun w =>
    match m w with
    | (Ok a, w') => f a w'
    | (Err e, w') => (Err e, w')
    end.

Declare Scope io_scope.
Delimit Scope io_scope with io.
Notation "'let*' x := c1 'in' c2" := (bind c1 (fun x => c2))
  (at level 61, x name, c1 at next level, right associativity) : io_scope.
Local Open Scope io_scope.

Definition RESUME_PATH (w : World) : pystr := root w ++ u "/resume.txt".
Definition OUTPUT_PATH (w : World) : pystr := root w ++ u "/data/resume_lenses.json".

Definition load_resume : M pystr := fun w =>
  match resume_file w with
  | None => (Err (FileNotFoundError (u "Missing resume source: " ++ RESUME_PATH w)), w)
  | Some b =>
      (try text <- decode_utf8 b; Ok (universal_newlines text), w)
  end.

Definition with_sent (w : World) (log : list Request) : World :=
  {| root := root w; resume_file := resume_file w; output_file := output_file w;
     environ := environ w; remote := remote w; sent := log; now := now w;
     stdout := stdout w |}.

Definition with_output (w : World) (content : bytes) : World :=
  {| root := root w; resume_file := resume_file w; output_file := Some content;
     environ := environ w; remote := remote w; sent := sent w; now := now w;
     stdout := stdout w |}.

Definition with_stdout (w : World) (out : list pystr) : World :=
  {| root := root w; resume_file := resume_file w; output_file := output_file w;
     environ := environ w; remote := remote w; sent := sent w; now := now w;
     stdout := out |}.

(** [urlopen(req, timeout=120)] followed by [resp.read()]. *)
Definition urlopen (req : Request) : M HttpOutcome := fun w =>
  let log := sent w ++ [req] in
  (Ok (remote w log), with_sent w log).

(** [OUTPUT_PATH.write_text(text, encoding="utf-8")] *)
Definition write_output (text : pystr) : M unit := fun w =>
  (Ok tt, with_output w (encode_ascii text)).

(** [OUTPUT_PATH.parent.mkdir(parents=True, exist_ok=True)]: the world has no
    directories, so this changes nothing. *)
Definition mkdir_output_parent : M unit := fun w => (Ok tt, w).

Definition print (line : pystr) : M unit := fun w =>
  (Ok tt, with_stdout w (stdout w ++ [line])).

(** ** [json.dumps] *)

(** [encode_basestring_ascii] without the surrounding quotes. *)
Definition escape_char (c : N) : pystr :=
  if (c =? 34)%N then [92; 34]%N
  else if (c =? 92)%N then [92; 92]%N
  else if (c =? 10)%N then u "\n"
  else if (c =? 13)%N then u "\r"
  else if (c =? 9)%N then u "\t"
  else if (c =? 12)%N then u "\f"
  else if (c =? 8)%N then u "\b"
  else if ((32 <=? c) && (c <=? 126))%N then [c]
  else if (c <? 65536)%N then u "\u" ++ hex 4 c
  else
    let v := (c - 65536)%N in
    u "\u" ++ hex 4 (55296 + v / 1024)%N ++ u "\u" ++ hex 4 (56320 + v mod 1024)%N.

Definition encode_basestring_ascii (s : pystr) : pystr :=
  [DQUOTE] ++ flat_map escape_char s ++ [DQUOTE].

(** The body of the request: [json.dumps(payload).encode("utf-8")] for the
    payload of [call_hugging_face], whose only varying part is the prompt. *)
Definition request_body (prompt : pystr) : bytes :=
  encode_ascii
    (q "{'inputs': " ++ encode_basestring_ascii prompt
     ++ q ", 'parameters': {'max_new_tokens': 320, 'temperature': 0.2, 'return_full_text': false}}").

Definition newline_indent (level : nat) : pystr :=
  [NL] ++ repeat SPACE (2 * level).

Section Dumps.
Variable rt : Runtime.

(** [float.__repr__] with the three special values renamed. *)
Definition floatstr (l : pystr) : pystr :=
  let r := float_repr rt l in
  if pystr_eqb r (u "nan") then u "NaN"
  else if pystr_eqb r (u "inf") then u "Infinity"
  else if pystr_eqb r (u "-inf") then u "-Infinity"
  else r.

(** [json.dumps(v, indent=2)] at a nesting level. *)
Fixpoint dumps_indent (level : nat) (v : value) : pystr :=
  match v with
  | VNone => u "null"
  | VBool true => u "true"
  | VBool false => u "false"
  | VInt z => str_int z
  | VFloat l => floatstr l
  | VStr s => encode_basestring_ascii s
  | VList [] => u "[]"
  | VList l =>
      u "[" ++ newline_indent (S level)
      ++ join (u "," ++ newline_indent (S level)) (map (dumps_indent (S level)) l)
      ++ newline_indent level ++ u "]"
  | VDict [] => u "{}"
  | VDict d =>
      u "{" ++ newline_indent (S level)
      ++ join (u "," ++ newline_indent (S level))
           (map (fun kv => encode_basestring_ascii (fst kv) ++ u ": "
                           ++ dumps_indent (S level) (snd kv)) d)
      ++ newline_indent level ++ u "}"
  end.
End Dumps.

(** ** The inference client *)

(** [a or b] on the results of [os.environ.get]. *)
Definition or_else (a b : option pystr) : option pystr :=
  match a with
  | Some (_ :: _) => a
  | _ => b
  end.

Definition MISSING_TOKEN : pystr :=
  u "HF_API_TOKEN (or HF_TOKEN) is not set. Create a Hugging Face token and export it before running.".

Definition build_request (token model prompt : pystr) : Request :=
  {| url := u "https://api-inference.huggingface.co/models/" ++ model;
     headers := [ (u "Authorization", u "Bearer " ++ token);
                  (u "Content-Type", u "application/json") ];
     data := request_body prompt;
     method := u "POST";
     timeout := 120 |}.

Definition get_now : M datetime := fun w => (Ok (now w), w).
Definition get_env (name : pystr) : M (option pystr) := fun w => (Ok (environ w name), w).
Definition get_output_path : M pystr := fun w => (Ok (OUTPUT_PATH w), w).

Record LensResult : Type := {
  id : pystr;
  lens_title : pystr;
  summary : pystr;
  key_points : list pystr;
  lens_terms : list pystr;
  lens_notes : list pystr
}.

Section Program.
Variable rt : Runtime.

(** Lines 92-100: the reading of a decoded response. *)
Definition read_response (parsed : value) : result value :=
  match parsed with
  | VList (first :: _) =>
      match first with
      | VDict d =>
          let generated :=
            match dict_get d (u "generated_text") with
            | Some g => g
            | None => VStr []
            end in
          if truthy generated then Ok generated
          else Err (ValueError (u "Unexpected response payload: ") parsed)
      | _ => Err (AttributeError (u "object has no attribute 'get'"))
      end
  | VDict d =>
      match dict_get d (u "generated_text") with
      | Some g => Ok (VStr (str_ rt g))
      | None => Err (ValueError (u "Unhandled response structure: ") parsed)
      end
  | _ => Err (ValueError (u "Unhandled response structure: ") parsed)
  end.

Definition call_hugging_face (prompt : pystr) : M value :=
  let* primary := get_env (u "HF_API_TOKEN") in
  let* fallback := get_env (u "HF_TOKEN") in
  match or_else primary fallback with
  | Some (c :: t) =>
      let token := c :: t in
      let* override := get_env (u "HF_MODEL") in
      let model := match override with Some m => m | None => HF_DEFAULT_MODEL end in
      let* outcome := urlopen (build_request token model prompt) in
      match outcome with
      | HttpOk body =>
          lift (try text <- decode_utf8 body;
                try parsed <- json_loads (nesting_limit rt) text;
                read_response parsed)
      | HttpError code body =>
          raise (RuntimeError
                   (u "Hugging Face API error (" ++ str_int code ++ u "): "
                    ++ decode_utf8_ignore body))
      | UrlError reason =>
          raise (RuntimeError (u "Failed to reach Hugging Face API: " ++ reason))
      | TransportRaises name => raise (TransportError name)
      end
  | _ => raise (EnvironmentError MISSING_TOKEN)
  end.

Definition extract_json_block (text : value) : result value :=
  match text with
  | VStr t =>
      let start := find 123 t in
      let end_ := rfind 125 t in
      if ((start =? -1) || (end_ =? -1) || (end_ <=? start))%Z
      then Err (ValueError (u "Model response did not contain JSON: ") text)
      else json_loads (nesting_limit rt) (slice t start (end_ + 1))
  | _ => Err (AttributeError (u "object has no attribute 'find'"))
  end.

(** [payload.get(key, default)] *)
Definition get_default (payload : value) (key : pystr) (default : value)
  : result value :=
  match payload with
  | VDict d =>
      Ok match dict_get d key with
         | Some v => v
         | None => default
         end
  | _ => Err (AttributeError (u "object has no attribute 'get'"))
  end.

(** The items a [for] loop draws from a value. *)
Definition iterate (v : value) : result (list value) :=
  match v with
  | VList l => Ok l
  | VStr s => Ok (map (fun c => VStr [c]) s)
  | VDict d => Ok (map (fun kv => VStr (fst kv)) d)
  | _ => Err (TypeError (u "object is not iterable"))
  end.

Definition nonempty (s : pystr) : bool :=
  match s with
  | [] => false
  | _ => true
  end.

(** Lines 139-150: the record appended for one lens. *)
Definition assemble (lens_id : pystr) (spec : LensSpec) (payload : value)
  : result LensResult :=
  try s <- get_default payload (u "summary") (VStr []);
  let summary := strip (str_ rt s) in
  try b <- get_default payload (u "bullets") (VList []);
  try items <- iterate b;
  let bullets :=
    map (fun item => strip (str_ rt item))
        (filter (fun item => nonempty (strip (str_ rt item))) items) in
  Ok {| id := lens_id;
        lens_title := title spec;
        summary := summary;
        key_points := firstn 3 bullets;
        lens_terms := recommended_terms spec;
        lens_notes := match source_notes spec with Some n => n | None => [] end |}.

(** One turn of the loop of [generate_sections]. *)
Definition process_lens (resume_text : pystr) (lens : pystr * LensSpec)
  : M LensResult :=
  let prompt := build_prompt resume_text (snd lens) in
  let* raw_output := call_hugging_face prompt in
  let* payload := lift (extract_json_block raw_output) in
  lift (assemble (fst lens) (snd lens) payload).

Fixpoint for_lenses (resume_text : pystr) (lenses : list (pystr * LensSpec))
  (sections : list LensResult) : M (list LensResult) :=
  match lenses with
  | [] => ret sections
  | lens :: rest =>
      let* r := process_lens resume_text lens in
      for_lenses resume_text rest (sections ++ [r])
  end.

Definition generate_sections (resume_text : pystr) : M (list LensResult) :=
  for_lenses resume_text LENSES [].

(** ** The writer *)

Definition pad2 (n : N) : pystr :=
  if (n <? 10)%N then 48%N :: digits n else digits n.

(** [strftime("%Y-%m-%dT%H:%M:%SZ")] *)
Definition strftime (t : datetime) : pystr :=
  digits (year t) ++ u "-" ++ pad2 (month t) ++ u "-" ++ pad2 (day t)
  ++ u "T" ++ pad2 (hour t) ++ u ":" ++ pad2 (minute t) ++ u ":"
  ++ pad2 (second t) ++ u "Z".

Definition strings (l : list pystr) : value := VList (map VStr l).

(** The dictionary appended to [sections]. *)
Definition lens_value (r : LensResult) : value :=
  VDict [ (u "id", VStr (id r));
          (u "title", VStr (lens_title r));
          (u "summary", VStr (summary r));
          (u "key_points", strings (key_points r));
          (u "recommended_terms", strings (lens_terms r));
          (u "source_notes", strings (lens_notes r)) ].

Definition MODEL_HINT : pystr :=
  u "Generated via Hugging Face Inference API (default mistralai/Mistral-7B-Instruct-v0.3).".

Definition document (generated_at : pystr) (sections : list LensResult) : value :=
  VDict [ (u "generated_at", VStr generated_at);
          (u "model_hint", VStr MODEL_HINT);
          (u "lenses", VList (map lens_value sections)) ].

Definition main : M unit :=
  let* resume_text := load_resume in
  let* sections := generate_sections resume_text in
  let* t := get_now in
  let payload := document (strftime t) sections in
  let* _ := mkdir_output_parent in
  let* _ := write_output (dumps_indent rt 0 payload) in
  let* path := get_output_path in
  print (u "Wrote " ++ path).
End Program.

(** * Predicates, decompositions and example worlds

    The notions the properties below are stated with, and the concrete
    worlds on which they are exercised. *)

Definition all_space (s : pystr) : bool := forallb isspace s.

Definition has_nonspace (s : pystr) : bool := existsb (fun c => negb (isspace c)) s.

(** A text that [strip] leaves alone: empty, or with a character other than
    whitespace at both ends. *)
Definition trimmed (s : pystr) : Prop := lstrip s = s /\ lstrip (rev s) = rev s.

(** What a step of the decoder guarantees: it does not run out of fuel, and
    a value it returns was read from at least one character. *)
Definition consumes {A} (res : result (A * pystr)) (s : pystr) : Prop :=
  res <> Err OutOfFuel
  /\ forall a r, res = Ok (a, r) -> (List.length r < List.length s)%nat.

Definition capped_points (r : LensResult) : Prop :=
  (List.length (key_points r) <= 3)%nat
  /\ Forall (fun k => k <> [] /\ strip k = k) (key_points r).

Definition example_spec : LensSpec :=
  {| title := u "Example"; instruction := u "Summarise."; recommended_terms := [];
     source_notes := None |}.

Definition HF_API_TOKEN : pystr := u "HF_API_TOKEN".
Definition HF_TOKEN : pystr := u "HF_TOKEN".
Definition HF_MODEL : pystr := u "HF_MODEL".
Definition GENERATED_TEXT : pystr := u "generated_text".

(** The credential and the model a world resolves to. *)
Definition token_of (w : World) : option pystr :=
  or_else (environ w HF_API_TOKEN) (environ w HF_TOKEN).

Definition model_of (w : World) : pystr :=
  match environ w HF_MODEL with
  | Some m => m
  | None => HF_DEFAULT_MODEL
  end.

(** What the client makes of the transport's answer. *)
Definition outcome_result (rt : Runtime) (o : HttpOutcome) : result value :=
  match o with
  | HttpOk body =>
      try text <- decode_utf8 body;
      try parsed <- json_loads (nesting_limit rt) text;
      read_response rt parsed
  | HttpError code body =>
      Err (RuntimeError (u "Hugging Face API error (" ++ str_int code ++ u "): "
                         ++ decode_utf8_ignore body))
  | UrlError reason => Err (RuntimeError (u "Failed to reach Hugging Face API: " ++ reason))
  | TransportRaises name => Err (TransportError name)
  end.

Definition no_clock : datetime :=
  {| year := 2024; month := 1; day := 2; hour := 3; minute := 4; second := 5 |}.

(** A world whose two credential variables are both set to the empty string. *)
Definition empty_token_world : World :=
  {| root := u "/site"; resume_file := Some []; output_file := None;
     environ := fun k =>
       if pystr_eqb k HF_API_TOKEN || pystr_eqb k HF_TOKEN then Some [] else None;
     remote := fun _ => HttpOk []; sent := []; now := no_clock; stdout := [] |}.

(** A world whose endpoint answers with an empty generated text. *)
Definition empty_text_world : World :=
  {| root := u "/site"; resume_file := Some []; output_file := None;
     environ := fun k => if pystr_eqb k HF_API_TOKEN then Some (u "hf_abc") else None;
     remote := fun _ => HttpOk (encode_ascii (q "[{'generated_text': ''}]"));
     sent := []; now := no_clock; stdout := [] |}.

(** A world whose endpoint answers every request with a one-element array. *)
Definition array_reply_world : World :=
  {| root := u "/site"; resume_file := Some []; output_file := None;
     environ := fun k => if pystr_eqb k HF_API_TOKEN then Some (u "hf_abc") else None;
     remote := fun _ => HttpOk (encode_ascii (q "[{'generated_text': '{}'}]"));
     sent := []; now := no_clock; stdout := [] |}.

(** A reply whose generated text wraps, in commentary, an object with a
    summary and six bullets, one of them blank. *)
Definition five_bullets_reply : pystr :=
  q "[{'generated_text': 'Sure: {\'summary\': \' ok \', \'bullets\': [\' a \', \'  \', \'b\', \'c\', \'d\', \'e\']} Done.'}]".

(** A world with a résumé, a token, an output file left by an earlier run
    and an endpoint that always answers [five_bullets_reply]. *)
Definition stub_world : World :=
  {| root := u "/site";
     resume_file := Some (encode_ascii (u "Ada Lovelace" ++ [NL] ++ u "Engineer"));
     output_file := Some (encode_ascii (u "previous run"));
     environ := fun k => if pystr_eqb k HF_TOKEN then Some (u "hf_abc") else None;
     remote := fun _ => HttpOk (encode_ascii five_bullets_reply);
     sent := []; now := no_clock; stdout := [] |}.

(** The sections the pipeline assembles in [stub_world]. *)
Definition stub_sections : list LensResult :=
  match fst (generate_sections example_runtime
               (u "Ada Lovelace" ++ [NL] ++ u "Engineer") stub_world) with
  | Ok sections => sections
  | Err _ => []
  end.

(** A world like [stub_world] whose endpoint answers the second request
    with status 500. *)
Definition second_call_fails_world : World :=
  {| root := u "/site";
     resume_file := Some (encode_ascii (u "Ada Lovelace" ++ [NL] ++ u "Engineer"));
     output_file := Some (encode_ascii (u "previous run"));
     environ := fun k => if pystr_eqb k HF_TOKEN then Some (u "hf_abc") else None;
     remote := fun log =>
       if Nat.eqb (List.length log) 2 then HttpError 500 (encode_ascii (u "overloaded"))
       else HttpOk (encode_ascii five_bullets_reply);
     sent := []; now := no_clock; stdout := [] |}.

(** Two worlds offer the same inputs when the installation, the résumé
    file, the environment and the endpoint (with its history) coincide; the
    clock, the standard output and an output file left by an earlier run
    are free to differ. *)
Definition same_inputs (w1 w2 : World) : Prop :=
  root w1 = root w2
  /\ resume_file w1 = resume_file w2
  /\ (forall k, environ w1 k = environ w2 k)
  /\ (forall log, remote w1 log = remote w2 log)
  /\ sent w1 = sent w2.

(** A computation that cannot tell two such worlds apart. *)
Definition respects {A} (m : M A) : Prop :=
  forall w1 w2,
    same_inputs w1 w2 ->
    fst (m w1) = fst (m w2) /\ same_inputs (snd (m w1)) (snd (m w2)).

(** The text before the timestamp in the output document. *)
Definition DOCUMENT_HEAD : pystr :=
  u "{" ++ [NL] ++ q "  'generated_at': '".

(** The text after the timestamp. *)
Definition document_tail (rt : Runtime) (sections : list LensResult) : pystr :=
  [DQUOTE] ++ u "," ++ newline_indent 1
  ++ encode_basestring_ascii (u "model_hint") ++ u ": "
  ++ encode_basestring_ascii MODEL_HINT
  ++ u "," ++ newline_indent 1
  ++ encode_basestring_ascii (u "lenses") ++ u ": "
  ++ dumps_indent rt 1 (VList (map lens_value sections))
  ++ newline_indent 0 ++ u "}".

Definition plain (c : N) : Prop := escape_char c = [c].

(** The world of [stub_world] at a later time, after an earlier run left a
    different output file. *)
Definition later_world : World :=
  {| root := u "/site";
     resume_file := Some (encode_ascii (u "Ada Lovelace" ++ [NL] ++ u "Engineer"));
     output_file := None;
     environ := fun k => if pystr_eqb k HF_TOKEN then Some (u "hf_abc") else None;
     remote := fun _ => HttpOk (encode_ascii five_bullets_reply);
     sent := [];
     now := {| year := 2025; month := 11; day := 30; hour := 23; minute := 59; second := 9 |};
     stdout := [u "earlier output"] |}.

(** The lines of a concatenation: the last line of the first text and the
    first line of the second are one line. *)
Definition glue (A B : list pystr) : list pystr :=
  removelast A ++ [last A [] ++ hd [] B] ++ tl B.

(** The lines of the template around the two interpolations. *)
Definition HEAD_LINES : list pystr := removelast (split_lines TEMPLATE_HEAD).
Definition MID_LINES : list pystr := [[]; IND ++ u "Instruction:"].
Definition TAIL_LINES : list pystr := tl (split_lines TEMPLATE_TAIL).

Definition no_newline (s : pystr) : bool := negb (existsb (N.eqb NL) s).

(** What [dedent] does to one line once the margin is known. *)
Definition dedent_line (margin : option pystr) (l : pystr) : pystr :=
  match margin with
  | Some (c :: m) => remove_margin (c :: m) (normalize_line l)
  | _ => normalize_line l
  end.

Definition margin_of (ls : list pystr) : option pystr :=
  fold_left margin_step (flat_map indents_of_line (map normalize_line ls)) None.

Definition whitespace_only (l : pystr) : bool :=
  match l with
  | [] => false
  | _ => forallb is_blank l
  end.

Definition starts_nonblank (l : pystr) : bool :=
  match l with
  | c :: _ => negb (is_blank c)
  | [] => false
  end.

Definition is_empty (l : pystr) : bool :=
  match l with
  | [] => true
  | _ => false
  end.

(** A résumé whose lines [dedent] leaves as they are: no line is made of
    spaces and tabs only, and after the first line either every line is
    empty or some line starts with a character other than space and tab. *)
Definition survives_dedent (resume_text : pystr) : bool :=
  let ls := split_lines resume_text in
  forallb (fun l => negb (whitespace_only l)) ls
  && (forallb is_empty (tl ls) || existsb starts_nonblank (tl ls)).

(** What the prompt keeps of an instruction: it must stand on one line and
    start with a character other than space and tab. *)
Definition one_visible_line (instr : pystr) : bool :=
  no_newline instr && starts_nonblank instr.

(** ** Searches, requests and round trips *)

Definition lacks (c : N) (s : pystr) : bool :=
  negb (existsb (fun x => (x =? c)%N) s).

(** An error of the decoder proper: the fuel, the nesting, a syntax error
    or an integer literal above the limit of digits. *)
Definition decoder_error (e : pyerror) : Prop :=
  e = OutOfFuel \/ e = RecursionError \/ (exists m, e = JSONDecodeError m)
  \/ (exists n, (4300 < n)%nat /\ e = int_limit_error n).

Definition fails_as_decoder {A} (res : result A) : Prop :=
  forall e, res = Err e -> decoder_error e.

Definition NO_JSON : pystr := u "Model response did not contain JSON: ".

(** A reply whose object binds [a] to an integer of 4301 digits. *)
Definition long_integer_reply : pystr :=
  q "{'a': " ++ repeat 49%N 4301 ++ u "}".

Definition ascii_text (s : pystr) : bool := forallb (fun c => (c <? 128)%N) s.

(** A world like [stub_world] without the résumé file. *)
Definition missing_resume_world : World :=
  {| root := u "/site"; resume_file := None;
     output_file := Some (encode_ascii (u "previous run"));
     environ := fun k => if pystr_eqb k HF_TOKEN then Some (u "hf_abc") else None;
     remote := fun _ => HttpOk (encode_ascii five_bullets_reply);
     sent := []; now := no_clock; stdout := [] |}.

(** The credential a world resolves to, empty when there is none. *)
Definition credential (w : World) : pystr :=
  match token_of w with
  | Some tok => tok
  | None => []
  end.

(** What the table fixes of the record of a lens. *)
Definition from_table (lens : pystr * LensSpec) (r : LensResult) : Prop :=
  id r = fst lens /\ lens_title r = title (snd lens)
  /\ lens_terms r = recommended_terms (snd lens)
  /\ lens_notes r = match source_notes (snd lens) with Some n => n | None => [] end.

(** The requests of the given lenses, in their order. *)
Definition requests_of (w : World) (resume_text : pystr)
  (lenses : list (pystr * LensSpec)) : list Request :=
  map (fun lens => build_request (credential w) (model_of w)
                     (build_prompt resume_text (snd lens))) lenses.

Definition MODELS_URL : pystr := u "https://api-inference.huggingface.co/models/".

(** The request the client sends for a prompt. *)
Definition request_of (w : World) (prompt : pystr) : Request :=
  build_request (credential w) (model_of w) prompt.

(** A world like [stub_world] whose model variable is set to the empty
    string. *)
Definition empty_model_world : World :=
  {| root := u "/site";
     resume_file := Some (encode_ascii (u "Ada Lovelace" ++ [NL] ++ u "Engineer"));
     output_file := None;
     environ := fun k =>
       if pystr_eqb k HF_TOKEN then Some (u "hf_abc")
       else if pystr_eqb k HF_MODEL then Some [] else None;
     remote := fun _ => UrlError (u "no route");
     sent := []; now := no_clock; stdout := [] |}.

(** A world like [stub_world] whose endpoint answers every request with
    status 503. *)
Definition overloaded_world : World :=
  {| root := u "/site";
     resume_file := Some (encode_ascii (u "Ada Lovelace" ++ [NL] ++ u "Engineer"));
     output_file := Some (encode_ascii (u "previous run"));
     environ := fun k => if pystr_eqb k HF_TOKEN then Some (u "hf_abc") else None;
     remote := fun _ => HttpError 503 (encode_ascii (u "Model is loading"));
     sent := []; now := no_clock; stdout := [] |}.

(** The values that a [for] loop refuses. *)
Definition scalar (v : value) : bool :=
  match v with
  | VNone | VBool _ | VInt _ | VFloat _ => true
  | _ => false
  end.

(** The code points of Unicode that are not surrogates. *)
Definition scalar_value (c : N) : bool :=
  ((c <? 55296) || ((57343 <? c) && (c <? 1114112)))%N.

Definition valid_text (s : pystr) : bool := forallb scalar_value s.

(** What the decoder reads from the escape of a character. *)
Definition items_of_char (c : N) : list sitem :=
  if ((32 <=? c) && (c <=? 126))%N then [Lit c]
  else if ((c =? 10) || (c =? 13) || (c =? 9) || (c =? 12) || (c =? 8))%N then [Lit c]
  else if (c <? 65536)%N then [Esc c]
  else [Esc (55296 + (c - 65536) / 1024)%N; Esc (56320 + (c - 65536) mod 1024)%N].

Fixpoint distinct (keys : list pystr) : bool :=
  match keys with
  | [] => true
  | k :: r => negb (existsb (pystr_eqb k) r) && distinct r
  end.

(** The values made of [None], booleans, texts without surrogates, lists and
    dictionaries with distinct keys. *)
Fixpoint textual (v : value) : bool :=
  match v with
  | VNone | VBool _ => true
  | VInt _ | VFloat _ => false
  | VStr s => valid_text s
  | VList l => forallb textual l
  | VDict d =>
      forallb (fun kv => valid_text (fst kv) && textual (snd kv)) d
      && distinct (map fst d)
  end.

(** The levels of arrays and objects the decoder enters to read a value. *)
Fixpoint nesting (v : value) : nat :=
  match v with
  | VList l => S (list_max (map nesting l))
  | VDict d => S (list_max (map (fun kv => nesting (snd kv)) d))
  | _ => O
  end.

(** With enough fuel and [need] levels left, the step [p] of the decoder
    returns [out]. *)
Definition reads {A} (need : nat) (p : nat -> nat -> result (A * pystr))
  (out : A * pystr) : Prop :=
  exists fuel0, forall fuel depth,
    (fuel0 <= fuel)%nat -> (need <= depth)%nat -> p fuel depth = Ok out.

(** The decoder reads [v] back from its serialization at any indentation,
    whatever follows it. *)
Definition readable (rt : Runtime) (v : value) : Prop :=
  forall level rest,
    reads (nesting v)
      (fun fuel depth => scan_once fuel depth (dumps_indent rt level v ++ rest))
      (v, rest).

(** The payload of [call_hugging_face]. *)
Definition payload_of (prompt : pystr) : value :=
  VDict [ (u "inputs", VStr prompt);
          (u "parameters",
           VDict [ (u "max_new_tokens", VInt 320);
                   (u "temperature", VFloat (u "0.2"));
                   (u "return_full_text", VBool false) ]) ].

(** The texts of a record that come from the model. *)
Definition valid_reply (r : LensResult) : bool :=
  valid_text (summary r) && forallb valid_text (key_points r).

(** * Properties *)

Unset Implicit Arguments.

(** ** Whitespace and [strip] *)

Lemma all_space_app a b : all_space (a ++ b) = all_space a && all_space b.
Proof. apply forallb_app. Qed.

Lemma all_space_rev s : all_space (rev s) = all_space s.
Proof.
  induction s as [|c s IH]; simpl; trivial.
  rewrite all_space_app, IH. simpl. now rewrite andb_true_r, andb_comm.
Qed.

Lemma has_nonspace_app a b : has_nonspace (a ++ b) = has_nonspace a || has_nonspace b.
Proof. apply existsb_app. Qed.

Lemma all_space_has_nonspace s : all_space s = negb (has_nonspace s).
Proof.
  induction s as [|c s IH]; simpl; trivial.
  rewrite IH. now destruct (isspace c).
Qed.

Lemma lstrip_all_space p s : all_space p = true -> lstrip (p ++ s) = lstrip s.
Proof.
  induction p as [|c p IH]; simpl; trivial.
  destruct (isspace c); simpl; [exact IH | discriminate].
Qed.

Lemma lstrip_nil_iff s : lstrip s = [] <-> all_space s = true.
Proof.
  induction s as [|c s IH]; simpl; [tauto|].
  destruct (isspace c); simpl; [exact IH | split; discriminate].
Qed.

Lemma lstrip_split s : exists p, all_space p = true /\ s = p ++ lstrip s.
Proof.
  induction s as [|c s [p [Hp Hs]]].
  - now exists [].
  - simpl. destruct (isspace c) eqn:Hc.
    + exists (c :: p). simpl. rewrite Hc, Hp. split; [reflexivity | now f_equal].
    + now exists [].
Qed.

Lemma lstrip_head s :
  match lstrip s with
  | [] => True
  | c :: _ => isspace c = false
  end.
Proof.
  induction s as [|c s IH]; simpl; trivial.
  destruct (isspace c) eqn:Hc; simpl; trivial.
Qed.

Lemma lstrip_fixed c s : isspace c = false -> lstrip (c :: s) = c :: s.
Proof. intros H. simpl. now rewrite H. Qed.

Lemma lstrip_nonspace_app a b : has_nonspace a = true -> lstrip (a ++ b) = lstrip a ++ b.
Proof.
  induction a as [|c a IH]; simpl; [discriminate|].
  destruct (isspace c); simpl; trivial.
Qed.

Lemma lstrip_idem s : lstrip (lstrip s) = lstrip s.
Proof.
  pose proof (lstrip_head s) as H.
  destruct (lstrip s) as [|c r]; trivial. now apply lstrip_fixed.
Qed.

Lemma trimmed_nil : trimmed [].
Proof. now split. Qed.

Lemma trimmed_has_nonspace s : trimmed s -> s <> [] -> has_nonspace s = true.
Proof.
  intros [H _] Hne.
  destruct (has_nonspace s) eqn:E; trivial.
  assert (all_space s = true) as Ha by (rewrite all_space_has_nonspace, E; reflexivity).
  apply lstrip_nil_iff in Ha. congruence.
Qed.

(** [strip] removes whitespace around a trimmed core and nothing else. *)
Lemma strip_spec p core t :
  all_space p = true -> all_space t = true -> trimmed core ->
  strip (p ++ core ++ t) = core.
Proof.
  intros Hp Ht [Hl Hr]. unfold strip, rstrip.
  rewrite (lstrip_all_space _ _ Hp).
  destruct core as [|c core].
  - simpl. apply lstrip_nil_iff in Ht. now rewrite Ht.
  - assert (has_nonspace (c :: core) = true) as Hn
      by (apply trimmed_has_nonspace; [now split | discriminate]).
    rewrite (lstrip_nonspace_app _ _ Hn), Hl, rev_app_distr.
    rewrite lstrip_all_space by now rewrite all_space_rev.
    rewrite Hr. apply rev_involutive.
Qed.

Lemma strip_trimmed s : trimmed (strip s).
Proof.
  unfold strip, rstrip, trimmed. rewrite rev_involutive, lstrip_idem.
  split; trivial.
  pose proof (lstrip_head s) as Hh.
  destruct (lstrip s) as [|c a]; trivial.
  simpl rev. 
  assert (has_nonspace (rev a ++ [c]) = true) as Hn
    by (rewrite has_nonspace_app; simpl; rewrite Hh; now rewrite orb_true_r).
  destruct (lstrip_split (rev a ++ [c])) as [p [Hp Hs]].
  assert (exists y, lstrip (rev a ++ [c]) = y ++ [c]) as [y Hy].
  { destruct (has_nonspace (rev a)) eqn:Ha.
    - exists (lstrip (rev a)). now apply lstrip_nonspace_app.
    - exists []. rewrite lstrip_all_space; [now apply lstrip_fixed|].
      now rewrite all_space_has_nonspace, Ha. }
  rewrite Hy, rev_app_distr. simpl. now rewrite Hh.
Qed.

Lemma strip_idem s : strip (strip s) = strip s.
Proof.
  pose proof (strip_spec [] (strip s) [] eq_refl eq_refl (strip_trimmed s)) as H.
  now rewrite app_nil_r in H.
Qed.

Lemma strip_nil_all_space s : strip s = [] -> all_space s = true.
Proof.
  unfold strip, rstrip. intros H.
  assert (lstrip (rev (lstrip s)) = []) as H1.
  { destruct (lstrip (rev (lstrip s))) as [|c l]; trivial.
    simpl in H. now destruct (rev l). }
  apply lstrip_nil_iff in H1. rewrite all_space_rev in H1.
  destruct (lstrip_split s) as [p [Hp Hs]].
  rewrite Hs, all_space_app, Hp, H1. reflexivity.
Qed.

Lemma strip_single c : strip [c] = if isspace c then [] else [c].
Proof. unfold strip, rstrip. simpl. destruct (isspace c) eqn:E; simpl; now rewrite ?E. Qed.

(** ** Prefixes *)

Lemma starts_with_app p s : starts_with p (p ++ s) = true.
Proof. induction p as [|c p IH]; simpl; trivial. now rewrite N.eqb_refl. Qed.

Lemma starts_with_split p : forall s,
  starts_with p s = true -> s = p ++ skipn (List.length p) s.
Proof.
  induction p as [|c p IH]; intros [|x s]; simpl; trivial; try discriminate.
  intros H. apply andb_true_iff in H as [Hc Hp].
  apply N.eqb_eq in Hc as ->. f_equal. now apply IH.
Qed.

Lemma starts_with_refl p : starts_with p p = true.
Proof. rewrite <- (app_nil_r p) at 2. apply starts_with_app. Qed.

Lemma starts_with_trans a b c :
  starts_with a b = true -> starts_with b c = true -> starts_with a c = true.
Proof.
  intros Hab Hbc. apply starts_with_split in Hab, Hbc.
  rewrite Hbc, Hab, <- app_assoc. apply starts_with_app.
Qed.

(** ** The decoder's fuel *)

Lemma skip_ws_length s : (List.length (skip_ws s) <= List.length s)%nat.
Proof.
  induction s as [|c s IH]; simpl; trivial.
  destruct (json_ws c); simpl; lia.
Qed.

Lemma skip_ws_cons s c r :
  skip_ws s = c :: r -> (List.length r < List.length s)%nat.
Proof.
  intros H. pose proof (skip_ws_length s) as Hl. rewrite H in Hl. simpl in Hl. lia.
Qed.

Lemma scan_items_shorter s : forall st acc items r,
  scan_items st acc s = Ok (items, r) -> (List.length r < List.length s)%nat.
Proof.
  induction s as [|c s IH]; intros st acc items r; simpl.
  - destruct st; discriminate.
  - destruct st as [| |k a].
    + destruct (c =? 34)%N.
      * intros H. injection H as _ <-. lia.
      * destruct (c =? 92)%N; [intros H; apply IH in H; lia|].
        destruct (c <? 32)%N; [discriminate|]. intros H; apply IH in H; lia.
    + destruct (c =? 117)%N; [intros H; apply IH in H; lia|].
      destruct (backslash c); [|discriminate]. intros H; apply IH in H; lia.
    + destruct (hexval c); [|discriminate].
      destruct (Nat.eqb k 3); intros H; apply IH in H; lia.
Qed.

Lemma scan_items_error s : forall st acc e,
  scan_items st acc s = Err e -> exists m, e = JSONDecodeError m.
Proof.
  induction s as [|c s IH]; intros st acc e; simpl.
  - destruct st; intros H; injection H as <-; eauto.
  - destruct st as [| |k a].
    + destruct (c =? 34)%N; [discriminate|].
      destruct (c =? 92)%N; [apply IH|].
      destruct (c <? 32)%N; [intros H; injection H as <-; eauto | apply IH].
    + destruct (c =? 117)%N; [apply IH|].
      destruct (backslash c); [apply IH | intros H; injection H as <-; eauto].
    + destruct (hexval c); [|intros H; injection H as <-; eauto].
      destruct (Nat.eqb k 3); apply IH.
Qed.

Lemma scanstring_shorter s key r :
  scanstring s = Ok (key, r) -> (List.length r < List.length s)%nat.
Proof.
  unfold scanstring. destruct (scan_items SNormal [] s) as [[items r']|e] eqn:E;
    simpl; [|discriminate].
  intros H. injection H as _ <-. eapply scan_items_shorter; eassumption.
Qed.

Lemma scanstring_error s e : scanstring s = Err e -> e <> OutOfFuel.
Proof.
  unfold scanstring. destruct (scan_items SNormal [] s) as [[items r']|e'] eqn:E;
    simpl; [discriminate|].
  intros H. injection H as <-. apply scan_items_error in E as [m ->]. discriminate.
Qed.

Lemma span_digits_length s : forall d r,
  span_digits s = (d, r) -> (List.length r <= List.length s)%nat.
Proof.
  induction s as [|c s IH]; intros d r; simpl.
  - intros H. injection H as _ <-. trivial.
  - destruct (is_digit c).
    + destruct (span_digits s) as [d' r'] eqn:E. intros H. injection H as _ <-.
      specialize (IH d' r' eq_refl). lia.
    + intros H. injection H as _ <-. simpl. lia.
Qed.

Lemma strip_prefix_shorter p s r :
  p <> [] -> strip_prefix p s = Some r -> (List.length r < List.length s)%nat.
Proof.
  intros Hp. unfold strip_prefix. destruct (starts_with p s) eqn:E; [|discriminate].
  intros H. injection H as <-. apply starts_with_split in E.
  rewrite E at 2. rewrite length_app. destruct p; [congruence | simpl; lia].
Qed.

Lemma head_is_cons c s r : head_is c s = Some r -> s = c :: r.
Proof.
  destruct s as [|x s]; simpl; [discriminate|].
  destruct (N.eqb_spec x c) as [->|]; [|discriminate]. now intros [= ->].
Qed.

Lemma head_is_shorter c s r :
  head_is c s = Some r -> (List.length r < List.length s)%nat.
Proof. intros H. apply head_is_cons in H as ->. simpl. lia. Qed.

Lemma head_is_skip_shorter c s r :
  head_is c (skip_ws s) = Some r -> (List.length r < List.length s)%nat.
Proof.
  intros H. apply head_is_shorter in H. pose proof (skip_ws_length s). lia.
Qed.

Lemma match_sign_length s sign r :
  match_sign s = (sign, r) -> (List.length r <= List.length s)%nat.
Proof.
  unfold match_sign. destruct (head_is 45 s) as [r'|] eqn:E; intros [= _ <-].
  - apply head_is_shorter in E. lia.
  - trivial.
Qed.

Lemma match_int_shorter s ds r :
  match_int s = Some (ds, r) -> (List.length r < List.length s)%nat.
Proof.
  unfold match_int. destruct (head_is 48 s) as [r'|] eqn:E.
  - intros [= _ <-]. now apply head_is_shorter in E.
  - destruct s as [|c s]; [discriminate|].
    destruct (is_digit c); [|discriminate].
    destruct (span_digits s) as [d r'] eqn:Es. intros [= _ <-].
    apply span_digits_length in Es. simpl. lia.
Qed.

Lemma match_frac_length s frac r :
  match_frac s = (frac, r) -> (List.length r <= List.length s)%nat.
Proof.
  unfold match_frac. destruct (head_is 46 s) as [r'|] eqn:E.
  - destruct (span_digits r') as [[|d0 d] r''] eqn:Es; intros [= _ <-]; trivial.
    apply span_digits_length in Es. apply head_is_shorter in E. lia.
  - intros [= _ <-]. trivial.
Qed.

Lemma match_exp_sign_length s sg r :
  match_exp_sign s = (sg, r) -> (List.length r <= List.length s)%nat.
Proof.
  unfold match_exp_sign. destruct s as [|c s]; [intros [= _ <-]; trivial|].
  destruct ((c =? 45) || (c =? 43))%N; intros [= _ <-]; simpl; lia.
Qed.

Lemma match_exp_length s ex r :
  match_exp s = (ex, r) -> (List.length r <= List.length s)%nat.
Proof.
  unfold match_exp. destruct s as [|e s]; [intros [= _ <-]; trivial|].
  destruct ((e =? 101) || (e =? 69))%N; [|intros [= _ <-]; trivial].
  destruct (match_exp_sign s) as [sg r1] eqn:Er1. apply match_exp_sign_length in Er1.
  destruct (span_digits r1) as [[|d0 d] r2] eqn:Es; intros [= _ <-]; trivial.
  apply span_digits_length in Es. simpl. lia.
Qed.

Lemma match_number_shorter s integer frac ex r :
  match_number s = Some (integer, frac, ex, r) ->
  (List.length r < List.length s)%nat.
Proof.
  unfold match_number.
  destruct (match_sign s) as [sign s1] eqn:E1. apply match_sign_length in E1.
  destruct (match_int s1) as [[ds s2]|] eqn:E2; [|discriminate].
  apply match_int_shorter in E2.
  destruct (match_frac s2) as [fr s3] eqn:E3. apply match_frac_length in E3.
  destruct (match_exp s3) as [e s4] eqn:E4. apply match_exp_length in E4.
  intros [= _ _ _ <-]. lia.
Qed.

Lemma consumes_err {A} e s : e <> OutOfFuel -> @consumes A (Err e) s.
Proof. intros H. split; [congruence | discriminate]. Qed.

Lemma consumes_ok {A} (a : A) r s :
  (List.length r < List.length s)%nat -> consumes (Ok (a, r)) s.
Proof. intros H. split; [discriminate|]. now intros a' r' [= _ <-]. Qed.

Lemma consumes_map {A B} (res : result (A * pystr)) (f : A -> B) s :
  consumes res s ->
  consumes (try '(a, r) <- res; Ok (f a, r)) s.
Proof.
  intros [Hn Hs]. destruct res as [[a r]|e]; simpl.
  - apply consumes_ok. eauto.
  - apply consumes_err. congruence.
Qed.

Lemma scanstring_consumes s s' :
  (List.length s <= List.length s')%nat -> consumes (scanstring s) s'.
Proof.
  intros Hl. destruct (scanstring s) as [[key r]|e] eqn:E.
  - apply consumes_ok. apply scanstring_shorter in E. lia.
  - apply consumes_err. eapply scanstring_error; eassumption.
Qed.

Lemma scalar_consumes s :
  consumes
    match strip_prefix (u "null") s,
          strip_prefix (u "true") s,
          strip_prefix (u "false") s with
    | Some r', _, _ => Ok (VNone, r')
    | _, Some r', _ => Ok (VBool true, r')
    | _, _, Some r' => Ok (VBool false, r')
    | _, _, _ =>
        match match_number s with
        | Some (integer, frac, ex, r') =>
            match frac, ex with
            | [], [] => try z <- parse_int integer; Ok (VInt z, r')
            | _, _ => Ok (VFloat (integer ++ frac ++ ex), r')
            end
        | None =>
            match strip_prefix (u "NaN") s,
                  strip_prefix (u "Infinity") s,
                  strip_prefix (u "-Infinity") s with
            | Some r', _, _ => Ok (VFloat (u "NaN"), r')
            | _, Some r', _ => Ok (VFloat (u "Infinity"), r')
            | _, _, Some r' => Ok (VFloat (u "-Infinity"), r')
            | _, _, _ => Err expecting_value
            end
        end
    end s.
Proof.
  destruct (strip_prefix (u "null") s) eqn:E1;
    [apply consumes_ok; eapply strip_prefix_shorter; [|eassumption]; discriminate|].
  destruct (strip_prefix (u "true") s) eqn:E2;
    [apply consumes_ok; eapply strip_prefix_shorter; [|eassumption]; discriminate|].
  destruct (strip_prefix (u "false") s) eqn:E3;
    [apply consumes_ok; eapply strip_prefix_shorter; [|eassumption]; discriminate|].
  destruct (match_number s) as [[[[integer frac] ex] r]|] eqn:E4.
  - apply match_number_shorter in E4.
    destruct frac, ex; try now apply consumes_ok.
    destruct (parse_int integer) as [z|e] eqn:Ez; cbn [rbind];
      [now apply consumes_ok|].
    apply consumes_err. intros ->. revert Ez. unfold parse_int.
    destruct (match head_is 45 integer with Some d => (true, d) | None => (false, integer) end)
      as [negative d].
    destruct (INT_MAX_STR_DIGITS <? N.of_nat (List.length d))%N; discriminate.
  - destruct (strip_prefix (u "NaN") s) eqn:E5;
      [apply consumes_ok; eapply strip_prefix_shorter; [|eassumption]; discriminate|].
    destruct (strip_prefix (u "Infinity") s) eqn:E6;
      [apply consumes_ok; eapply strip_prefix_shorter; [|eassumption]; discriminate|].
    destruct (strip_prefix (u "-Infinity") s) eqn:E7;
      [apply consumes_ok; eapply strip_prefix_shorter; [|eassumption]; discriminate|].
    apply consumes_err. discriminate.
Qed.

Lemma consumes_weaken {A} (res : result (A * pystr)) s s' :
  consumes res s -> (List.length s <= List.length s')%nat -> consumes res s'.
Proof.
  intros [Hn Hs] Hl. split; trivial. intros a r H. specialize (Hs a r H). lia.
Qed.

(** With fuel above twice the length of the text, no step of the decoder
    runs out of it. *)
Lemma decoder_fuel fuel :
  (forall depth s,
      (2 * List.length s < fuel)%nat -> consumes (scan_once fuel depth s) s)
  /\ (forall depth acc s,
        (2 * List.length s + 1 < fuel)%nat ->
        consumes (object_loop fuel depth acc s) s)
  /\ (forall depth acc s,
        (2 * List.length s + 1 < fuel)%nat ->
        consumes (array_loop fuel depth acc s) s).
Proof.
  induction fuel as [|f (IHs & IHo & IHa)]; [split; [|split]; intros; lia|].
  split; [|split].
  - intros depth [|c r] Hf; cbn [scan_once]; [apply consumes_err; discriminate|].
    cbn [List.length] in Hf.
    destruct (c =? 34)%N.
    { apply consumes_map, scanstring_consumes. simpl. lia. }
    destruct (c =? 123)%N.
    { destruct depth as [|d]; [apply consumes_err; discriminate|].
      destruct (head_is 125 (skip_ws r)) as [r'|] eqn:E1.
      - apply consumes_ok. apply head_is_skip_shorter in E1. simpl. lia.
      - destruct (head_is 34 (skip_ws r)) as [r'|] eqn:E2.
        + apply head_is_skip_shorter in E2.
          apply (consumes_map (object_loop f d [] r')
                   (fun pairs => VDict (dict_of_pairs pairs))).
          apply (consumes_weaken _ r'); [apply IHo; lia | simpl; lia].
        + apply consumes_err. discriminate. }
    destruct (c =? 91)%N.
    { destruct depth as [|d]; [apply consumes_err; discriminate|].
      destruct (head_is 93 (skip_ws r)) as [r'|] eqn:E1.
      - apply consumes_ok. apply head_is_skip_shorter in E1. simpl. lia.
      - pose proof (skip_ws_length r) as Hl.
        apply (consumes_map (array_loop f d [] (skip_ws r)) VList).
        apply (consumes_weaken _ (skip_ws r)); [apply IHa; lia | simpl; lia]. }
    apply scalar_consumes.
  - intros depth acc s Hf. cbn [object_loop].
    destruct (scanstring s) as [[key r1]|e] eqn:E1; cbn [rbind];
      [|apply consumes_err; eapply scanstring_error; eassumption].
    apply scanstring_shorter in E1.
    destruct (head_is 58 (skip_ws r1)) as [r2|] eqn:E2;
      [|apply consumes_err; discriminate].
    apply head_is_skip_shorter in E2. pose proof (skip_ws_length r2) as Hl2.
    destruct (IHs depth (skip_ws r2)) as [Hn Hs]; [lia|].
    destruct (scan_once f depth (skip_ws r2)) as [[v r3]|e] eqn:E3; cbn [rbind];
      [|apply consumes_err; congruence].
    specialize (Hs v r3 eq_refl).
    destruct (head_is 125 (skip_ws r3)) as [r4|] eqn:E4.
    { apply consumes_ok. apply head_is_skip_shorter in E4. lia. }
    destruct (head_is 44 (skip_ws r3)) as [r4|] eqn:E5;
      [|apply consumes_err; discriminate].
    apply head_is_skip_shorter in E5.
    destruct (head_is 34 (skip_ws r4)) as [r5|] eqn:E6;
      [|apply consumes_err; discriminate].
    apply head_is_skip_shorter in E6.
    apply (consumes_weaken _ r5); [apply IHo; lia | lia].
  - intros depth acc s Hf. cbn [array_loop].
    destruct (IHs depth s) as [Hn Hs]; [lia|].
    destruct (scan_once f depth s) as [[v r1]|e] eqn:E1; cbn [rbind];
      [|apply consumes_err; congruence].
    specialize (Hs v r1 eq_refl).
    destruct (head_is 93 (skip_ws r1)) as [r2|] eqn:E2.
    { apply consumes_ok. apply head_is_skip_shorter in E2. lia. }
    destruct (head_is 44 (skip_ws r1)) as [r2|] eqn:E3;
      [|apply consumes_err; discriminate].
    apply head_is_skip_shorter in E3. pose proof (skip_ws_length r2) as Hl2.
    apply (consumes_weaken _ (skip_ws r2)); [apply IHa; lia | lia].
Qed.

(** [json_loads] never runs out of fuel. *)
Lemma json_loads_fuel limit s : json_loads limit s <> Err OutOfFuel.
Proof.
  unfold json_loads. destruct (head_is 65279 s); [discriminate|].
  pose proof (skip_ws_length s) as Hl.
  destruct (proj1 (decoder_fuel (2 * List.length s + 2)) limit (skip_ws s)) as [Hn _];
    [lia|].
  destruct (scan_once _ _) as [[v rest]|e]; cbn [rbind]; [|congruence].
  destruct (skip_ws rest); discriminate.
Qed.

Lemma rbind_not_recursion {A B} (r : result A) (k : A -> result B) :
  rbind r k <> Err RecursionError -> r <> Err RecursionError.
Proof. intros H ->. now apply H. Qed.

(** A step of the decoder that did not exceed the levels it was given gives
    the same result with more levels. *)
Lemma decoder_depth_more fuel :
  (forall depth s, scan_once fuel depth s <> Err RecursionError ->
     forall depth', (depth <= depth')%nat ->
                    scan_once fuel depth' s = scan_once fuel depth s)
  /\ (forall depth acc s, object_loop fuel depth acc s <> Err RecursionError ->
        forall depth', (depth <= depth')%nat ->
                       object_loop fuel depth' acc s = object_loop fuel depth acc s)
  /\ (forall depth acc s, array_loop fuel depth acc s <> Err RecursionError ->
        forall depth', (depth <= depth')%nat ->
                       array_loop fuel depth' acc s = array_loop fuel depth acc s).
Proof.
  induction fuel as [|f (IHs & IHo & IHa)].
  { split; [|split]; intros; reflexivity. }
  split; [|split].
  - intros depth s H depth' Hle. revert H. cbn [scan_once].
    destruct s as [|c r]; [reflexivity|].
    destruct (c =? 34)%N; [reflexivity|].
    destruct (c =? 123)%N.
    { destruct depth as [|d]; [congruence|].
      destruct depth' as [|d']; [lia|]. assert (Hd : (d <= d')%nat) by lia.
      destruct (head_is 125 (skip_ws r)); [reflexivity|].
      destruct (head_is 34 (skip_ws r)) as [r'|]; [|reflexivity].
      intros H. now rewrite (IHo d [] r' (rbind_not_recursion _ _ H) d' Hd). }
    destruct (c =? 91)%N.
    { destruct depth as [|d]; [congruence|].
      destruct depth' as [|d']; [lia|]. assert (Hd : (d <= d')%nat) by lia.
      destruct (head_is 93 (skip_ws r)); [reflexivity|].
      intros H. now rewrite (IHa d [] _ (rbind_not_recursion _ _ H) d' Hd). }
    reflexivity.
  - intros depth acc s H depth' Hle. revert H. cbn [object_loop].
    destruct (scanstring s) as [[key r1]|e]; cbn [rbind]; [|reflexivity].
    destruct (head_is 58 (skip_ws r1)) as [r2|]; [|reflexivity].
    intros H. rewrite (IHs _ _ (rbind_not_recursion _ _ H) depth' Hle).
    destruct (scan_once f depth (skip_ws r2)) as [[v r3]|e]; cbn [rbind] in *;
      [|reflexivity].
    destruct (head_is 125 (skip_ws r3)); [reflexivity|].
    destruct (head_is 44 (skip_ws r3)) as [r4|]; [|reflexivity].
    destruct (head_is 34 (skip_ws r4)) as [r5|]; [|reflexivity].
    now apply IHo.
  - intros depth acc s H depth' Hle. revert H. cbn [array_loop]. intros H.
    rewrite (IHs _ _ (rbind_not_recursion _ _ H) depth' Hle).
    destruct (scan_once f depth s) as [[v r1]|e]; cbn [rbind] in *; [|reflexivity].
    destruct (head_is 93 (skip_ws r1)); [reflexivity|].
    destruct (head_is 44 (skip_ws r1)) as [r2|]; [|reflexivity].
    now apply IHa.
Qed.

(** What [json_loads] answers with some levels, short of a [RecursionError],
    it answers with more. *)
Lemma json_loads_deeper limit limit' s :
  json_loads limit s <> Err RecursionError -> (limit <= limit')%nat ->
  json_loads limit' s = json_loads limit s.
Proof.
  unfold json_loads. destruct (head_is 65279 s); [reflexivity|]. intros H Hle.
  now rewrite (proj1 (decoder_depth_more _) _ _ (rbind_not_recursion _ _ H) _ Hle).
Qed.

Lemma nesting_limit_floor rt : (4 <= nesting_limit rt)%nat.
Proof. apply Nat.leb_le, nesting_floor. Qed.

(** What [json_loads] answers with four levels, short of a [RecursionError],
    it answers in every runtime. *)
Lemma json_loads_floor rt s res :
  json_loads 4 s = res -> res <> Err RecursionError ->
  json_loads (nesting_limit rt) s = res.
Proof.
  intros <- H. apply json_loads_deeper; [exact H | apply nesting_limit_floor].
Qed.

(** ** The response extractor *)

Lemma find_range c t :
  find c t = (-1)%Z
  \/ ((0 <= find c t < Z.of_nat (List.length t))%Z
      /\ exists rest, skipn (Z.to_nat (find c t)) t = c :: rest).
Proof.
  induction t as [|x t IH]; [now left|].
  cbn [find]. destruct (N.eqb_spec x c) as [->|Hx].
  - right. split; [cbn [List.length]; lia | now exists t].
  - destruct IH as [-> | [Hr [rest Hrest]]]; [now left|].
    right. destruct (Z.ltb_spec (find c t) 0); [lia|].
    split; [cbn [List.length]; lia|].
    exists rest. rewrite Z2Nat.inj_add by lia. rewrite Nat.add_comm. exact Hrest.
Qed.

(** A text the decoder accepts and that opens with a brace is an object. *)
Lemma json_loads_object limit r v :
  json_loads limit (123%N :: r) = Ok v -> exists d, v = VDict d.
Proof.
  unfold json_loads. cbn [head_is N.eqb Pos.eqb skip_ws json_ws orb].
  replace (2 * List.length (123%N :: r) + 2)%nat
    with (S (2 * List.length r + 3))%nat by (cbn [List.length]; lia).
  cbn [scan_once N.eqb Pos.eqb].
  destruct limit as [|limit]; [discriminate|].
  destruct (head_is 125 (skip_ws r)) as [r'|].
  - cbn [rbind]. destruct (skip_ws r'); [|discriminate]. intros [= <-]. eauto.
  - destruct (head_is 34 (skip_ws r)) as [r'|]; [|discriminate].
    destruct (object_loop _ _ _) as [[pairs r'']|e]; cbn [rbind]; [|discriminate].
    destruct (skip_ws r''); [|discriminate]. intros [= <-]. eauto.
Qed.

(** The extractor returns objects only: the text it parses starts at the
    first opening brace. *)
Lemma extract_json_block_object rt text v :
  extract_json_block rt text = Ok v -> exists d, v = VDict d.
Proof.
  unfold extract_json_block. destruct text as [| | | |t| |]; try discriminate.
  destruct (find_range 123 t) as [-> | [Hr [rest Hrest]]]; [discriminate|].
  destruct (Z.eqb_spec (find 123 t) (-1)); [lia|].
  destruct (Z.eqb_spec (rfind 125 t) (-1)); [discriminate|].
  destruct (Z.leb_spec (rfind 125 t) (find 123 t)); [discriminate|].
  cbn [orb]. unfold slice.
  remember (Z.of_nat (List.length t)) as len eqn:Hlen.
  replace (Z.min len
             (Z.max 0 (if (find 123 t <? 0)%Z then find 123 t + len else find 123 t)))%Z
    with (find 123 t)
    by (destruct (Z.ltb_spec (find 123 t) 0); lia).
  rewrite Hrest.
  match goal with
  | |- context [firstn ?count _] => destruct count as [|k] eqn:Hk
  end.
  - exfalso. revert Hk. destruct (Z.ltb_spec (rfind 125 t + 1) 0); lia.
  - cbn [firstn]. apply json_loads_object.
Qed.

(** Short of a [RecursionError], what the extractor answers in the runtime
    with the fewest levels it answers in every runtime. *)
Lemma extract_json_block_floor rt text res :
  extract_json_block minimal_runtime text = res -> res <> Err RecursionError ->
  extract_json_block rt text = res.
Proof.
  unfold extract_json_block. destruct text as [| | | |t| |]; try (intros <- _; reflexivity).
  destruct ((find 123 t =? -1) || (rfind 125 t =? -1) || (rfind 125 t <=? find 123 t))%Z;
    [intros <- _; reflexivity|].
  apply json_loads_floor.
Qed.

(** C1, as the spec states it, fails: in [{"a":1} blah {] the last closing
    brace is the one at index 6, so the substring located is [{"a":1}], not
    the whole text, and the extractor returns the object instead of raising. *)
Lemma extractor_trailing_open_brace_counterexample :
  slice (q "{'a':1} blah {")
        (find 123 (q "{'a':1} blah {")) (rfind 125 (q "{'a':1} blah {") + 1)
  <> q "{'a':1} blah {"
  /\ extract_json_block example_runtime (VStr (q "{'a':1} blah {"))
     = Ok (VDict [(u "a", VInt 1)]).
Proof.
  split; [|vm_compute; reflexivity].
  intros H. apply (f_equal (@List.length N)) in H. vm_compute in H. discriminate.
Qed.

(** C1 (amended): for the input [{"a":1} blah {] the first opening brace is
    at index 0 and the last closing brace at index 6; the substring between
    them, inclusive, is [{"a":1}]; it parses, and the extractor returns the
    object with the single key [a] bound to 1.  The whole text, which the
    extractor never parses, is not valid JSON. *)
Theorem extract_json_block_trailing_open_brace rt :
  find 123 (q "{'a':1} blah {") = 0%Z
  /\ rfind 125 (q "{'a':1} blah {") = 6%Z
  /\ slice (q "{'a':1} blah {") 0 (6 + 1) = q "{'a':1}"
  /\ json_loads (nesting_limit rt) (q "{'a':1}") = Ok (VDict [(u "a", VInt 1)])
  /\ extract_json_block rt (VStr (q "{'a':1} blah {")) = Ok (VDict [(u "a", VInt 1)])
  /\ json_loads (nesting_limit rt) (q "{'a':1} blah {")
     = Err (JSONDecodeError (u "Extra data")).
Proof.
  repeat split;
    first [ apply json_loads_floor; [vm_compute; reflexivity | discriminate]
          | apply extract_json_block_floor; [vm_compute; reflexivity | discriminate]
          | vm_compute; reflexivity ].
Qed.

(** ** Assembling a lens record *)

Lemma Forall_firstn {A} (P : A -> Prop) n (l : list A) :
  Forall P l -> Forall P (firstn n l).
Proof.
  intros H. revert n. induction H as [|x l Hx Hl IH]; intros [|n]; simpl; auto.
Qed.

Lemma nonempty_true s : nonempty s = true <-> s <> [].
Proof. destruct s; simpl; split; congruence. Qed.

(** The comprehension of line 140 yields trimmed, non-empty texts. *)
Lemma bullets_trimmed rt (items : list value) :
  Forall (fun k => k <> [] /\ strip k = k)
    (map (fun item => strip (str_ rt item))
       (filter (fun item => nonempty (strip (str_ rt item))) items)).
Proof.
  apply Forall_map, Forall_forall. intros item Hin.
  apply filter_In in Hin as [_ Hne].
  split; [now apply nonempty_true | apply strip_idem].
Qed.

Lemma assemble_inv rt lens_id spec payload r :
  assemble rt lens_id spec payload = Ok r ->
  exists d items,
    payload = VDict d
    /\ iterate match dict_get d (u "bullets") with
               | Some v => v
               | None => VList []
               end = Ok items
    /\ summary r = strip (str_ rt match dict_get d (u "summary") with
                                  | Some v => v
                                  | None => VStr []
                                  end)
    /\ key_points r =
         firstn 3 (map (fun item => strip (str_ rt item))
                     (filter (fun item => nonempty (strip (str_ rt item))) items))
    /\ id r = lens_id /\ lens_title r = title spec
    /\ lens_terms r = recommended_terms spec.
Proof.
  unfold assemble. destruct payload; simpl; try discriminate.
  destruct (iterate _) as [items|e] eqn:Hit; simpl; [|discriminate].
  intros H. injection H as <-. exists d, items. simpl. repeat split; auto.
Qed.

Lemma assemble_capped rt lens_id spec payload r :
  assemble rt lens_id spec payload = Ok r -> capped_points r.
Proof.
  intros H. apply assemble_inv in H as (d & items & _ & _ & _ & Hk & _).
  unfold capped_points. rewrite Hk. split.
  - rewrite length_firstn. lia.
  - apply Forall_firstn, bullets_trimmed.
Qed.

(** C4: the response object with summary ["  hi  "] and the five bullets
    ["  a  "], [""], ["b"], ["c"], ["d"] is assembled, for any lens, into a
    record whose summary is ["hi"] and whose key points are ["a"], ["b"],
    ["c"]; the object is what the extractor returns for its JSON text. *)
Theorem assemble_trims_drops_truncates rt lens_id spec :
  extract_json_block rt
    (VStr (q "{'summary': '  hi  ', 'bullets': ['  a  ', '', 'b', 'c', 'd']}"))
  = Ok (VDict [ (u "summary", VStr (u "  hi  "));
                (u "bullets", VList [ VStr (u "  a  "); VStr (u ""); VStr (u "b");
                                      VStr (u "c"); VStr (u "d") ]) ])
  /\ assemble rt lens_id spec
       (VDict [ (u "summary", VStr (u "  hi  "));
                (u "bullets", VList [ VStr (u "  a  "); VStr (u ""); VStr (u "b");
                                      VStr (u "c"); VStr (u "d") ]) ])
     = Ok {| id := lens_id;
             lens_title := title spec;
             summary := u "hi";
             key_points := [u "a"; u "b"; u "c"];
             lens_terms := recommended_terms spec;
             lens_notes := match source_notes spec with Some n => n | None => [] end |}.
Proof.
  split; [apply extract_json_block_floor; [|discriminate]|]; vm_compute; reflexivity.
Qed.

(** Settles every comparison of the goal whose outcome follows from the
    hypotheses by linear arithmetic. *)
Ltac decide_comparisons :=
  repeat match goal with
         | |- context [(?a <=? ?b)%N] =>
             first [ rewrite (proj2 (N.leb_le a b)) by lia
                   | rewrite (proj2 (N.leb_gt a b)) by lia ]
         | |- context [(?a <? ?b)%N] =>
             first [ rewrite (proj2 (N.ltb_lt a b)) by lia
                   | rewrite (proj2 (N.ltb_ge a b)) by lia ]
         | |- context [(?a =? ?b)%N] =>
             first [ rewrite (proj2 (N.eqb_eq a b)) by lia
                   | rewrite (proj2 (N.eqb_neq a b)) by lia ]
         end.

Lemma digit_not_space c : (48 <= c <= 57)%N -> isspace c = false.
Proof. intros H. unfold isspace. decide_comparisons. reflexivity. Qed.

Lemma digits_fuel_keeps fuel : forall n acc,
  has_nonspace acc = true -> has_nonspace (digits_fuel fuel n acc) = true.
Proof.
  induction fuel as [|f IH]; intros n acc H; cbn [digits_fuel]; trivial.
  assert (has_nonspace ((48 + n mod 10)%N :: acc) = true) as H'
    by (cbn [has_nonspace existsb]; fold (has_nonspace acc); rewrite H; apply orb_true_r).
  destruct (n <? 10)%N; [exact H' | now apply IH].
Qed.

Lemma digits_has_nonspace n : has_nonspace (digits n) = true.
Proof.
  assert (has_nonspace [(48 + n mod 10)%N] = true) as H.
  { unfold has_nonspace, existsb. rewrite digit_not_space; trivial.
    assert (n mod 10 < 10)%N as Hm by (apply N.mod_lt; discriminate).
    revert Hm. generalize (n mod 10)%N. intros; lia. }
  unfold digits. cbn [digits_fuel].
  destruct (n <? 10)%N; [exact H | now apply digits_fuel_keeps].
Qed.

Lemma str_int_has_nonspace z : has_nonspace (str_int z) = true.
Proof.
  unfold str_int. destruct (z <? 0)%Z; [reflexivity | apply digits_has_nonspace].
Qed.

(** [str()] of a value that is not a string is never blank, given that the
    runtime's [repr] of a float is never blank. *)
Lemma str_nonstring_has_nonspace rt v :
  (forall l, has_nonspace (float_repr rt l) = true) ->
  (forall s, v <> VStr s) ->
  has_nonspace (str_ rt v) = true.
Proof.
  intros Hf Hv. destruct v as [|[|]|z|l|s|l|d]; simpl; trivial.
  - apply str_int_has_nonspace.
  - now destruct (Hv s).
Qed.

Lemma strip_nil_iff s : strip s = [] <-> all_space s = true.
Proof.
  split; [apply strip_nil_all_space|]. intros H. unfold strip.
  now rewrite (proj2 (lstrip_nil_iff s) H).
Qed.

(** C9, as the spec states it, fails in its last clause: a field that is
    present yields the empty summary too, when it is a string of whitespace.
    The object [{"summary": "   "}] is assembled with an empty summary, so an
    empty summary does not tell that the field was absent. *)
Lemma summary_blank_string_counterexample :
  dict_get [(u "summary", VStr (u "   "))] (u "summary") = Some (VStr (u "   "))
  /\ (exists r,
        assemble example_runtime (u "x") example_spec
          (VDict [(u "summary", VStr (u "   "))]) = Ok r
        /\ summary r = [])
  /\ ~ (forall rt lens_id spec d r,
          assemble rt lens_id spec (VDict d) = Ok r ->
          summary r = [] -> dict_get d (u "summary") = None).
Proof.
  split; [reflexivity|]. split; [eexists; split; reflexivity|].
  intros H.
  specialize (H example_runtime (u "x") example_spec
                [(u "summary", VStr (u "   "))] _ eq_refl eq_refl).
  discriminate.
Qed.

(** C9 (amended): when the response object binds [summary] to [None] (JSON
    [null]), the assembled summary is the four characters [None]; a present
    value is passed through [str()] and trimmed; an absent field gives the
    empty summary; and the summary is empty exactly when the field is absent
    or is a string of whitespace only, the empty string included: a present
    value that is not a string never gives an empty summary (for a float, as
    long as the runtime prints floats with a visible character). *)
Theorem summary_null_is_stringified rt lens_id spec d r :
  assemble rt lens_id spec (VDict d) = Ok r ->
  (dict_get d (u "summary") = Some VNone -> summary r = u "None")
  /\ (forall v, dict_get d (u "summary") = Some v -> summary r = strip (str_ rt v))
  /\ (dict_get d (u "summary") = None -> summary r = [])
  /\ ((forall l, has_nonspace (float_repr rt l) = true) ->
      (summary r = []
       <-> dict_get d (u "summary") = None
           \/ exists s, dict_get d (u "summary") = Some (VStr s) /\ all_space s = true)).
Proof.
  intros H. apply assemble_inv in H as (d' & items & Hd & _ & Hs & _).
  injection Hd as <-. repeat split.
  - intros E. rewrite Hs, E. reflexivity.
  - intros v E. rewrite Hs, E. reflexivity.
  - intros E. rewrite Hs, E. reflexivity.
  - rewrite Hs. destruct (dict_get d (u "summary")) as [v|]; [|now left].
    intros Hnil. right. apply strip_nil_all_space in Hnil.
    destruct v as [|b|z|l|s|l|m];
      try (rewrite all_space_has_nonspace, str_nonstring_has_nonspace in Hnil;
           [discriminate | assumption | discriminate]).
    exists s. split; [reflexivity | exact Hnil].
  - rewrite Hs. intros [-> | (s & -> & Ha)]; [reflexivity|].
    now apply strip_nil_iff.
Qed.

Lemma summary_null_is_stringified_witness :
  exists r,
    assemble example_runtime (u "x") example_spec
      (VDict [(u "summary", VNone); (u "bullets", VList [VStr (u "one")])]) = Ok r
    /\ summary r = u "None".
Proof.
  eexists. split; [reflexivity|].
  exact (proj1 (summary_null_is_stringified example_runtime (u "x") example_spec
                  [(u "summary", VNone); (u "bullets", VList [VStr (u "one")])]
                  _ eq_refl) eq_refl).
Defined.

Lemma chars_bullets rt (s : pystr) :
  map (fun item => strip (str_ rt item))
    (filter (fun item => nonempty (strip (str_ rt item)))
       (map (fun c => VStr [c]) s))
  = map (fun c => [c]) (filter (fun c => negb (isspace c)) s).
Proof.
  induction s as [|c s IH]; simpl; trivial.
  rewrite strip_single. destruct (isspace c) eqn:Hc; simpl; trivial.
  rewrite strip_single, Hc, IH. reflexivity.
Qed.

(** C10: when [bullets] is a string, the pipeline walks it character by
    character: the lens is assembled, and its key points are the first three
    characters of the string that are not whitespace, each as a
    one-character text. *)
Theorem bullets_string_walked_by_character rt lens_id spec d s :
  dict_get d (u "bullets") = Some (VStr s) ->
  exists r,
    assemble rt lens_id spec (VDict d) = Ok r
    /\ key_points r
       = firstn 3 (map (fun c => [c]) (filter (fun c => negb (isspace c)) s)).
Proof.
  intros E. unfold assemble. simpl. rewrite E. simpl.
  eexists. split; [reflexivity|]. simpl. now rewrite chars_bullets.
Qed.

Lemma bullets_string_walked_by_character_witness :
  exists r,
    assemble example_runtime (u "x") example_spec
      (VDict [(u "summary", VStr (u "s")); (u "bullets", VStr (u "abcd"))])
    = Ok r
    /\ key_points r = [u "a"; u "b"; u "c"].
Proof.
  destruct (bullets_string_walked_by_character example_runtime (u "x") example_spec
              [(u "summary", VStr (u "s")); (u "bullets", VStr (u "abcd"))]
              (u "abcd") eq_refl) as [r [H1 H2]].
  exists r. split; [exact H1 | rewrite H2; reflexivity].
Defined.

(** Whitespace inside a string of bullets is skipped. *)
Example bullets_string_skips_whitespace :
  option_map key_points
    match assemble example_runtime (u "x") example_spec
            (VDict [(u "bullets", VStr (u " a b" ++ [NL; TAB] ++ u "cd"))]) with
    | Ok r => Some r
    | Err _ => None
    end
  = Some [u "a"; u "b"; u "c"].
Proof. vm_compute. reflexivity. Qed.

(** ** The inference client *)

Lemma call_hugging_face_unfold rt prompt w :
  call_hugging_face rt prompt w =
  match token_of w with
  | Some (c :: t) =>
      let log := sent w ++ [build_request (c :: t) (model_of w) prompt] in
      (outcome_result rt (remote w log), with_sent w log)
  | _ => (Err (EnvironmentError MISSING_TOKEN), w)
  end.
Proof.
  unfold call_hugging_face, token_of, model_of, bind, get_env, urlopen, lift, raise.
  cbn beta iota.
  destruct (or_else _ _) as [[|c t]|]; trivial.
  cbn. destruct (remote w _); reflexivity.
Qed.

Lemma with_sent_same w : with_sent w (sent w) = w.
Proof. now destruct w. Qed.

(** The client changes nothing of the world but the log of requests. *)
Lemma call_hugging_face_frame rt prompt w r w' :
  call_hugging_face rt prompt w = (r, w') -> exists log, w' = with_sent w log.
Proof.
  rewrite call_hugging_face_unfold.
  destruct (token_of w) as [[|c t]|]; intros H; injection H as _ <-;
    eauto using eq_sym, with_sent_same.
Qed.

(** C8: with [HF_API_TOKEN] set to the empty string, the client falls
    through to [HF_TOKEN]: when that is empty too it raises the
    missing-credential error without sending anything, exactly as a world
    with neither variable set does; when it is a non-empty token, the request
    goes out with that token as the bearer credential. *)
Theorem empty_credential_falls_through rt prompt w :
  environ w HF_API_TOKEN = Some [] ->
  (environ w HF_TOKEN = Some [] ->
   call_hugging_face rt prompt w = (Err (EnvironmentError MISSING_TOKEN), w)
   /\ forall w0,
        environ w0 HF_API_TOKEN = None -> environ w0 HF_TOKEN = None ->
        call_hugging_face rt prompt w0 = (Err (EnvironmentError MISSING_TOKEN), w0))
  /\ (forall c t,
        environ w HF_TOKEN = Some (c :: t) ->
        sent (snd (call_hugging_face rt prompt w))
        = sent w ++ [build_request (c :: t) (model_of w) prompt]
        /\ headers (build_request (c :: t) (model_of w) prompt)
           = [ (u "Authorization", u "Bearer " ++ c :: t);
               (u "Content-Type", u "application/json") ]).
Proof.
  intros Hp. split.
  - intros Hf. split.
    + rewrite call_hugging_face_unfold. unfold token_of. now rewrite Hp, Hf.
    + intros w0 H1 H2. rewrite call_hugging_face_unfold. unfold token_of.
      now rewrite H1, H2.
  - intros c t Hf. split; [|reflexivity].
    rewrite call_hugging_face_unfold. unfold token_of. now rewrite Hp, Hf.
Qed.

Lemma empty_credential_falls_through_witness :
  call_hugging_face example_runtime (u "p") empty_token_world
  = (Err (EnvironmentError MISSING_TOKEN), empty_token_world).
Proof.
  exact (proj1 (proj1 (empty_credential_falls_through example_runtime (u "p")
                         empty_token_world eq_refl) eq_refl)).
Defined.

(** C3, as the spec states it, fails: the body [[{"generated_text": ""}]] is
    valid JSON, a non-empty array whose first element is an object with a
    [generated_text] field, and yet the client raises. *)
Lemma client_empty_generated_text_counterexample :
  json_loads (nesting_limit example_runtime) (q "[{'generated_text': ''}]")
  = Ok (VList [VDict [(GENERATED_TEXT, VStr [])]])
  /\ dict_get [(GENERATED_TEXT, VStr [])] GENERATED_TEXT = Some (VStr [])
  /\ fst (call_hugging_face example_runtime (u "p") empty_text_world)
     = Err (ValueError (u "Unexpected response payload: ")
              (VList [VDict [(GENERATED_TEXT, VStr [])]])).
Proof. repeat split; vm_compute; reflexivity. Qed.

(** C3 (amended): when the transport answers with a body that decodes and
    that [json.loads] parses to [parsed] (valid JSON within the limits of the
    interpreter: no integer of more than 4300 digits, no nesting beyond the
    levels left), the client's result is decided by [parsed] alone.
    - A non-empty array whose first element is an object binding
      [generated_text] to a non-empty string: that string is returned.
    - A non-empty array whose first element is an object in which
      [generated_text] is absent or falsy (the empty string, for one): a
      [ValueError] carrying [parsed].
    - An object with a [generated_text] field: [str()] of the field.
    - An object without the field, an empty array, or a value that is
      neither an array nor an object: a [ValueError] carrying [parsed]. *)
Theorem client_reads_recognized_shapes rt prompt w c t body text parsed :
  token_of w = Some (c :: t) ->
  remote w (sent w ++ [build_request (c :: t) (model_of w) prompt]) = HttpOk body ->
  decode_utf8 body = Ok text ->
  json_loads (nesting_limit rt) text = Ok parsed ->
  (forall d rest s0 s,
     parsed = VList (VDict d :: rest) ->
     dict_get d GENERATED_TEXT = Some (VStr (s0 :: s)) ->
     fst (call_hugging_face rt prompt w) = Ok (VStr (s0 :: s)))
  /\ (forall d rest,
        parsed = VList (VDict d :: rest) ->
        (dict_get d GENERATED_TEXT = None
         \/ exists g, dict_get d GENERATED_TEXT = Some g /\ truthy g = false) ->
        fst (call_hugging_face rt prompt w)
        = Err (ValueError (u "Unexpected response payload: ") parsed))
  /\ (forall d g,
        parsed = VDict d ->
        dict_get d GENERATED_TEXT = Some g ->
        fst (call_hugging_face rt prompt w) = Ok (VStr (str_ rt g)))
  /\ ((parsed = VList []
       \/ (exists d, parsed = VDict d /\ dict_get d GENERATED_TEXT = None)
       \/ parsed = VNone
       \/ (exists b, parsed = VBool b)
       \/ (exists z, parsed = VInt z)
       \/ (exists l, parsed = VFloat l)
       \/ (exists s, parsed = VStr s)) ->
      fst (call_hugging_face rt prompt w)
      = Err (ValueError (u "Unhandled response structure: ") parsed)).
Proof.
  intros Htok Hrem Hdec Hload.
  assert (fst (call_hugging_face rt prompt w) = read_response rt parsed) as ->.
  { rewrite call_hugging_face_unfold, Htok. cbn [fst]. rewrite Hrem.
    unfold outcome_result. rewrite Hdec. cbn [rbind]. now rewrite Hload. }
  repeat split.
  - intros d rest s0 s -> Hg. unfold read_response, GENERATED_TEXT in *. now rewrite Hg.
  - intros d rest -> [Hg | [g [Hg Hf]]]; unfold read_response, GENERATED_TEXT in *;
      rewrite Hg; [reflexivity | now rewrite Hf].
  - intros d g -> Hg. unfold read_response, GENERATED_TEXT in *. now rewrite Hg.
  - intros [-> | [[d [-> Hg]] | [-> | [[b ->] | [[z ->] | [[l ->] | [s ->]]]]]]];
      trivial.
    unfold read_response, GENERATED_TEXT in *. now rewrite Hg.
Qed.

Lemma client_reads_recognized_shapes_witness :
  fst (call_hugging_face example_runtime (u "p") array_reply_world) = Ok (VStr (u "{}")).
Proof.
  exact (proj1 (client_reads_recognized_shapes example_runtime (u "p") array_reply_world
                  104%N (u "f_abc") (encode_ascii (q "[{'generated_text': '{}'}]"))
                  (q "[{'generated_text': '{}'}]")
                  (VList [VDict [(GENERATED_TEXT, VStr (u "{}"))]])
                  eq_refl eq_refl eq_refl eq_refl)
           [(GENERATED_TEXT, VStr (u "{}"))] [] 123%N (u "}") eq_refl eq_refl).
Defined.

(** ** The generation pipeline *)

Lemma process_lens_unfold rt text lens w :
  process_lens rt text lens w =
  match call_hugging_face rt (build_prompt text (snd lens)) w with
  | (Ok raw_output, w1) =>
      (try payload <- extract_json_block rt raw_output;
       assemble rt (fst lens) (snd lens) payload, w1)
  | (Err e, w1) => (Err e, w1)
  end.
Proof.
  unfold process_lens, bind, lift.
  destruct (call_hugging_face _ _ _) as [[raw|e] w1]; trivial.
  now destruct (extract_json_block rt raw).
Qed.

(** Without a credential a lens fails before anything is sent. *)
Lemma process_lens_without_credential rt text lens w :
  token_of w = None \/ token_of w = Some [] ->
  process_lens rt text lens w = (Err (EnvironmentError MISSING_TOKEN), w).
Proof.
  intros H. rewrite process_lens_unfold, call_hugging_face_unfold.
  destruct H as [-> | ->]; reflexivity.
Qed.

(** With a credential, the result of a lens is decided by the transport's
    answer: any failure of the transport, of the reading of the response, of
    the extraction or of the assembly is the failure of the lens. *)
Lemma process_lens_result rt text lens w c t :
  token_of w = Some (c :: t) ->
  fst (process_lens rt text lens w)
  = (try raw_output <-
       outcome_result rt
         (remote w (sent w ++ [build_request (c :: t) (model_of w)
                                 (build_prompt text (snd lens))]));
     try payload <- extract_json_block rt raw_output;
     assemble rt (fst lens) (snd lens) payload).
Proof.
  intros H. rewrite process_lens_unfold, call_hugging_face_unfold, H. cbv zeta.
  now destruct (outcome_result rt _).
Qed.

(** A non-success status fails the lens with the status in the message. *)
Lemma process_lens_http_error rt text lens w c t code body :
  token_of w = Some (c :: t) ->
  remote w (sent w ++ [build_request (c :: t) (model_of w)
                         (build_prompt text (snd lens))])
  = HttpError code body ->
  fst (process_lens rt text lens w)
  = Err (RuntimeError (u "Hugging Face API error (" ++ str_int code ++ u "): "
                       ++ decode_utf8_ignore body)).
Proof.
  intros Ht Hr. rewrite (process_lens_result rt text lens w c t Ht), Hr. reflexivity.
Qed.

Lemma process_lens_frame rt text lens w r w' :
  process_lens rt text lens w = (r, w') -> exists log, w' = with_sent w log.
Proof.
  rewrite process_lens_unfold.
  destruct (call_hugging_face _ _ _) as [[raw|e] w1] eqn:Hc; intros H;
    injection H as _ <-; eapply call_hugging_face_frame; eassumption.
Qed.

Lemma process_lens_capped rt text lens w r w' :
  process_lens rt text lens w = (Ok r, w') -> capped_points r.
Proof.
  rewrite process_lens_unfold.
  destruct (call_hugging_face _ _ _) as [[raw|e] w1]; [|discriminate].
  destruct (extract_json_block rt raw) as [payload|e]; simpl; [|discriminate].
  intros H. injection H as H _. eapply assemble_capped; eassumption.
Qed.

Lemma for_lenses_app rt text pre : forall post acc w,
  for_lenses rt text (pre ++ post) acc w =
  match for_lenses rt text pre acc w with
  | (Ok sections, w1) => for_lenses rt text post sections w1
  | (Err e, w1) => (Err e, w1)
  end.
Proof.
  induction pre as [|lens pre IH]; intros post acc w; simpl; trivial.
  unfold bind. destruct (process_lens rt text lens w) as [[r|e] w1]; trivial.
Qed.

Lemma with_sent_twice w log log' : with_sent (with_sent w log) log' = with_sent w log'.
Proof. reflexivity. Qed.

Lemma for_lenses_frame rt text lenses : forall acc w r w',
  for_lenses rt text lenses acc w = (r, w') -> exists log, w' = with_sent w log.
Proof.
  induction lenses as [|lens lenses IH]; intros acc w r w'; simpl.
  - intros H. injection H as _ <-. eauto using eq_sym, with_sent_same.
  - unfold bind. destruct (process_lens rt text lens w) as [[x|e] w1] eqn:Hp;
      apply process_lens_frame in Hp as [log ->].
    + intros H. apply IH in H as [log' ->]. eauto using with_sent_twice.
    + intros H. injection H as _ <-. eauto.
Qed.

Lemma for_lenses_capped rt text lenses : forall acc w sections w',
  Forall capped_points acc ->
  for_lenses rt text lenses acc w = (Ok sections, w') ->
  Forall capped_points sections.
Proof.
  induction lenses as [|lens lenses IH]; intros acc w sections w' Hacc; simpl.
  - intros H. now injection H as <- _.
  - unfold bind. destruct (process_lens rt text lens w) as [[x|e] w1] eqn:Hp;
      [|discriminate].
    apply IH, Forall_app. split; trivial.
    constructor; [|constructor]. eapply process_lens_capped; eassumption.
Qed.

(** C5: every record the pipeline assembles has at most three key points,
    and each key point is a non-empty text left unchanged by trimming,
    however many bullets the model returned. *)
Theorem key_points_capped_and_nonempty rt resume_text w sections w' :
  generate_sections rt resume_text w = (Ok sections, w') ->
  Forall (fun r =>
            (List.length (key_points r) <= 3)%nat
            /\ Forall (fun k => k <> [] /\ strip k = k) (key_points r))
         sections.
Proof.
  intros H. apply (for_lenses_capped rt resume_text LENSES [] w sections w'); trivial.
Qed.

Lemma key_points_capped_and_nonempty_witness :
  map key_points stub_sections
  = [ [u "a"; u "b"; u "c"]; [u "a"; u "b"; u "c"]; [u "a"; u "b"; u "c"] ]
  /\ Forall (fun r =>
               (List.length (key_points r) <= 3)%nat
               /\ Forall (fun k => k <> [] /\ strip k = k) (key_points r))
            stub_sections.
Proof.
  split; [vm_compute; reflexivity|].
  apply (key_points_capped_and_nonempty example_runtime
           (u "Ada Lovelace" ++ [NL] ++ u "Engineer") stub_world stub_sections
           (snd (generate_sections example_runtime
                   (u "Ada Lovelace" ++ [NL] ++ u "Engineer") stub_world))).
  vm_compute. reflexivity.
Defined.

(** ** The program *)

Lemma main_unfold rt w :
  main rt w =
  match load_resume w with
  | (Ok resume_text, w1) =>
      match generate_sections rt resume_text w1 with
      | (Ok sections, w2) =>
          (Ok tt,
           with_stdout
             (with_output w2
                (encode_ascii (dumps_indent rt 0 (document (strftime (now w2)) sections))))
             (stdout w2 ++ [u "Wrote " ++ OUTPUT_PATH w2]))
      | (Err e, w2) => (Err e, w2)
      end
  | (Err e, w1) => (Err e, w1)
  end.
Proof.
  unfold main, bind.
  destruct (load_resume w) as [[resume_text|e] w1]; trivial.
Qed.

Lemma load_resume_frame w r w' : load_resume w = (r, w') -> w' = w.
Proof.
  unfold load_resume. destruct (resume_file w); intros H; now injection H as _ <-.
Qed.

(** Without the résumé file the program fails before any lens is processed
    and leaves the world as it found it. *)
Lemma main_without_resume rt w :
  resume_file w = None ->
  main rt w = (Err (FileNotFoundError (u "Missing resume source: " ++ RESUME_PATH w)), w).
Proof.
  intros H. rewrite main_unfold. unfold load_resume. now rewrite H.
Qed.

(** Without a credential the program fails before any request is sent. *)
Lemma main_without_credential rt w content resume_text :
  resume_file w = Some content ->
  decode_utf8 content = Ok resume_text ->
  token_of w = None \/ token_of w = Some [] ->
  main rt w = (Err (EnvironmentError MISSING_TOKEN), w).
Proof.
  intros Hf Hd Ht. rewrite main_unfold. unfold load_resume. rewrite Hf, Hd.
  cbn [rbind]. unfold generate_sections, LENSES. cbn [for_lenses]. unfold bind.
  now rewrite process_lens_without_credential.
Qed.

(** C6: when the résumé cannot be loaded, or when some lens fails after the
    lenses before it succeeded (whatever the failing step: credential,
    transport, HTTP status, response shape, extraction or JSON syntax), the
    program ends with that error, the output file is what it was before the
    run, and nothing is printed. *)
Theorem failure_leaves_output_untouched rt w e w' :
  (load_resume w = (Err e, w')
   \/ exists resume_text w1 pre lens post sections w2,
        load_resume w = (Ok resume_text, w1)
        /\ LENSES = pre ++ lens :: post
        /\ for_lenses rt resume_text pre [] w1 = (Ok sections, w2)
        /\ process_lens rt resume_text lens w2 = (Err e, w')) ->
  main rt w = (Err e, w')
  /\ output_file w' = output_file w
  /\ stdout w' = stdout w.
Proof.
  intros [Hload | (text & w1 & pre & lens & post & sections & w2 & Hload & HL & Hpre & Hlens)];
    rewrite main_unfold, Hload.
  - apply load_resume_frame in Hload as ->. auto.
  - apply load_resume_frame in Hload as ->.
    unfold generate_sections. rewrite HL, for_lenses_app, Hpre.
    cbn [for_lenses]. unfold bind. rewrite Hlens.
    apply for_lenses_frame in Hpre as [log ->].
    apply process_lens_frame in Hlens as [log' ->]. auto.
Qed.

Lemma failure_leaves_output_untouched_witness :
  fst (main example_runtime second_call_fails_world)
  = Err (RuntimeError (u "Hugging Face API error (500): overloaded"))
  /\ output_file (snd (main example_runtime second_call_fails_world))
     = Some (encode_ascii (u "previous run")).
Proof.
  pose (text := u "Ada Lovelace" ++ [NL] ++ u "Engineer").
  pose (first := for_lenses example_runtime text (firstn 1 LENSES) []
                   second_call_fails_world).
  pose (second := process_lens example_runtime text (nth 1 LENSES (u "", example_spec))
                    (snd first)).
  destruct (failure_leaves_output_untouched example_runtime second_call_fails_world
              (RuntimeError (u "Hugging Face API error (500): overloaded"))
              (snd second)) as (Hmain & Hout & _).
  - right.
    exists text, second_call_fails_world, (firstn 1 LENSES),
      (nth 1 LENSES (u "", example_spec)), (skipn 2 LENSES),
      (match fst first with Ok s => s | Err _ => [] end), (snd first).
    repeat split; vm_compute; reflexivity.
  - rewrite Hmain. split; [reflexivity | exact Hout].
Defined.

(** ** Two runs on the same inputs *)

Lemma respects_lift {A} (r : result A) : respects (lift r).
Proof. intros w1 w2 H. now split. Qed.

Lemma respects_bind {A B} (m : M A) (f : A -> M B) :
  respects m -> (forall a, respects (f a)) -> respects (bind m f).
Proof.
  intros Hm Hf w1 w2 H. unfold bind.
  destruct (Hm w1 w2 H) as [Hr Hw].
  destruct (m w1) as [[a1|e1] v1], (m w2) as [[a2|e2] v2]; simpl in *;
    try discriminate.
  - injection Hr as <-. now apply Hf.
  - injection Hr as <-. now split.
Qed.

Lemma respects_get_env name : respects (get_env name).
Proof.
  intros w1 w2 H. unfold get_env; simpl. split; trivial.
  destruct H as (_ & _ & He & _). now rewrite He.
Qed.

Lemma respects_urlopen req : respects (urlopen req).
Proof.
  intros w1 w2 (Hroot & Hfile & Henv & Hrem & Hsent). unfold urlopen; simpl.
  rewrite Hsent, Hrem. repeat split; trivial.
Qed.

Lemma respects_load_resume : respects load_resume.
Proof.
  intros w1 w2 H. pose proof H as (Hroot & Hfile & _).
  unfold load_resume, RESUME_PATH. rewrite Hfile, Hroot.
  destruct (resume_file w2); now split.
Qed.

Lemma respects_call_hugging_face rt prompt : respects (call_hugging_face rt prompt).
Proof.
  unfold call_hugging_face.
  apply respects_bind; [apply respects_get_env | intros primary].
  apply respects_bind; [apply respects_get_env | intros fallback].
  destruct (or_else primary fallback) as [[|c t]|]; try apply respects_lift.
  apply respects_bind; [apply respects_get_env | intros override].
  apply respects_bind; [apply respects_urlopen | intros outcome].
  destruct outcome; apply respects_lift.
Qed.

Lemma respects_process_lens rt text lens : respects (process_lens rt text lens).
Proof.
  unfold process_lens.
  apply respects_bind; [apply respects_call_hugging_face | intros raw].
  apply respects_bind; [apply respects_lift | intros payload].
  apply respects_lift.
Qed.

Lemma respects_for_lenses rt text lenses :
  forall acc, respects (for_lenses rt text lenses acc).
Proof.
  induction lenses as [|lens lenses IH]; intros acc; simpl.
  - apply (respects_lift (Ok acc)).
  - apply respects_bind; [apply respects_process_lens | intros r; apply IH].
Qed.

Lemma dumps_document rt generated_at sections :
  dumps_indent rt 0 (document generated_at sections)
  = DOCUMENT_HEAD ++ flat_map escape_char generated_at ++ document_tail rt sections.
Proof.
  unfold document, document_tail, DOCUMENT_HEAD.
  cbn [dumps_indent map join fst snd].
  unfold encode_basestring_ascii.
  repeat rewrite <- app_assoc. reflexivity.
Qed.

Lemma flat_map_plain s : Forall plain s -> flat_map escape_char s = s.
Proof.
  induction 1 as [|c s Hc Hs IH]; simpl; trivial.
  rewrite Hc, IH. reflexivity.
Qed.

Lemma digit_plain c : (48 <= c <= 57)%N -> plain c.
Proof.
  intros H. unfold plain, escape_char. decide_comparisons. reflexivity.
Qed.

Lemma digits_fuel_plain fuel : forall n acc,
  Forall plain acc -> Forall plain (digits_fuel fuel n acc).
Proof.
  induction fuel as [|f IH]; intros n acc H; cbn [digits_fuel]; trivial.
  assert (Forall plain ((48 + n mod 10)%N :: acc)) as H'.
  { constructor; trivial. apply digit_plain.
    assert (n mod 10 < 10)%N as Hm by (apply N.mod_lt; discriminate).
    revert Hm. generalize (n mod 10)%N. intros; lia. }
  destruct (n <? 10)%N; [exact H' | now apply IH].
Qed.

Lemma digits_plain n : Forall plain (digits n).
Proof. apply digits_fuel_plain. constructor. Qed.

Lemma pad2_plain n : Forall plain (pad2 n).
Proof.
  unfold pad2. destruct (n <? 10)%N; [constructor; [reflexivity|]|]; apply digits_plain.
Qed.

(** A timestamp needs no escaping. *)
Lemma strftime_plain t : flat_map escape_char (strftime t) = strftime t.
Proof.
  apply flat_map_plain. unfold strftime.
  repeat (apply Forall_app; split);
    first [ apply digits_plain | apply pad2_plain
          | repeat constructor ].
Qed.

(** C7: two runs whose worlds offer the same inputs end alike: both fail
    with the same error, or both succeed, and then the two output files are
    the same bytes before and after the timestamp, the text
    [DOCUMENT_HEAD ++ timestamp ++ tail] with one [tail] for both. *)
Theorem reruns_differ_only_in_timestamp rt w1 w2 :
  same_inputs w1 w2 ->
  fst (main rt w1) = fst (main rt w2)
  /\ (fst (main rt w1) = Ok tt ->
      exists tail,
        output_file (snd (main rt w1))
        = Some (encode_ascii (DOCUMENT_HEAD ++ strftime (now w1) ++ tail))
        /\ output_file (snd (main rt w2))
           = Some (encode_ascii (DOCUMENT_HEAD ++ strftime (now w2) ++ tail))).
Proof.
  intros H. rewrite !main_unfold.
  destruct (respects_load_resume w1 w2 H) as [Hr Hw].
  destruct (load_resume w1) as [[text1|e1] v1] eqn:L1,
           (load_resume w2) as [[text2|e2] v2] eqn:L2; simpl in Hr, Hw;
    try discriminate.
  2: { injection Hr as <-. split; [reflexivity | discriminate]. }
  injection Hr as <-.
  destruct (respects_for_lenses rt text1 LENSES [] v1 v2 Hw) as [Hs Hv].
  unfold generate_sections.
  destruct (for_lenses rt text1 LENSES [] v1) as [[s1|x1] u1] eqn:G1,
           (for_lenses rt text1 LENSES [] v2) as [[s2|x2] u2] eqn:G2; simpl in Hs, Hv;
    try discriminate.
  2: { injection Hs as <-. split; [reflexivity | discriminate]. }
  injection Hs as <-. split; trivial. intros _.
  exists (document_tail rt s1).
  rewrite !dumps_document, !strftime_plain.
  apply load_resume_frame in L1 as ->. apply load_resume_frame in L2 as ->.
  apply for_lenses_frame in G1 as [log1 ->]. apply for_lenses_frame in G2 as [log2 ->].
  split; reflexivity.
Qed.

Lemma reruns_differ_only_in_timestamp_witness :
  fst (main example_runtime stub_world) = Ok tt
  /\ exists tail,
       output_file (snd (main example_runtime stub_world))
       = Some (encode_ascii (DOCUMENT_HEAD ++ u "2024-01-02T03:04:05Z" ++ tail))
       /\ output_file (snd (main example_runtime later_world))
          = Some (encode_ascii (DOCUMENT_HEAD ++ u "2025-11-30T23:59:09Z" ++ tail)).
Proof.
  assert (same_inputs stub_world later_world) as H by (repeat split).
  assert (fst (main example_runtime stub_world) = Ok tt) as Hok
    by (vm_compute; reflexivity).
  split; [exact Hok|].
  exact (proj2 (reruns_differ_only_in_timestamp example_runtime stub_world later_world H)
           Hok).
Defined.

(** ** Lines, prefixes and [dedent] *)

Lemma common_prefix_starts a : forall b, starts_with (common_prefix a b) a = true.
Proof.
  induction a as [|x a IH]; intros [|y b]; simpl; trivial.
  destruct (N.eqb_spec x y); simpl; trivial. now rewrite N.eqb_refl, IH.
Qed.

Lemma skipn_prefix (p s : pystr) : skipn (List.length p) (p ++ s) = s.
Proof. induction p; simpl; trivial. Qed.

Lemma containsb_unfold s needle :
  containsb s needle
  = starts_with needle s
    || match s with
       | [] => false
       | _ :: r => containsb r needle
       end.
Proof. now destruct s. Qed.

Lemma contains_sound s needle : contains s needle -> containsb s needle = true.
Proof.
  intros (pre & post & ->). induction pre as [|c pre IH]; simpl.
  - now rewrite containsb_unfold, starts_with_app.
  - rewrite IH. apply orb_true_r.
Qed.

Lemma join_lines_cons x y l :
  join_lines (x :: y :: l) = x ++ [NL] ++ join_lines (y :: l).
Proof. reflexivity. Qed.

Lemma join_lines_app A B :
  A <> [] -> B <> [] -> join_lines (A ++ B) = join_lines A ++ [NL] ++ join_lines B.
Proof.
  intros HA HB. induction A as [|a A IH]; [congruence|].
  destruct A as [|a' A].
  - destruct B as [|b B]; [congruence | reflexivity].
  - change ((a :: a' :: A) ++ B) with (a :: a' :: (A ++ B)).
    rewrite !join_lines_cons.
    change (a' :: A ++ B) with ((a' :: A) ++ B).
    rewrite IH by discriminate. now rewrite <- !app_assoc.
Qed.

Lemma join_lines_head x y l : join_lines ((x ++ y) :: l) = x ++ join_lines (y :: l).
Proof. destruct l; simpl; trivial. unfold join_lines. simpl. now rewrite <- app_assoc. Qed.

Lemma split_lines_nonempty s : split_lines s <> [].
Proof.
  destruct s as [|c s]; simpl; [discriminate|].
  destruct (c =? 10)%N; [discriminate|]. destruct (split_lines s); discriminate.
Qed.

Lemma join_split s : join_lines (split_lines s) = s.
Proof.
  induction s as [|c s IH]; trivial.
  cbn [split_lines].
  pose proof (split_lines_nonempty s) as Hne.
  destruct (split_lines s) as [|l ls]; [congruence|].
  destruct (N.eqb_spec c 10) as [->|Hc].
  - rewrite join_lines_cons. simpl. f_equal. exact IH.
  - change (c :: l) with ([c] ++ l). rewrite join_lines_head. simpl. f_equal. exact IH.
Qed.

Lemma split_lines_app a b :
  split_lines (a ++ b) = glue (split_lines a) (split_lines b).
Proof.
  induction a as [|c a IH]; simpl.
  - unfold glue. simpl. pose proof (split_lines_nonempty b).
    now destruct (split_lines b).
  - rewrite IH. pose proof (split_lines_nonempty a) as Hne.
    destruct (split_lines a) as [|l ls]; [congruence|].
    destruct (c =? 10)%N.
    + unfold glue. reflexivity.
    + unfold glue. destruct ls as [|l' ls]; reflexivity.
Qed.

Lemma split_lines_single s :
  existsb (N.eqb NL) s = false -> split_lines s = [s].
Proof.
  induction s as [|c s IH]; trivial.
  cbn [existsb split_lines]. intros H. apply orb_false_iff in H as [Hc Hs].
  rewrite N.eqb_sym in Hc. unfold NL in Hc. rewrite Hc, IH; trivial.
Qed.

Lemma glue_last A x B : glue (A ++ [x]) B = A ++ [x ++ hd [] B] ++ tl B.
Proof. unfold glue. now rewrite removelast_last, last_last. Qed.

Lemma glue_empty_head A B : A <> [] -> glue A ([] :: B) = A ++ B.
Proof.
  intros H. unfold glue. cbn [hd tl]. rewrite app_nil_r.
  rewrite app_assoc, <- app_removelast_last; trivial.
Qed.

Lemma template_lines resume_text instr :
  no_newline instr = true ->
  split_lines (template resume_text instr)
  = HEAD_LINES ++ [IND ++ hd [] (split_lines resume_text)]
    ++ tl (split_lines resume_text)
    ++ MID_LINES ++ [IND ++ instr] ++ TAIL_LINES.
Proof.
  intros Hi. apply negb_true_iff in Hi. unfold template.
  rewrite !split_lines_app, (split_lines_single _ Hi).
  replace (split_lines TEMPLATE_HEAD) with (HEAD_LINES ++ [IND])
    by (vm_compute; reflexivity).
  replace (split_lines TEMPLATE_MID) with (([] :: MID_LINES) ++ [IND])
    by (vm_compute; reflexivity).
  replace (split_lines TEMPLATE_TAIL) with ([] :: TAIL_LINES)
    by (vm_compute; reflexivity).
  rewrite glue_empty_head by discriminate.
  rewrite (glue_last ([] :: MID_LINES)). cbn [hd tl app].
  rewrite (glue_empty_head (split_lines resume_text)) by apply split_lines_nonempty.
  rewrite glue_last.
  pose proof (split_lines_nonempty resume_text) as Hne.
  destruct (split_lines resume_text) as [|r0 rest]; [congruence|]. reflexivity.
Qed.

Lemma dedent_lines text :
  dedent text
  = join_lines (map (dedent_line (margin_of (split_lines text))) (split_lines text)).
Proof.
  unfold dedent, margin_of.
  destruct (fold_left _ _ _) as [[|c m]|]; unfold dedent_line;
    rewrite ?map_map; reflexivity.
Qed.

Lemma normalize_line_keeps l : whitespace_only l = false -> normalize_line l = l.
Proof. destruct l as [|c l]; trivial. unfold whitespace_only, normalize_line. now intros ->. Qed.

Lemma normalize_line_visible l : forallb is_blank l = false -> normalize_line l = l.
Proof. destruct l as [|c l]; trivial. unfold normalize_line. now intros ->. Qed.

Lemma indents_normalize l : indents_of_line (normalize_line l) = indents_of_line l.
Proof.
  destruct l as [|c l]; trivial. unfold normalize_line, indents_of_line.
  destruct (forallb is_blank (c :: l)) eqn:E; [reflexivity | now rewrite E].
Qed.

Lemma indents_of_lines ls :
  flat_map indents_of_line (map normalize_line ls) = flat_map indents_of_line ls.
Proof.
  induction ls as [|l ls IH]; simpl; trivial. now rewrite indents_normalize, IH.
Qed.

Lemma margin_step_prefix m x :
  exists m', margin_step (Some m) x = Some m' /\ starts_with m' m = true.
Proof.
  unfold margin_step. destruct (starts_with m x).
  - exists m. split; trivial. apply starts_with_refl.
  - destruct (starts_with x m) eqn:E; eauto using common_prefix_starts.
Qed.

Lemma fold_margin_prefix l : forall m,
  exists m', fold_left margin_step l (Some m) = Some m' /\ starts_with m' m = true.
Proof.
  induction l as [|x l IH]; intros m; cbn [fold_left].
  - exists m. split; trivial. apply starts_with_refl.
  - destruct (margin_step_prefix m x) as (m1 & -> & H1).
    destruct (IH m1) as (m2 & -> & H2).
    exists m2. split; trivial. eapply starts_with_trans; eassumption.
Qed.

Lemma fold_margin_nil l : fold_left margin_step l (Some []) = Some [].
Proof. induction l as [|x l IH]; simpl; trivial. Qed.

Lemma fold_margin_absorb l : forall m0,
  In [] l -> fold_left margin_step l m0 = Some [].
Proof.
  induction l as [|x l IH]; intros m0; cbn [fold_left In]; [tauto|].
  intros [-> | H]; [|now apply IH].
  replace (margin_step m0 []) with (Some (@nil N)); [apply fold_margin_nil|].
  destruct m0 as [[|c m]|]; reflexivity.
Qed.

Lemma head_indents :
  fold_left margin_step (flat_map indents_of_line HEAD_LINES) None = Some IND.
Proof. vm_compute. reflexivity. Qed.

(** The margin of the template is a prefix of its twelve spaces, whatever
    the résumé. *)
Lemma margin_template resume_text instr :
  no_newline instr = true ->
  exists m,
    margin_of (split_lines (template resume_text instr)) = Some m
    /\ starts_with m IND = true.
Proof.
  intros Hi. rewrite (template_lines _ _ Hi). unfold margin_of.
  rewrite indents_of_lines, flat_map_app, fold_left_app, head_indents.
  apply fold_margin_prefix.
Qed.

Lemma margin_template_nil resume_text instr :
  no_newline instr = true ->
  existsb starts_nonblank (tl (split_lines resume_text)) = true ->
  margin_of (split_lines (template resume_text instr)) = Some [].
Proof.
  intros Hi He. rewrite (template_lines _ _ Hi). unfold margin_of.
  rewrite indents_of_lines. apply fold_margin_absorb.
  apply existsb_exists in He as (l & Hin & Hl).
  apply in_flat_map. exists l. split.
  - apply in_or_app. right.
    apply (in_cons (IND ++ hd [] (split_lines resume_text))).
    apply in_or_app. left. exact Hin.
  - destruct l as [|c l]; [discriminate|]. simpl in Hl.
    apply negb_true_iff in Hl. unfold indents_of_line. simpl. rewrite Hl. now left.
Qed.

Lemma IND_blank : forallb is_blank IND = true.
Proof. reflexivity. Qed.

(** A line of the template that shows some text keeps that text. *)
Lemma dedent_line_keeps m s :
  starts_with m IND = true -> forallb is_blank s = false ->
  exists x, dedent_line (Some m) (IND ++ s) = x ++ s.
Proof.
  intros Hm Hs.
  assert (normalize_line (IND ++ s) = IND ++ s) as Hn
    by (apply normalize_line_visible; now rewrite forallb_app, Hs, andb_false_r).
  unfold dedent_line. rewrite Hn. destruct m as [|c m]; [now exists IND|].
  apply starts_with_split in Hm.
  remember (skipn (List.length (c :: m)) IND) as x eqn:Hx. clear Hx.
  apply (f_equal (fun t => t ++ s)) in Hm. rewrite <- app_assoc in Hm.
  exists x. unfold remove_margin. rewrite Hm, starts_with_app, skipn_prefix.
  reflexivity.
Qed.

Lemma dedent_line_nil margin : dedent_line margin [] = [].
Proof. now destruct margin as [[|c m]|]. Qed.

Lemma dedent_line_first m r0 :
  starts_with m IND = true -> whitespace_only r0 = false ->
  exists x, dedent_line (Some m) (IND ++ r0) = x ++ r0.
Proof.
  intros Hm Hr. destruct (forallb is_blank r0) eqn:E.
  - destruct r0 as [|c r0]; [|unfold whitespace_only in Hr; congruence].
    exists []. rewrite app_nil_r. now destruct m as [|c m].
  - now apply dedent_line_keeps.
Qed.

Lemma has_nonspace_rev s : has_nonspace (rev s) = has_nonspace s.
Proof.
  pose proof (all_space_rev s) as H. rewrite !all_space_has_nonspace in H.
  now destruct (has_nonspace (rev s)), (has_nonspace s).
Qed.

Lemma rstrip_nonspace_app a b : has_nonspace b = true -> rstrip (a ++ b) = a ++ rstrip b.
Proof.
  intros H. unfold rstrip. rewrite rev_app_distr, lstrip_nonspace_app.
  - now rewrite rev_app_distr, rev_involutive.
  - now rewrite has_nonspace_rev.
Qed.

(** Text between two parts that each show something survives [strip]. *)
Lemma strip_middle before mid after :
  has_nonspace before = true -> has_nonspace after = true ->
  strip (before ++ mid ++ after) = lstrip before ++ mid ++ rstrip after.
Proof.
  intros Hb Ha. unfold strip.
  rewrite (lstrip_nonspace_app _ _ Hb), app_assoc, (rstrip_nonspace_app _ _ Ha).
  now rewrite <- app_assoc.
Qed.

Lemma has_nonspace_join L : forall l,
  In l L -> has_nonspace l = true -> has_nonspace (join_lines L) = true.
Proof.
  induction L as [|a L IH]; intros l; [contradiction|].
  destruct L as [|b L].
  - intros [-> | []]. trivial.
  - rewrite join_lines_cons, !has_nonspace_app.
    intros [-> | Hin] Hl; [now rewrite Hl|].
    rewrite (IH l Hin Hl). now rewrite !orb_true_r.
Qed.

(** In a text of lines that shows something both before and after a block
    of lines, the block is found verbatim after [strip], whatever precedes
    the block on its first line. *)
Lemma strip_join_middle A x y0 Y B a b :
  In a A -> has_nonspace a = true -> In b B -> has_nonspace b = true ->
  contains (strip (join_lines (A ++ [x ++ y0] ++ Y ++ B))) (join_lines (y0 :: Y)).
Proof.
  intros HaA Ha HbB Hb.
  assert (A <> []) as HA by (intros ->; contradiction).
  assert (B <> []) as HB by (intros ->; contradiction).
  rewrite join_lines_app by (trivial; discriminate).
  change ([x ++ y0] ++ Y ++ B) with ((x ++ y0) :: (Y ++ B)).
  rewrite join_lines_head.
  change (y0 :: Y ++ B) with ((y0 :: Y) ++ B).
  rewrite join_lines_app by (trivial; discriminate).
  replace (join_lines A ++ [NL] ++ x ++ join_lines (y0 :: Y) ++ [NL] ++ join_lines B)
    with ((join_lines A ++ [NL] ++ x) ++ join_lines (y0 :: Y) ++ ([NL] ++ join_lines B))
    by (now rewrite <- !app_assoc).
  rewrite strip_middle.
  - now exists (lstrip (join_lines A ++ [NL] ++ x)), (rstrip ([NL] ++ join_lines B)).
  - rewrite has_nonspace_app, (has_nonspace_join A a HaA Ha). reflexivity.
  - rewrite has_nonspace_app, (has_nonspace_join B b HbB Hb). apply orb_true_r.
Qed.

(** A line of the template that shows some text still shows it after
    [dedent]. *)
Lemma kept_line m s L :
  starts_with m IND = true -> forallb is_blank s = false -> has_nonspace s = true ->
  In (IND ++ s) L ->
  exists a, In a (map (dedent_line (Some m)) L) /\ has_nonspace a = true.
Proof.
  intros Hm Hs Hn Hin. destruct (dedent_line_keeps m s Hm Hs) as [x Hx].
  exists (x ++ s). split.
  - rewrite <- Hx. now apply in_map.
  - rewrite has_nonspace_app, Hn. apply orb_true_r.
Qed.

Lemma system_line_in_head : In (IND ++ u "System:") HEAD_LINES.
Proof. right. left. reflexivity. Qed.

Lemma closing_line_in_tail : In (IND ++ u "}") TAIL_LINES.
Proof. do 9 right. left. reflexivity. Qed.

Lemma starts_nonblank_visible s : starts_nonblank s = true -> forallb is_blank s = false.
Proof.
  destruct s as [|c s]; [discriminate|]. simpl. intros H.
  apply negb_true_iff in H. now rewrite H.
Qed.

Lemma prompt_contains_instruction resume_text spec :
  one_visible_line (instruction spec) = true ->
  contains (build_prompt resume_text spec) (instruction spec).
Proof.
  intros H. apply andb_true_iff in H as [Hnl Hvis].
  unfold build_prompt. rewrite dedent_lines.
  destruct (margin_template resume_text _ Hnl) as (m & -> & Hm).
  rewrite (template_lines _ _ Hnl).
  set (f := dedent_line (Some m)).
  set (r0 := hd [] (split_lines resume_text)).
  set (rest := tl (split_lines resume_text)).
  replace (HEAD_LINES ++ [IND ++ r0] ++ rest ++ MID_LINES
           ++ [IND ++ instruction spec] ++ TAIL_LINES)
    with ((HEAD_LINES ++ [IND ++ r0] ++ rest ++ MID_LINES)
          ++ [IND ++ instruction spec] ++ [] ++ TAIL_LINES)
    by (now rewrite <- !app_assoc).
  rewrite !map_app. cbn [map].
  destruct (dedent_line_keeps m _ Hm (starts_nonblank_visible _ Hvis)) as [x Hx].
  fold f in Hx. rewrite Hx.
  destruct (kept_line m (u "System:") HEAD_LINES Hm eq_refl eq_refl system_line_in_head)
    as (a & Ha & Hna).
  destruct (kept_line m (u "}") TAIL_LINES Hm eq_refl eq_refl closing_line_in_tail)
    as (b & Hb & Hnb).
  apply (strip_join_middle _ x (instruction spec) [] _ a b);
    [ | exact Hna | exact Hb | exact Hnb].
  apply in_or_app. left. exact Ha.
Qed.

Lemma survives_dedent_lines m resume_text instr :
  no_newline instr = true ->
  survives_dedent resume_text = true ->
  margin_of (split_lines (template resume_text instr)) = Some m ->
  map (dedent_line (Some m)) (tl (split_lines resume_text)) = tl (split_lines resume_text).
Proof.
  intros Hnl Hs Hm. unfold survives_dedent in Hs. cbv zeta in Hs.
  apply andb_true_iff in Hs as [Hw Hrest].
  rewrite <- (map_id (tl (split_lines resume_text))) at 2.
  apply map_ext_in. intros l Hin.
  apply orb_true_iff in Hrest as [Hempty | Hstart].
  - rewrite forallb_forall in Hempty. specialize (Hempty l Hin).
    destruct l; [apply dedent_line_nil | discriminate].
  - rewrite (margin_template_nil _ _ Hnl Hstart) in Hm. injection Hm as <-.
    unfold dedent_line. apply normalize_line_keeps.
    rewrite forallb_forall in Hw. apply negb_true_iff, Hw.
    pose proof (split_lines_nonempty resume_text).
    destruct (split_lines resume_text); [congruence | now right].
Qed.

Lemma prompt_contains_resume resume_text spec :
  one_visible_line (instruction spec) = true ->
  survives_dedent resume_text = true ->
  contains (build_prompt resume_text spec) resume_text.
Proof.
  intros H Hs. pose proof H as H'. apply andb_true_iff in H' as [Hnl Hvis].
  unfold build_prompt. rewrite dedent_lines.
  destruct (margin_template resume_text _ Hnl) as (m & Hmargin & Hm).
  rewrite Hmargin, (template_lines _ _ Hnl).
  pose proof (survives_dedent_lines m _ _ Hnl Hs Hmargin) as Hrest.
  pose proof (join_split resume_text) as Hjoin.
  assert (whitespace_only (hd [] (split_lines resume_text)) = false) as Hfirst.
  { unfold survives_dedent in Hs. cbv zeta in Hs.
    apply andb_true_iff in Hs as [Hw _]. rewrite forallb_forall in Hw.
    apply negb_true_iff, Hw. pose proof (split_lines_nonempty resume_text).
    destruct (split_lines resume_text); [congruence | now left]. }
  assert (split_lines resume_text
          = hd [] (split_lines resume_text) :: tl (split_lines resume_text)) as Hsplit.
  { pose proof (split_lines_nonempty resume_text).
    destruct (split_lines resume_text); [congruence | reflexivity]. }
  revert Hrest Hjoin Hfirst. rewrite Hsplit. cbn [hd tl].
  generalize (hd [] (split_lines resume_text)) as r0.
  generalize (tl (split_lines resume_text)) as rest.
  intros rest r0 Hrest Hjoin Hfirst.
  rewrite !map_app. cbn [map]. rewrite Hrest.
  destruct (dedent_line_first m r0 Hm Hfirst) as [x ->].
  destruct (kept_line m (u "System:") HEAD_LINES Hm eq_refl eq_refl system_line_in_head)
    as (a & Ha & Hna).
  destruct (kept_line m (u "}") TAIL_LINES Hm eq_refl eq_refl closing_line_in_tail)
    as (b & Hb & Hnb).
  rewrite <- Hjoin.
  apply (strip_join_middle _ x r0 rest _ a b); [exact Ha | exact Hna | | exact Hnb].
  apply in_or_app. right. apply in_cons. exact Hb.
Qed.

(** ** The prompt of a lens *)

(** C2: the prompt loses the résumé's own indentation.  [dedent] runs on
    the template after the résumé is interpolated, so the lines of the
    résumé take part in the margin.  For the résumé [a], newline, space, [b]
    the margin common to all lines is one space; it is removed from the
    résumé's second line too, and the prompt of every lens carries [a],
    newline, [b] and not the résumé. *)
Theorem prompt_drops_resume_indentation :
  Forall (fun lens =>
            containsb (build_prompt (u "a" ++ [NL] ++ u " b") (snd lens))
                      (u "a" ++ [NL] ++ u " b") = false
            /\ containsb (build_prompt (u "a" ++ [NL] ++ u " b") (snd lens))
                         (u "a" ++ [NL] ++ u "b") = true
            /\ ~ contains (build_prompt (u "a" ++ [NL] ++ u " b") (snd lens))
                          (u "a" ++ [NL] ++ u " b"))
         LENSES.
Proof.
  apply Forall_forall. intros lens Hin.
  assert (containsb (build_prompt (u "a" ++ [NL] ++ u " b") (snd lens))
                    (u "a" ++ [NL] ++ u " b") = false) as H
    by (destruct Hin as [<- | [<- | [<- | []]]]; vm_compute; reflexivity).
  split; [exact H|].
  split; [destruct Hin as [<- | [<- | [<- | []]]]; vm_compute; reflexivity|].
  intros Hc. apply contains_sound in Hc. congruence.
Qed.

(** Where the defect does not show: for every entry of the configuration
    table and every résumé text, the prompt contains the entry's instruction
    verbatim; it contains the résumé verbatim whenever no line of the résumé
    consists only of spaces and tabs and, after its first line, either every
    line is empty or some line begins with a character other than a space or
    a tab.  The condition is sufficient, not necessary. *)
Theorem prompt_contains_instruction_and_resume resume_text lens :
  In lens LENSES ->
  contains (build_prompt resume_text (snd lens)) (instruction (snd lens))
  /\ (survives_dedent resume_text = true ->
      contains (build_prompt resume_text (snd lens)) resume_text).
Proof.
  intros Hin.
  assert (one_visible_line (instruction (snd lens)) = true) as Hv.
  { destruct Hin as [<- | [<- | [<- | []]]]; vm_compute; reflexivity. }
  split.
  - now apply prompt_contains_instruction.
  - now apply prompt_contains_resume.
Qed.

Lemma prompt_contains_instruction_and_resume_witness :
  contains (build_prompt (u "Ada Lovelace" ++ [NL] ++ u "Engineer") MANUFACTURING_OPS)
           (instruction MANUFACTURING_OPS)
  /\ contains (build_prompt (u "Ada Lovelace" ++ [NL] ++ u "Engineer") MANUFACTURING_OPS)
              (u "Ada Lovelace" ++ [NL] ++ u "Engineer").
Proof.
  destruct (prompt_contains_instruction_and_resume
              (u "Ada Lovelace" ++ [NL] ++ u "Engineer")
              (u "manufacturing-ops", MANUFACTURING_OPS)
              (or_intror (or_introl eq_refl))) as [Hi Hr].
  split; [exact Hi | exact (Hr eq_refl)].
Defined.

(** * Further properties *)

(** ** Searching and slicing *)

Lemma find_bounds c s : (-1 <= find c s < Z.of_nat (List.length s))%Z.
Proof.
  induction s as [|x s IH]; cbn [find List.length]; [lia|].
  destruct (x =? c)%N; [lia|]. destruct (Z.ltb_spec (find c s) 0); lia.
Qed.

Lemma rfind_bounds c s : (-1 <= rfind c s < Z.of_nat (List.length s))%Z.
Proof.
  induction s as [|x s IH]; cbn [rfind List.length]; [lia|].
  destruct (Z.leb_spec 0 (rfind c s)); [lia|]. destruct (x =? c)%N; lia.
Qed.

Lemma find_lacks c s : find c s = (-1)%Z <-> lacks c s = true.
Proof.
  unfold lacks. induction s as [|x s IH]; cbn [find existsb]; [tauto|].
  destruct (x =? c)%N; cbn [orb negb]; [split; intros; [lia | discriminate]|].
  pose proof (find_bounds c s).
  destruct (Z.ltb_spec (find c s) 0); rewrite <- IH; split; intros; lia.
Qed.

Lemma rfind_lacks c s : rfind c s = (-1)%Z <-> lacks c s = true.
Proof.
  unfold lacks. induction s as [|x s IH]; cbn [rfind existsb]; [tauto|].
  pose proof (rfind_bounds c s).
  destruct (Z.leb_spec 0 (rfind c s)).
  - assert (existsb (fun x => (x =? c)%N) s = true) as ->.
    { destruct (existsb _ s); trivial. assert (rfind c s = (-1)%Z) by now apply IH. lia. }
    rewrite orb_true_r. split; intros; [lia | discriminate].
  - assert (existsb (fun x => (x =? c)%N) s = false) as ->.
    { apply negb_true_iff, IH. lia. }
    rewrite orb_false_r. destruct (x =? c)%N; split; intros;
      trivial; try discriminate; lia.
Qed.

Lemma find_app c a b :
  find c (a ++ b)
  = if (find c a <? 0)%Z
    then if (find c b <? 0)%Z then (-1)%Z else (Z.of_nat (List.length a) + find c b)%Z
    else find c a.
Proof.
  induction a as [|x a IH]; cbn [app find List.length].
  - change (-1 <? 0)%Z with true. cbv iota.
    pose proof (find_bounds c b). destruct (Z.ltb_spec (find c b) 0); lia.
  - destruct (x =? c)%N; trivial. rewrite IH.
    pose proof (find_bounds c a). pose proof (find_bounds c b).
    destruct (Z.ltb_spec (find c a) 0), (Z.ltb_spec (find c b) 0);
      repeat match goal with
             | |- context [(?u <? 0)%Z] => destruct (Z.ltb_spec u 0)
             end; lia.
Qed.

Lemma rfind_app c a b :
  rfind c (a ++ b)
  = if (0 <=? rfind c b)%Z then (Z.of_nat (List.length a) + rfind c b)%Z
    else rfind c a.
Proof.
  induction a as [|x a IH]; cbn [app rfind List.length].
  - pose proof (rfind_bounds c b). destruct (Z.leb_spec 0 (rfind c b)); lia.
  - rewrite IH. pose proof (rfind_bounds c a). pose proof (rfind_bounds c b).
    destruct (Z.leb_spec 0 (rfind c b)).
    + destruct (Z.leb_spec 0 (Z.of_nat (List.length a) + rfind c b)); lia.
    + reflexivity.
Qed.

Lemma slice_middle a b c :
  slice (a ++ b ++ c) (Z.of_nat (List.length a))
        (Z.of_nat (List.length a) + Z.of_nat (List.length b)) = b.
Proof.
  unfold slice. rewrite !length_app.
  set (la := List.length a). set (lb := List.length b). set (lc := List.length c).
  destruct (Z.ltb_spec (Z.of_nat la) 0); [lia|].
  destruct (Z.ltb_spec (Z.of_nat la + Z.of_nat lb) 0); [lia|].
  replace (Z.to_nat (Z.min (Z.of_nat (la + (lb + lc))) (Z.max 0 (Z.of_nat la)))) with la by lia.
  replace (Z.to_nat (Z.min (Z.of_nat (la + (lb + lc))) (Z.max 0 (Z.of_nat la + Z.of_nat lb))
                     - Z.min (Z.of_nat (la + (lb + lc))) (Z.max 0 (Z.of_nat la)))) with lb by lia.
  unfold la, lb. rewrite skipn_prefix. rewrite firstn_app, Nat.sub_diag, firstn_all.
  cbn [firstn]. apply app_nil_r.
Qed.

(** ** The extractor's failures *)

Lemma fails_as_decoder_ok {A} (a : A) : fails_as_decoder (Ok a).
Proof. intros e H. discriminate. Qed.

Lemma fails_as_decoder_syntax {A} m : @fails_as_decoder A (Err (JSONDecodeError m)).
Proof. intros e [= <-]. right. right. left. eauto. Qed.

Lemma fails_as_decoder_recursion {A} : @fails_as_decoder A (Err RecursionError).
Proof. intros e [= <-]. right. now left. Qed.

Lemma fails_as_decoder_bind {A B} (res : result A) (f : A -> result B) :
  fails_as_decoder res -> (forall a, fails_as_decoder (f a)) ->
  fails_as_decoder (rbind res f).
Proof.
  intros Hr Hf. destruct res as [a|e]; cbn [rbind]; [apply Hf|].
  intros e' [= <-]. now apply Hr.
Qed.

Lemma scanstring_fails_as_decoder s : fails_as_decoder (scanstring s).
Proof.
  unfold scanstring. apply fails_as_decoder_bind.
  - intros e H. right. right. left. eapply scan_items_error; eassumption.
  - intros [items rest]. apply fails_as_decoder_ok.
Qed.

(** [int()] fails on a literal of more than 4300 digits, and only then. *)
Lemma parse_int_fails lit e :
  parse_int lit = Err e -> exists n, (4300 < n)%nat /\ e = int_limit_error n.
Proof.
  unfold parse_int.
  destruct (match head_is 45 lit with Some d => (true, d) | None => (false, lit) end)
    as [negative d].
  unfold INT_MAX_STR_DIGITS. destruct (N.ltb_spec 4300 (N.of_nat (List.length d)));
    [|discriminate].
  intros [= <-]. exists (List.length d). split; [lia | reflexivity].
Qed.

Lemma parse_int_fails_as_decoder lit : fails_as_decoder (parse_int lit).
Proof. intros e H. right. right. right. exact (parse_int_fails _ _ H). Qed.

Lemma scalar_fails_as_decoder s :
  fails_as_decoder
    match strip_prefix (u "null") s,
          strip_prefix (u "true") s,
          strip_prefix (u "false") s with
    | Some r', _, _ => Ok (VNone, r')
    | _, Some r', _ => Ok (VBool true, r')
    | _, _, Some r' => Ok (VBool false, r')
    | _, _, _ =>
        match match_number s with
        | Some (integer, frac, ex, r') =>
            match frac, ex with
            | [], [] => try z <- parse_int integer; Ok (VInt z, r')
            | _, _ => Ok (VFloat (integer ++ frac ++ ex), r')
            end
        | None =>
            match strip_prefix (u "NaN") s,
                  strip_prefix (u "Infinity") s,
                  strip_prefix (u "-Infinity") s with
            | Some r', _, _ => Ok (VFloat (u "NaN"), r')
            | _, Some r', _ => Ok (VFloat (u "Infinity"), r')
            | _, _, Some r' => Ok (VFloat (u "-Infinity"), r')
            | _, _, _ => Err expecting_value
            end
        end
    end.
Proof.
  destruct (strip_prefix (u "null") s); [apply fails_as_decoder_ok|].
  destruct (strip_prefix (u "true") s); [apply fails_as_decoder_ok|].
  destruct (strip_prefix (u "false") s); [apply fails_as_decoder_ok|].
  destruct (match_number s) as [[[[integer frac] ex] r]|].
  - destruct frac, ex; try apply fails_as_decoder_ok.
    apply fails_as_decoder_bind; [apply parse_int_fails_as_decoder|].
    intros z. apply fails_as_decoder_ok.
  - destruct (strip_prefix (u "NaN") s); [apply fails_as_decoder_ok|].
    destruct (strip_prefix (u "Infinity") s); [apply fails_as_decoder_ok|].
    destruct (strip_prefix (u "-Infinity") s); [apply fails_as_decoder_ok|].
    apply fails_as_decoder_syntax.
Qed.

Lemma decoder_failures fuel :
  (forall depth s, fails_as_decoder (scan_once fuel depth s))
  /\ (forall depth acc s, fails_as_decoder (object_loop fuel depth acc s))
  /\ (forall depth acc s, fails_as_decoder (array_loop fuel depth acc s)).
Proof.
  induction fuel as [|f (IHs & IHo & IHa)].
  - split; [|split]; intros; intros e [= <-]; now left.
  - split; [|split].
    + intros depth [|c r]; cbn [scan_once]; [apply fails_as_decoder_syntax|].
      destruct (c =? 34)%N.
      { apply fails_as_decoder_bind; [apply scanstring_fails_as_decoder|].
        intros [str r']. apply fails_as_decoder_ok. }
      destruct (c =? 123)%N.
      { destruct depth as [|d]; [apply fails_as_decoder_recursion|].
        destruct (head_is 125 (skip_ws r)); [apply fails_as_decoder_ok|].
        destruct (head_is 34 (skip_ws r)); [|apply fails_as_decoder_syntax].
        apply fails_as_decoder_bind; [apply IHo|].
        intros [pairs r']. apply fails_as_decoder_ok. }
      destruct (c =? 91)%N.
      { destruct depth as [|d]; [apply fails_as_decoder_recursion|].
        destruct (head_is 93 (skip_ws r)); [apply fails_as_decoder_ok|].
        apply fails_as_decoder_bind; [apply IHa|].
        intros [items r']. apply fails_as_decoder_ok. }
      apply scalar_fails_as_decoder.
    + intros depth acc s. cbn [object_loop].
      apply fails_as_decoder_bind; [apply scanstring_fails_as_decoder|].
      intros [key r1]. destruct (head_is 58 (skip_ws r1)); [|apply fails_as_decoder_syntax].
      apply fails_as_decoder_bind; [apply IHs|]. intros [v r3].
      destruct (head_is 125 (skip_ws r3)); [apply fails_as_decoder_ok|].
      destruct (head_is 44 (skip_ws r3)); [|apply fails_as_decoder_syntax].
      destruct (head_is 34 (skip_ws _)); [apply IHo | apply fails_as_decoder_syntax].
    + intros depth acc s. cbn [array_loop].
      apply fails_as_decoder_bind; [apply IHs|]. intros [v r1].
      destruct (head_is 93 (skip_ws r1)); [apply fails_as_decoder_ok|].
      destruct (head_is 44 (skip_ws r1)); [apply IHa | apply fails_as_decoder_syntax].
Qed.

(** [json_loads] fails in three ways only: the nesting exceeds the levels
    left, the text is not JSON, or an integer literal has more than 4300
    digits. *)
Lemma json_loads_error limit s e :
  json_loads limit s = Err e ->
  e = RecursionError \/ (exists m, e = JSONDecodeError m)
  \/ (exists n, (4300 < n)%nat /\ e = int_limit_error n).
Proof.
  intros H. pose proof (json_loads_fuel limit s) as Hfuel.
  assert (decoder_error e) as [-> | Hm]; [|congruence|exact Hm].
  revert H. unfold json_loads.
  destruct (head_is 65279 s); [intros [= <-]; right; right; left; eauto|].
  apply fails_as_decoder_bind; [apply decoder_failures|].
  intros [v rest]. destruct (skip_ws rest);
    [apply fails_as_decoder_ok | apply fails_as_decoder_syntax].
Qed.

(** The two limits at work: three levels where two are left, and an integer
    of 4301 digits. *)
Example json_loads_limits :
  json_loads 2 (u "[[[1]]]") = Err RecursionError
  /\ json_loads 3 (u "[[[1]]]") = Ok (VList [VList [VList [VInt 1]]])
  /\ json_loads 4 (repeat 49%N 4301) = Err (int_limit_error 4301)
  /\ (exists z, json_loads 4 (45%N :: repeat 49%N 4300) = Ok (VInt z)).
Proof.
  split; [vm_compute; reflexivity|]. split; [vm_compute; reflexivity|].
  split; [vm_compute; reflexivity|]. eexists. vm_compute. reflexivity.
Qed.

(** The error of a long integer is not the extractor's own [ValueError]. *)
Lemma json_loads_not_no_json limit s t :
  json_loads limit s <> Err (ValueError NO_JSON (VStr t)).
Proof.
  intros H. apply json_loads_error in H as [H | [[m H] | (n & _ & H)]];
    discriminate.
Qed.

Lemma find_zero c s : find c s = 0%Z -> exists r, s = c :: r.
Proof.
  destruct s as [|x s]; cbn [find]; [discriminate|].
  destruct (N.eqb_spec x c) as [->|]; [eauto|].
  pose proof (find_bounds c s). destruct (Z.ltb_spec (find c s) 0); lia.
Qed.

Lemma rfind_zero c s : rfind c s = 0%Z -> exists r, s = c :: r.
Proof.
  destruct s as [|x s]; cbn [rfind]; [discriminate|].
  pose proof (rfind_bounds c s). destruct (Z.leb_spec 0 (rfind c s)); [lia|].
  destruct (N.eqb_spec x c) as [->|]; [eauto | discriminate].
Qed.

(** X1: whatever the extractor returns was read from a string, between its
    first opening brace and its last closing brace, and is an object; so the
    [.get] calls of the pipeline never meet anything but a dictionary. *)
Theorem extractor_returns_objects rt text v :
  extract_json_block rt text = Ok v ->
  exists t d,
    text = VStr t /\ v = VDict d
    /\ (0 <= find 123 t < rfind 125 t)%Z
    /\ json_loads (nesting_limit rt) (slice t (find 123 t) (rfind 125 t + 1))
       = Ok (VDict d).
Proof.
  intros H. destruct (extract_json_block_object rt text v H) as [d ->].
  destruct text as [| | | |t| |]; try discriminate.
  exists t, d. repeat split; trivial; revert H; unfold extract_json_block;
    pose proof (find_bounds 123 t);
    destruct (Z.eqb_spec (find 123 t) (-1)); try discriminate;
    destruct (Z.eqb_spec (rfind 125 t) (-1)); try discriminate;
    destruct (Z.leb_spec (rfind 125 t) (find 123 t)); try discriminate;
    cbn [orb]; trivial; lia.
Qed.

Lemma extractor_returns_objects_witness :
  exists t d,
    VStr (q "Here you go: {'summary': 'ok'} Hope it helps.") = VStr t
    /\ VDict [(u "summary", VStr (u "ok"))] = VDict d
    /\ (0 <= find 123 t < rfind 125 t)%Z
    /\ json_loads (nesting_limit example_runtime)
         (slice t (find 123 t) (rfind 125 t + 1)) = Ok (VDict d).
Proof.
  exact (extractor_returns_objects example_runtime
           (VStr (q "Here you go: {'summary': 'ok'} Hope it helps."))
           (VDict [(u "summary", VStr (u "ok"))]) eq_refl).
Defined.

(** X2: commentary around the object is ignored.  When nothing before the
    object has an opening brace and nothing after it has a closing brace, the
    extractor's result is the decoder's result on the object alone. *)
Theorem extractor_ignores_commentary rt before inside after :
  lacks 123 before = true -> lacks 125 after = true ->
  extract_json_block rt (VStr (before ++ ([123%N] ++ inside ++ [125%N]) ++ after))
  = json_loads (nesting_limit rt) ([123%N] ++ inside ++ [125%N]).
Proof.
  intros Hb Ha. unfold extract_json_block.
  set (obj := [123%N] ++ inside ++ [125%N]).
  assert (find 123 (before ++ obj ++ after) = Z.of_nat (List.length before)) as ->.
  { rewrite find_app. apply find_lacks in Hb. rewrite Hb.
    change (-1 <? 0)%Z with true. cbv iota. unfold obj. cbn [app find N.eqb Pos.eqb].
    cbn. lia. }
  assert (rfind 125 (before ++ obj ++ after)
          = (Z.of_nat (List.length before) + Z.of_nat (List.length obj) - 1)%Z) as ->.
  { apply rfind_lacks in Ha.
    assert (Ho : rfind 125 obj = (Z.of_nat (List.length obj) - 1)%Z).
    { unfold obj. change ([123%N] ++ inside ++ [125%N]) with ((123%N :: inside) ++ [125%N]).
      rewrite rfind_app. change (rfind 125 [125%N]) with 0%Z.
      change (0 <=? 0)%Z with true. cbv iota.
      rewrite length_app. cbn [List.length]. lia. }
    assert (Hoa : rfind 125 (obj ++ after) = (Z.of_nat (List.length obj) - 1)%Z).
    { rewrite rfind_app, Ha. change (0 <=? -1)%Z with false. cbv iota. exact Ho. }
    rewrite rfind_app, Hoa.
    assert (0 < Z.of_nat (List.length obj))%Z
      by (unfold obj; cbn [app List.length]; lia).
    destruct (Z.leb_spec 0 (Z.of_nat (List.length obj) - 1)); lia. }
  assert (0 < Z.of_nat (List.length obj))%Z
    by (unfold obj; rewrite length_app; cbn [List.length]; lia).
  destruct (Z.eqb_spec (Z.of_nat (List.length before)) (-1)); [lia|].
  destruct (Z.eqb_spec (Z.of_nat (List.length before) + Z.of_nat (List.length obj) - 1) (-1));
    [lia|].
  destruct (Z.leb_spec (Z.of_nat (List.length before) + Z.of_nat (List.length obj) - 1)
              (Z.of_nat (List.length before))).
  - cbn [orb].
    assert (inside = []) as ->.
    { unfold obj in *. rewrite length_app in *. cbn [List.length] in *.
      rewrite length_app in *. cbn [List.length] in *. destruct inside; trivial.
      cbn [List.length] in *. lia. }
    exfalso. unfold obj in *. cbn [app List.length] in *. lia.
  - cbn [orb].
    replace (Z.of_nat (List.length before) + Z.of_nat (List.length obj) - 1 + 1)%Z
      with (Z.of_nat (List.length before) + Z.of_nat (List.length obj))%Z by lia.
    now rewrite slice_middle.
Qed.

Lemma extractor_ignores_commentary_witness :
  lacks 123 (u "Sure: ") = true /\ lacks 125 (u " Done.") = true
  /\ extract_json_block example_runtime
       (VStr (u "Sure: " ++ ([123%N] ++ q "'a': 1" ++ [125%N]) ++ u " Done."))
     = json_loads (nesting_limit example_runtime) ([123%N] ++ q "'a': 1" ++ [125%N]).
Proof.
  split; [reflexivity|]. split; [reflexivity|].
  apply (extractor_ignores_commentary example_runtime
           (u "Sure: ") (q "'a': 1") (u " Done."));
    reflexivity.
Defined.

(** X3: the extractor reports that the reply holds no JSON exactly when the
    reply can be cut in two so that no opening brace comes before the cut and
    no closing brace after it; the error carries the whole reply. *)
Theorem extractor_no_json_iff rt t :
  extract_json_block rt (VStr t) = Err (ValueError NO_JSON (VStr t))
  <-> exists a b, t = a ++ b /\ lacks 123 a = true /\ lacks 125 b = true.
Proof.
  unfold extract_json_block, NO_JSON. split.
  - intros H.
    pose proof (find_bounds 123 t) as Hf. pose proof (rfind_bounds 125 t) as Hr.
    destruct (Z.eqb_spec (find 123 t) (-1)) as [Hs|Hs].
    { exists t, []. rewrite app_nil_r. repeat split. now apply find_lacks. }
    destruct (Z.eqb_spec (rfind 125 t) (-1)) as [He|He].
    { exists [], t. repeat split. now apply rfind_lacks. }
    destruct (Z.leb_spec (rfind 125 t) (find 123 t)) as [Hle|Hlt]; cbn [orb] in H.
    + set (n := Z.to_nat (find 123 t)).
      exists (firstn n t), (skipn n t).
      assert (Hlen : Z.of_nat (List.length (firstn n t)) = find 123 t).
      { rewrite length_firstn. unfold n. lia. }
      split; [symmetry; apply firstn_skipn|].
      pose proof (find_app 123 (firstn n t) (skipn n t)) as Hfa.
      pose proof (rfind_app 125 (firstn n t) (skipn n t)) as Hra.
      rewrite firstn_skipn in Hfa, Hra.
      pose proof (find_bounds 123 (firstn n t)) as Hb1.
      pose proof (rfind_bounds 125 (skipn n t)) as Hb2.
      pose proof (rfind_bounds 125 (firstn n t)) as Hb3.
      assert (Hfirst : find 123 (firstn n t) = (-1)%Z).
      { destruct (Z.ltb_spec (find 123 (firstn n t)) 0); lia. }
      rewrite Hfirst in Hfa. change (-1 <? 0)%Z with true in Hfa. cbv iota in Hfa.
      split; [now apply find_lacks|]. apply rfind_lacks.
      destruct (Z.leb_spec 0 (rfind 125 (skipn n t))) as [Hge|]; [|lia].
      assert (Hz : rfind 125 (skipn n t) = 0%Z) by lia.
      destruct (rfind_zero _ _ Hz) as [r Hr0].
      destruct (Z.ltb_spec (find 123 (skipn n t)) 0) as [|Hge']; [lia|].
      assert (Hz' : find 123 (skipn n t) = 0%Z) by lia.
      destruct (find_zero _ _ Hz') as [r' Hr'].
      rewrite Hr0 in Hr'. discriminate.
    + now apply json_loads_not_no_json in H.
  - intros (a & b & -> & Ha & Hb).
    apply find_lacks in Ha. apply rfind_lacks in Hb.
    rewrite find_app, rfind_app, Ha, Hb.
    change (-1 <? 0)%Z with true. change (0 <=? -1)%Z with false. cbv iota.
    pose proof (find_bounds 123 b). pose proof (rfind_bounds 125 a).
    destruct (Z.ltb_spec (find 123 b) 0).
    + reflexivity.
    + destruct (Z.eqb_spec (Z.of_nat (List.length a) + find 123 b) (-1)); [reflexivity|].
      destruct (Z.eqb_spec (rfind 125 a) (-1)); [reflexivity|].
      destruct (Z.leb_spec (rfind 125 a) (Z.of_nat (List.length a) + find 123 b));
        [reflexivity | lia].
Qed.

(** X4: on a string the extractor fails in four ways only: with the no-JSON
    error carrying the reply, with a JSON syntax error, with the
    [ValueError] of an integer literal of more than 4300 digits, or with a
    [RecursionError] when the nesting exceeds the levels left. *)
Theorem extractor_failures rt t e :
  extract_json_block rt (VStr t) = Err e ->
  e = ValueError NO_JSON (VStr t)
  \/ (exists m, e = JSONDecodeError m)
  \/ (exists n, (4300 < n)%nat /\ e = int_limit_error n)
  \/ e = RecursionError.
Proof.
  unfold extract_json_block, NO_JSON.
  destruct ((find 123 t =? -1) || (rfind 125 t =? -1) || (rfind 125 t <=? find 123 t))%Z.
  - intros [= <-]. now left.
  - intros H. right. apply json_loads_error in H as [H | [H | H]]; auto.
Qed.

Lemma extractor_failures_witness :
  int_limit_error 4301 = ValueError NO_JSON (VStr long_integer_reply)
  \/ (exists m, int_limit_error 4301 = JSONDecodeError m)
  \/ (exists n, (4300 < n)%nat /\ int_limit_error 4301 = int_limit_error n)
  \/ int_limit_error 4301 = RecursionError.
Proof.
  apply (extractor_failures example_runtime long_integer_reply (int_limit_error 4301)).
  vm_compute. reflexivity.
Defined.

(** ** The résumé loader *)

Lemma to_N_byte_of_N c : (c < 256)%N -> Byte.to_N (byte_of_N c) = c.
Proof.
  intros H. unfold byte_of_N. destruct (Byte.of_N c) as [b|] eqn:E.
  - now apply Byte.to_of_N.
  - apply Byte.of_N_None_iff in E. lia.
Qed.

(** Decoding undoes the encoding of an ASCII text. *)
Lemma decode_encode_ascii s :
  ascii_text s = true -> decode_utf8 (encode_ascii s) = Ok s.
Proof.
  unfold decode_utf8, encode_ascii, ascii_text.
  induction s as [|c s IH]; [reflexivity|].
  cbn [forallb map utf8_decode]. intros H.
  apply andb_prop in H as [Hc Hs]. pose proof Hc as Hc'. apply N.ltb_lt in Hc'.
  rewrite to_N_byte_of_N by lia. unfold utf8_start. rewrite Hc.
  now rewrite (IH Hs).
Qed.

Lemma universal_newlines_cons c r :
  universal_newlines (c :: r)
  = if (c =? 13)%N
    then 10%N :: match head_is 10 r with
                 | Some r' => universal_newlines r'
                 | None => universal_newlines r
                 end
    else c :: universal_newlines r.
Proof.
  assert (Hr : forall A (x y : A) t,
             match t with 10%N :: r' => x | _ => y end
             = match head_is 10 t with Some _ => x | None => y end).
  { intros A x y [|d t]; [reflexivity|]. unfold head_is.
    destruct d as [|p]; [reflexivity|].
    do 4 (try destruct p as [p|p|]; try reflexivity). }
  destruct (N.eqb_spec c 13) as [->|Hc].
  - cbn [universal_newlines]. f_equal.
    destruct r as [|d t]; [reflexivity|]. unfold head_is.
    destruct d as [|p]; [reflexivity|].
    do 4 (try destruct p as [p|p|]; try reflexivity).
  - destruct c as [|p]; [reflexivity|].
    do 4 (try destruct p as [p|p|]; try reflexivity). now elim Hc.
Qed.

Lemma universal_newlines_no_cr_fuel n : forall s,
  (List.length s <= n)%nat -> lacks 13 (universal_newlines s) = true.
Proof.
  unfold lacks. induction n as [|n IH]; intros [|c r] Hl; try reflexivity;
    cbn [List.length] in Hl; [lia|].
  rewrite universal_newlines_cons.
  destruct (N.eqb_spec c 13) as [->|Hc].
  - cbn [existsb N.eqb Pos.eqb orb]. destruct r as [|d t]; [reflexivity|].
    unfold head_is. destruct (d =? 10)%N; apply IH; cbn [List.length] in *; lia.
  - cbn [existsb]. apply N.eqb_neq in Hc. rewrite Hc. cbn [orb]. apply IH. lia.
Qed.

Lemma universal_newlines_no_cr s : lacks 13 (universal_newlines s) = true.
Proof. exact (universal_newlines_no_cr_fuel _ s (le_n _)). Qed.

Lemma universal_newlines_id s : lacks 13 s = true -> universal_newlines s = s.
Proof.
  unfold lacks. induction s as [|c r IH]; [reflexivity|].
  rewrite universal_newlines_cons. cbn [existsb].
  destruct (c =? 13)%N; [discriminate|]. cbn [orb]. intros H. f_equal. exact (IH H).
Qed.

Lemma utf8_decode_error ignore : forall s st e,
  utf8_decode ignore st s = Err e -> e = UnicodeDecodeError.
Proof.
  induction s as [|b r IH]; intros st e.
  - destruct st; cbn [utf8_decode]; [discriminate|].
    destruct ignore; [discriminate | now intros [= <-]].
  - assert (Hstart :
      match utf8_start (Byte.to_N b) with
      | Some (inl c) => try t <- utf8_decode ignore UStart r; Ok (c :: t)
      | Some (inr st') => utf8_decode ignore st' r
      | None => if ignore then utf8_decode ignore UStart r else Err UnicodeDecodeError
      end = Err e -> e = UnicodeDecodeError).
    { destruct (utf8_start (Byte.to_N b)) as [[c|st']|].
      - destruct (utf8_decode ignore UStart r) eqn:E; cbn [rbind]; [discriminate|].
        intros [= <-]. exact (IH _ _ E).
      - apply IH.
      - destruct ignore; [apply IH | now intros [= <-]]. }
    cbn [utf8_decode]. destruct st as [|need acc lo hi]; [exact Hstart|].
    destruct ((lo <=? Byte.to_N b) && (Byte.to_N b <=? hi))%N.
    + destruct need as [|[|k]]; try apply IH;
        (destruct (utf8_decode ignore UStart r) eqn:E; cbn [rbind]; [discriminate|];
         intros [= <-]; exact (IH _ _ E)).
    + destruct ignore; [exact Hstart | now intros [= <-]].
Qed.

(** X5: a résumé file of ASCII bytes is returned character for character,
    with every line ending ([\r\n] or a lone [\r]) read as [\n], and
    unchanged when it has no carriage return; reading changes nothing of the
    world. *)
Theorem load_resume_ascii w s :
  ascii_text s = true ->
  resume_file w = Some (encode_ascii s) ->
  load_resume w = (Ok (universal_newlines s), w)
  /\ (lacks 13 s = true -> load_resume w = (Ok s, w)).
Proof.
  intros Ha Hf. unfold load_resume. rewrite Hf, (decode_encode_ascii s Ha).
  cbn [rbind]. split; [reflexivity|]. intros Hc. now rewrite universal_newlines_id.
Qed.

Lemma load_resume_ascii_witness :
  ascii_text (u "Ada Lovelace" ++ [NL] ++ u "Engineer") = true
  /\ resume_file stub_world
     = Some (encode_ascii (u "Ada Lovelace" ++ [NL] ++ u "Engineer"))
  /\ load_resume stub_world
     = (Ok (u "Ada Lovelace" ++ [NL] ++ u "Engineer"), stub_world).
Proof.
  split; [reflexivity|]. split; [reflexivity|].
  apply (load_resume_ascii stub_world (u "Ada Lovelace" ++ [NL] ++ u "Engineer"));
    reflexivity.
Defined.

(** X6: the text the loader returns never holds a carriage return, whatever
    the bytes of the file; the file exists and is well-formed UTF-8, and the
    world is left as it was. *)
Theorem load_resume_text w text w' :
  load_resume w = (Ok text, w') ->
  w' = w /\ lacks 13 text = true
  /\ exists b raw, resume_file w = Some b /\ decode_utf8 b = Ok raw
                   /\ text = universal_newlines raw.
Proof.
  unfold load_resume. destruct (resume_file w) as [b|]; [|discriminate].
  destruct (decode_utf8 b) as [raw|e] eqn:E; cbn [rbind]; [|discriminate].
  intros [= <- <-]. split; [reflexivity|]. split; [apply universal_newlines_no_cr|].
  now exists b, raw.
Qed.

(** X7: in a world where the file is absent or holds bytes, the loader
    fails in two ways only, and changes nothing when it does: the file is
    absent and the error names its path, or the file is not UTF-8. *)
Theorem load_resume_failures w e w' :
  load_resume w = (Err e, w') ->
  w' = w
  /\ ((resume_file w = None
       /\ e = FileNotFoundError (u "Missing resume source: " ++ root w ++ u "/resume.txt"))
      \/ (exists b, resume_file w = Some b /\ decode_utf8 b = Err UnicodeDecodeError
                    /\ e = UnicodeDecodeError)).
Proof.
  unfold load_resume. destruct (resume_file w) as [b|].
  - destruct (decode_utf8 b) as [raw|e0] eqn:E; cbn [rbind]; [discriminate|].
    intros [= <- <-]. split; [reflexivity|]. right. exists b.
    pose proof (utf8_decode_error _ _ _ _ E) as ->. now repeat split.
  - intros [= <- <-]. split; [reflexivity|]. now left.
Qed.

Lemma load_resume_text_witness :
  stub_world = stub_world
  /\ lacks 13 (u "Ada Lovelace" ++ [NL] ++ u "Engineer") = true
  /\ exists b raw, resume_file stub_world = Some b /\ decode_utf8 b = Ok raw
                   /\ u "Ada Lovelace" ++ [NL] ++ u "Engineer" = universal_newlines raw.
Proof.
  apply (load_resume_text stub_world (u "Ada Lovelace" ++ [NL] ++ u "Engineer") stub_world).
  reflexivity.
Defined.

Lemma load_resume_failures_witness :
  missing_resume_world = missing_resume_world
  /\ ((resume_file missing_resume_world = None
       /\ FileNotFoundError (u "Missing resume source: /site/resume.txt")
          = FileNotFoundError (u "Missing resume source: "
                               ++ root missing_resume_world ++ u "/resume.txt"))
      \/ (exists b, resume_file missing_resume_world = Some b
                    /\ decode_utf8 b = Err UnicodeDecodeError
                    /\ FileNotFoundError (u "Missing resume source: /site/resume.txt")
                       = UnicodeDecodeError)).
Proof.
  apply (load_resume_failures missing_resume_world
           (FileNotFoundError (u "Missing resume source: /site/resume.txt"))
           missing_resume_world).
  reflexivity.
Defined.

(** ** The requests of a run *)

Lemma process_lens_sends rt text lens w res w' :
  process_lens rt text lens w = (res, w') ->
  (credential w = [] /\ res = Err (EnvironmentError MISSING_TOKEN) /\ w' = w)
  \/ (credential w <> []
      /\ w' = with_sent w (sent w ++ requests_of w text [lens])).
Proof.
  rewrite process_lens_unfold, call_hugging_face_unfold.
  unfold requests_of, credential.
  destruct (token_of w) as [[|c t]|].
  - intros [= <- <-]. now left.
  - cbv zeta. cbn [map].
    destruct (outcome_result rt _) as [raw|e]; intros [= <- <-]; right;
      (split; [discriminate | reflexivity]).
  - intros [= <- <-]. now left.
Qed.

Lemma assemble_from_table rt lens payload r :
  assemble rt (fst lens) (snd lens) payload = Ok r -> from_table lens r.
Proof.
  unfold assemble. destruct payload; simpl; try discriminate.
  destruct (iterate _) as [items|e]; simpl; [|discriminate].
  intros [= <-]. now repeat split.
Qed.

Lemma process_lens_from_table rt text lens w r w' :
  process_lens rt text lens w = (Ok r, w') ->
  from_table lens r /\ strip (summary r) = summary r.
Proof.
  rewrite process_lens_unfold.
  destruct (call_hugging_face _ _ _) as [[raw|e] w1]; [|discriminate].
  destruct (extract_json_block rt raw) as [payload|e]; cbn [rbind]; [|discriminate].
  intros [= H _]. split; [exact (assemble_from_table _ _ _ _ H)|].
  apply assemble_inv in H as (d & items & _ & _ & -> & _). apply strip_idem.
Qed.

Lemma requests_of_with_sent w log text lenses :
  requests_of (with_sent w log) text lenses = requests_of w text lenses.
Proof. reflexivity. Qed.

Lemma for_lenses_success rt text lenses : forall acc w sections w',
  for_lenses rt text lenses acc w = (Ok sections, w') ->
  exists rs,
    sections = acc ++ rs
    /\ Forall2 from_table lenses rs
    /\ Forall (fun r => strip (summary r) = summary r) rs
    /\ (lenses <> [] -> credential w <> [])
    /\ w' = with_sent w (sent w ++ requests_of w text lenses).
Proof.
  induction lenses as [|lens lenses IH]; intros acc w sections w'; cbn [for_lenses].
  - intros [= <- <-]. exists []. rewrite !app_nil_r.
    repeat split; auto using eq_sym, with_sent_same.
  - unfold bind. destruct (process_lens rt text lens w) as [[r|e] w1] eqn:Hp;
      [|discriminate].
    intros H. apply IH in H as (rs & -> & Hrs & Hsum & _ & ->).
    pose proof (process_lens_from_table _ _ _ _ _ _ Hp) as [Hr Hs].
    apply process_lens_sends in Hp as [(_ & [=] & _) | (Hc & ->)].
    exists (r :: rs). rewrite <- app_assoc. repeat split; auto.
    unfold requests_of. cbn [map sent with_sent]. unfold with_sent. cbn.
    now rewrite <- app_assoc.
Qed.

(** A loop that fails ran its first lenses to the end and failed in the
    next one, whose error and world are the loop's. *)
Lemma for_lenses_failure rt text lenses : forall acc w e w',
  for_lenses rt text lenses acc w = (Err e, w') ->
  exists pre lens post sections w1,
    lenses = pre ++ lens :: post
    /\ for_lenses rt text pre acc w = (Ok sections, w1)
    /\ process_lens rt text lens w1 = (Err e, w').
Proof.
  induction lenses as [|lens lenses IH]; intros acc w e w'; cbn [for_lenses].
  - discriminate.
  - unfold bind. destruct (process_lens rt text lens w) as [[r|e0] w1] eqn:Hp.
    + intros H. apply IH in H as (pre & l & post & sections & w2 & -> & Hpre & Hl).
      exists (lens :: pre), l, post, sections, w2. split; [reflexivity|].
      split; [|exact Hl]. cbn [for_lenses]. unfold bind. now rewrite Hp.
    + intros [= <- <-]. exists [], lens, lenses, acc, w. now repeat split.
Qed.

(** X8: a run of the pipeline that succeeds returns one record per lens of
    the table, in table order, each with the identifier, title and
    recommended terms of its lens and no source notes; it has sent exactly
    one request per lens, in that order, each carrying the prompt of its lens
    and the resolved credential and model, and has changed nothing else. *)
Theorem generate_sections_success rt resume_text w sections w' :
  generate_sections rt resume_text w = (Ok sections, w') ->
  Forall2 from_table LENSES sections
  /\ Forall (fun r => lens_notes r = []) sections
  /\ credential w <> []
  /\ w' = with_sent w (sent w ++ requests_of w resume_text LENSES).
Proof.
  unfold generate_sections. intros H.
  apply for_lenses_success in H as (rs & -> & Hrs & _ & Hc & ->). cbn [app].
  repeat split; trivial; [|apply Hc; discriminate].
  unfold LENSES in Hrs.
  repeat match goal with
         | H : Forall2 _ (_ :: _) _ |- _ =>
             let x := fresh "x" in let l := fresh "l" in
             let Hx := fresh "Hx" in let Hl := fresh "Hl" in
             inversion H as [|? x ? l Hx Hl]; subst; clear H
         | H : Forall2 _ [] _ |- _ => inversion H; subst; clear H
         end.
  repeat constructor;
    match goal with
    | H : from_table (_, ?s) ?r |- lens_notes ?r = [] =>
        destruct H as (_ & _ & _ & ->); reflexivity
    end.
Qed.

Lemma generate_sections_success_witness :
  Forall2 from_table LENSES stub_sections
  /\ Forall (fun r => lens_notes r = []) stub_sections
  /\ credential stub_world <> []
  /\ with_sent stub_world
       (requests_of stub_world (u "Ada Lovelace" ++ [NL] ++ u "Engineer") LENSES)
     = with_sent stub_world
         (sent stub_world
          ++ requests_of stub_world (u "Ada Lovelace" ++ [NL] ++ u "Engineer") LENSES).
Proof.
  apply (generate_sections_success example_runtime
           (u "Ada Lovelace" ++ [NL] ++ u "Engineer") stub_world).
  vm_compute. reflexivity.
Defined.

(** X9: a run of the pipeline that fails stops at the first lens that
    fails.  The table splits into the lenses before it, which all succeeded
    with one request each, the failing lens, and the lenses after it.  The
    error of the run is the error of the failing lens, and the world the run
    ends in is the world that lens left: the log holds the requests of the
    lenses before it and, when there is a credential, the single request of
    the failing lens, and no request of a later lens.  Without a credential
    the first lens fails, nothing is sent and the error is the
    missing-credential error. *)
Theorem generate_sections_failure rt resume_text w e w' :
  generate_sections rt resume_text w = (Err e, w') ->
  exists pre lens post sections w1,
    LENSES = pre ++ lens :: post
    /\ for_lenses rt resume_text pre [] w = (Ok sections, w1)
    /\ List.length sections = List.length pre
    /\ w1 = with_sent w (sent w ++ requests_of w resume_text pre)
    /\ process_lens rt resume_text lens w1 = (Err e, w')
    /\ ((credential w = [] /\ pre = [] /\ e = EnvironmentError MISSING_TOKEN /\ w' = w)
        \/ (credential w <> []
            /\ w' = with_sent w
                      (sent w ++ requests_of w resume_text pre
                       ++ requests_of w resume_text [lens]))).
Proof.
  unfold generate_sections. intros H.
  apply for_lenses_failure in H as (pre & lens & post & sections & w1 & Hsplit & Hpre & Hl).
  exists pre, lens, post, sections, w1.
  pose proof Hpre as Hpre'.
  apply for_lenses_success in Hpre' as (rs & -> & HF & _ & Hcred & ->).
  split; [exact Hsplit|]. split; [exact Hpre|].
  split; [cbn [app]; symmetry; exact (Forall2_length HF)|].
  split; [reflexivity|]. split; [exact Hl|].
  apply process_lens_sends in Hl as [(Hc & [= ->] & ->) | (Hc & ->)].
  - left. change (credential w = []) in Hc.
    destruct pre as [|p pre]; [|exfalso; apply Hcred; [discriminate | exact Hc]].
    repeat split; trivial. cbn [requests_of map]. rewrite app_nil_r.
    apply with_sent_same.
  - right. split; [exact Hc|]. cbn [sent with_sent].
    change (requests_of (with_sent w ?log) resume_text [lens])
      with (requests_of w resume_text [lens]).
    unfold with_sent. cbn. now rewrite <- app_assoc.
Qed.

Lemma generate_sections_failure_witness :
  exists pre lens post sections w1,
    LENSES = pre ++ lens :: post
    /\ for_lenses example_runtime (u "Ada Lovelace" ++ [NL] ++ u "Engineer") pre []
         second_call_fails_world = (Ok sections, w1)
    /\ List.length sections = List.length pre
    /\ w1 = with_sent second_call_fails_world
              (sent second_call_fails_world
               ++ requests_of second_call_fails_world
                    (u "Ada Lovelace" ++ [NL] ++ u "Engineer") pre)
    /\ process_lens example_runtime (u "Ada Lovelace" ++ [NL] ++ u "Engineer") lens w1
       = (Err (RuntimeError (u "Hugging Face API error (500): overloaded")),
          with_sent second_call_fails_world
            (requests_of second_call_fails_world
               (u "Ada Lovelace" ++ [NL] ++ u "Engineer") (firstn 2 LENSES)))
    /\ ((credential second_call_fails_world = [] /\ pre = []
         /\ RuntimeError (u "Hugging Face API error (500): overloaded")
            = EnvironmentError MISSING_TOKEN
         /\ with_sent second_call_fails_world
              (requests_of second_call_fails_world
                 (u "Ada Lovelace" ++ [NL] ++ u "Engineer") (firstn 2 LENSES))
            = second_call_fails_world)
        \/ (credential second_call_fails_world <> []
            /\ with_sent second_call_fails_world
                 (requests_of second_call_fails_world
                    (u "Ada Lovelace" ++ [NL] ++ u "Engineer") (firstn 2 LENSES))
               = with_sent second_call_fails_world
                   (sent second_call_fails_world
                    ++ requests_of second_call_fails_world
                         (u "Ada Lovelace" ++ [NL] ++ u "Engineer") pre
                    ++ requests_of second_call_fails_world
                         (u "Ada Lovelace" ++ [NL] ++ u "Engineer") [lens]))).
Proof.
  apply (generate_sections_failure example_runtime
           (u "Ada Lovelace" ++ [NL] ++ u "Engineer") second_call_fails_world).
  vm_compute. reflexivity.
Defined.

(** X10: the summary of every record the pipeline returns is left unchanged
    by trimming: it has no leading or trailing whitespace. *)
Theorem summaries_trimmed rt resume_text w sections w' :
  generate_sections rt resume_text w = (Ok sections, w') ->
  Forall (fun r => strip (summary r) = summary r /\ trimmed (summary r)) sections.
Proof.
  unfold generate_sections. intros H.
  apply for_lenses_success in H as (rs & -> & _ & Hs & _). cbn [app].
  eapply Forall_impl; [|exact Hs]. cbv beta. intros r Hr. split; [exact Hr|].
  rewrite <- Hr. apply strip_trimmed.
Qed.

Lemma summaries_trimmed_witness :
  Forall (fun r => strip (summary r) = summary r /\ trimmed (summary r)) stub_sections.
Proof.
  apply (summaries_trimmed example_runtime
           (u "Ada Lovelace" ++ [NL] ++ u "Engineer") stub_world stub_sections
           (with_sent stub_world
              (requests_of stub_world (u "Ada Lovelace" ++ [NL] ++ u "Engineer") LENSES))).
  vm_compute. reflexivity.
Defined.

(** ** The request and the answers of the transport *)

Lemma utf8_decode_ignore_agrees : forall s st t,
  utf8_decode false st s = Ok t -> utf8_decode true st s = Ok t.
Proof.
  induction s as [|b r IH]; intros st t.
  - destruct st; cbn [utf8_decode]; [trivial | discriminate].
  - assert (Hstart :
      match utf8_start (Byte.to_N b) with
      | Some (inl c) => try t <- utf8_decode false UStart r; Ok (c :: t)
      | Some (inr st') => utf8_decode false st' r
      | None => Err UnicodeDecodeError
      end = Ok t ->
      match utf8_start (Byte.to_N b) with
      | Some (inl c) => try t <- utf8_decode true UStart r; Ok (c :: t)
      | Some (inr st') => utf8_decode true st' r
      | None => utf8_decode true UStart r
      end = Ok t).
    { destruct (utf8_start (Byte.to_N b)) as [[c|st']|]; [| apply IH | discriminate].
      destruct (utf8_decode false UStart r) as [t0|e] eqn:E; cbn [rbind]; [|discriminate].
      now rewrite (IH _ _ E). }
    cbn [utf8_decode]. destruct st as [|need acc lo hi]; [exact Hstart|].
    destruct ((lo <=? Byte.to_N b) && (Byte.to_N b <=? hi))%N; [|discriminate].
    destruct need as [|[|k]]; try apply IH;
      (destruct (utf8_decode false UStart r) as [t0|e] eqn:E; cbn [rbind];
       [|discriminate]; now rewrite (IH _ _ E)).
Qed.

(** X11: with a credential the client sends exactly one request, whatever
    the answer: a POST with a timeout of 120 whose body is the serialized
    payload of the prompt, to the URL of the model named by [HF_MODEL].  The
    default model is used only when the variable is unset: a variable set to
    the empty string is taken as it is, unlike an empty credential. *)
Theorem client_request rt prompt w :
  credential w <> [] ->
  snd (call_hugging_face rt prompt w) = with_sent w (sent w ++ [request_of w prompt])
  /\ method (request_of w prompt) = u "POST"
  /\ timeout (request_of w prompt) = 120%N
  /\ data (request_of w prompt) = request_body prompt
  /\ headers (request_of w prompt)
     = [ (u "Authorization", u "Bearer " ++ credential w);
         (u "Content-Type", u "application/json") ]
  /\ (environ w HF_MODEL = None ->
      url (request_of w prompt) = MODELS_URL ++ u "mistralai/Mistral-7B-Instruct-v0.3")
  /\ (forall m, environ w HF_MODEL = Some m ->
                url (request_of w prompt) = MODELS_URL ++ m).
Proof.
  intros Hc. rewrite call_hugging_face_unfold. unfold request_of, credential in *.
  destruct (token_of w) as [[|c t]|]; try contradiction.
  cbv zeta. cbn [snd]. repeat split; unfold model_of.
  - intros ->. reflexivity.
  - intros m ->. reflexivity.
Qed.

Lemma client_request_witness :
  url (request_of empty_model_world (u "hello")) = MODELS_URL ++ [].
Proof.
  assert (H : credential empty_model_world <> []) by discriminate.
  exact (proj2 (proj2 (proj2 (proj2 (proj2 (proj2
           (client_request example_runtime (u "hello") empty_model_world H))))))
           [] eq_refl).
Defined.

(** X12: the client returns a value only when the transport answered with a
    success whose body is well-formed UTF-8 and valid JSON of a recognized
    shape.  The value is then a string read from an object, or the
    [generated_text] member of the first element of an array, which is
    truthy but need not be a string. *)
Theorem client_returns_on_success_only rt prompt w v w' :
  call_hugging_face rt prompt w = (Ok v, w') ->
  credential w <> []
  /\ w' = with_sent w (sent w ++ [request_of w prompt])
  /\ exists body text parsed,
       remote w (sent w') = HttpOk body
       /\ decode_utf8 body = Ok text
       /\ json_loads (nesting_limit rt) text = Ok parsed
       /\ ((exists d g, parsed = VDict d
                        /\ dict_get d GENERATED_TEXT = Some g
                        /\ v = VStr (str_ rt g))
           \/ (exists d rest, parsed = VList (VDict d :: rest)
                              /\ dict_get d GENERATED_TEXT = Some v
                              /\ truthy v = true)).
Proof.
  rewrite call_hugging_face_unfold. unfold request_of, credential.
  destruct (token_of w) as [[|c t]|]; try discriminate.
  cbv zeta. intros [= Ho <-]. split; [discriminate|]. split; [reflexivity|].
  cbn [sent with_sent].
  destruct (remote w _) as [body|code body|reason|name] eqn:Hr; try discriminate.
  cbn [outcome_result] in Ho.
  destruct (decode_utf8 body) as [text|e] eqn:Hd; cbn [rbind] in Ho; [|discriminate].
  destruct (json_loads (nesting_limit rt) text) as [parsed|e] eqn:Hj;
    cbn [rbind] in Ho; [|discriminate].
  exists body, text, parsed.
  split; [reflexivity|]. split; [exact Hd|]. split; [exact Hj|]. clear Hj.
  unfold read_response in Ho. fold GENERATED_TEXT in Ho.
  destruct parsed as [| | | | |[|first rest]|d]; try discriminate.
  - destruct first as [| | | | | |d]; try discriminate.
    destruct (dict_get d GENERATED_TEXT) as [g|] eqn:Hg.
    + destruct (truthy g) eqn:Ht; [|discriminate].
      injection Ho as <-. right. now exists d, rest.
    + discriminate.
  - destruct (dict_get d GENERATED_TEXT) as [g|] eqn:Hg; [|discriminate].
    injection Ho as <-. left. now exists d, g.
Qed.

(** X13: a non-success status fails the client with a [RuntimeError] whose
    message holds the status in decimal and, when the body is well-formed
    UTF-8, the whole body; the body is not parsed. *)
Theorem client_http_error rt prompt w code body message :
  credential w <> [] ->
  remote w (sent w ++ [request_of w prompt]) = HttpError code body ->
  decode_utf8 body = Ok message ->
  call_hugging_face rt prompt w
  = (Err (RuntimeError (u "Hugging Face API error (" ++ str_int code ++ u "): "
                        ++ message)),
     with_sent w (sent w ++ [request_of w prompt])).
Proof.
  intros Hc Hr Hd. rewrite call_hugging_face_unfold.
  unfold request_of, credential in *.
  destruct (token_of w) as [[|c t]|]; try contradiction.
  cbv zeta. rewrite Hr. cbn [outcome_result]. unfold decode_utf8_ignore.
  now rewrite (utf8_decode_ignore_agrees _ _ _ Hd).
Qed.

Lemma client_returns_on_success_only_witness :
  credential array_reply_world <> []
  /\ with_sent array_reply_world [request_of array_reply_world (u "hi")]
     = with_sent array_reply_world
         (sent array_reply_world ++ [request_of array_reply_world (u "hi")])
  /\ exists body text parsed,
       remote array_reply_world [request_of array_reply_world (u "hi")] = HttpOk body
       /\ decode_utf8 body = Ok text
       /\ json_loads (nesting_limit example_runtime) text = Ok parsed
       /\ ((exists d g, parsed = VDict d
                        /\ dict_get d GENERATED_TEXT = Some g
                        /\ VStr (u "{}") = VStr (str_ example_runtime g))
           \/ (exists d rest, parsed = VList (VDict d :: rest)
                              /\ dict_get d GENERATED_TEXT = Some (VStr (u "{}"))
                              /\ truthy (VStr (u "{}")) = true)).
Proof.
  apply (client_returns_on_success_only example_runtime (u "hi") array_reply_world
           (VStr (u "{}"))
           (with_sent array_reply_world [request_of array_reply_world (u "hi")])).
  vm_compute. reflexivity.
Defined.

Lemma client_http_error_witness :
  call_hugging_face example_runtime (u "hi") overloaded_world
  = (Err (RuntimeError (u "Hugging Face API error (503): Model is loading")),
     with_sent overloaded_world [request_of overloaded_world (u "hi")]).
Proof.
  apply (client_http_error example_runtime (u "hi") overloaded_world 503
           (encode_ascii (u "Model is loading")) (u "Model is loading"));
    [discriminate | reflexivity | reflexivity].
Defined.

(** ** Bullets that are not a sequence *)

(** X14: a response object without a [bullets] member is assembled with no
    key points; one whose [bullets] is [null], a boolean or a number fails
    the lens with a [TypeError]; one whose [bullets] is an object yields its
    keys, trimmed, the empty ones dropped, the first three kept. *)
Theorem bullets_absent_scalar_or_object rt lens_id spec d :
  (dict_get d (u "bullets") = None ->
   exists r, assemble rt lens_id spec (VDict d) = Ok r /\ key_points r = [])
  /\ (forall v, dict_get d (u "bullets") = Some v -> scalar v = true ->
      assemble rt lens_id spec (VDict d) = Err (TypeError (u "object is not iterable")))
  /\ (forall members, dict_get d (u "bullets") = Some (VDict members) ->
      exists r, assemble rt lens_id spec (VDict d) = Ok r
                /\ key_points r
                   = firstn 3 (filter nonempty (map (fun kv => strip (fst kv)) members))).
Proof.
  unfold assemble. cbn [get_default rbind]. split; [|split].
  - intros ->. cbn [iterate rbind filter map firstn]. eexists. split; reflexivity.
  - intros v -> Hv. destruct v; try discriminate; reflexivity.
  - intros members ->. cbn [iterate rbind]. eexists. split; [reflexivity|].
    cbn [key_points]. f_equal.
    induction members as [|kv members IH]; [reflexivity|].
    cbn [map filter]. change (str_ rt (VStr (fst kv))) with (fst kv).
    destruct (nonempty (strip (fst kv))); cbn [map]; now rewrite IH.
Qed.

(** ** Strings through the encoder and the decoder *)

Lemma hexval_hex_digit d : (d < 16)%N -> hexval (hex_digit d) = Some d.
Proof.
  intros H. unfold hexval, hex_digit, is_digit.
  destruct (N.ltb_spec d 10).
  - replace ((48 <=? 48 + d) && (48 + d <=? 57))%N with true
      by (symmetry; apply andb_true_intro; split; apply N.leb_le; lia).
    f_equal. lia.
  - replace ((48 <=? 87 + d) && (87 + d <=? 57))%N with false
      by (symmetry; apply andb_false_intro2; apply N.leb_gt; lia).
    replace ((97 <=? 87 + d) && (87 + d <=? 102))%N with true
      by (symmetry; apply andb_true_intro; split; apply N.leb_le; lia).
    f_equal. lia.
Qed.

Lemma scan_hex_digit k a d acc r :
  (d < 16)%N ->
  scan_items (SHex k a) acc (hex_digit d :: r)
  = if Nat.eqb k 3 then scan_items SNormal (Esc (a * 16 + d)%N :: acc) r
    else scan_items (SHex (S k) (a * 16 + d)%N) acc r.
Proof. intros H. cbn [scan_items]. now rewrite hexval_hex_digit. Qed.

Lemma scan_hex4 n acc r :
  (n < 65536)%N ->
  scan_items (SHex 0 0) acc (hex 4 n ++ r) = scan_items SNormal (Esc n :: acc) r.
Proof.
  intros H. cbn [hex app].
  assert (H16 : forall m, (m mod 16 < 16)%N) by (intros m; apply N.mod_lt; lia).
  rewrite !scan_hex_digit by apply H16. cbn [Nat.eqb].
  do 2 f_equal. f_equal.
  pose proof (N.div_mod' n 16) as E0.
  pose proof (N.div_mod' (n / 16) 16) as E1.
  pose proof (N.div_mod' (n / 16 / 16) 16) as E2.
  pose proof (N.div_mod' (n / 16 / 16 / 16) 16) as E3.
  assert (Hz : (n / 16 / 16 / 16 / 16 = 0)%N).
  { rewrite !N.Div0.div_div. apply N.div_small. exact H. }
  rewrite Hz in E3.
  generalize dependent (n mod 16)%N. generalize dependent ((n / 16) mod 16)%N.
  generalize dependent ((n / 16 / 16) mod 16)%N.
  generalize dependent ((n / 16 / 16 / 16) mod 16)%N.
  generalize dependent (n / 16 / 16 / 16)%N. generalize dependent (n / 16 / 16)%N.
  generalize dependent (n / 16)%N. intros. lia.
Qed.

Lemma scan_escape_char c acc r :
  (c < 1114112)%N ->
  scan_items SNormal acc (escape_char c ++ r)
  = scan_items SNormal (rev (items_of_char c) ++ acc) r.
Proof.
  intros Hc.
  destruct (N.eqb_spec c 34) as [->|H34]; [reflexivity|].
  destruct (N.eqb_spec c 92) as [->|H92]; [reflexivity|].
  destruct (N.eqb_spec c 10) as [->|H10]; [reflexivity|].
  destruct (N.eqb_spec c 13) as [->|H13]; [reflexivity|].
  destruct (N.eqb_spec c 9) as [->|H9]; [reflexivity|].
  destruct (N.eqb_spec c 12) as [->|H12]; [reflexivity|].
  destruct (N.eqb_spec c 8) as [->|H8]; [reflexivity|].
  unfold escape_char, items_of_char.
  apply N.eqb_neq in H34, H92, H10, H13, H9, H12, H8.
  rewrite H34, H92, H10, H13, H9, H12, H8. cbn [orb].
  destruct ((32 <=? c) && (c <=? 126))%N eqn:Hp.
  - apply andb_prop in Hp as [Hlo _]. apply N.leb_le in Hlo.
    cbn [app scan_items rev]. rewrite H34, H92.
    replace (c <? 32)%N with false by (symmetry; apply N.ltb_ge; lia). reflexivity.
  - change (u "\u") with [92%N; 117%N].
    destruct (N.ltb_spec c 65536) as [Hs|Hs].
    + cbn [app scan_items rev N.eqb Pos.eqb]. now rewrite scan_hex4.
    + rewrite <- !app_assoc. cbn [app scan_items rev N.eqb Pos.eqb].
      rewrite scan_hex4.
      * change (scan_items SNormal ?a (92%N :: 117%N :: ?t))
          with (scan_items (SHex 0 0) a t).
        rewrite scan_hex4; [reflexivity|].
        assert ((c - 65536) mod 1024 < 1024)%N by (apply N.mod_lt; lia). lia.
      * assert ((c - 65536) / 1024 < 1024)%N by (apply N.Div0.div_lt_upper_bound; lia).
        lia.
Qed.

Lemma scan_escaped s : forall acc rest,
  forallb (fun c => (c <? 1114112)%N) s = true ->
  scan_items SNormal acc (flat_map escape_char s ++ 34%N :: rest)
  = Ok (rev acc ++ flat_map items_of_char s, rest).
Proof.
  induction s as [|c s IH]; intros acc rest H.
  - cbn [flat_map app scan_items N.eqb Pos.eqb]. now rewrite app_nil_r.
  - cbn [forallb] in H. apply andb_prop in H as [Hc Hs]. apply N.ltb_lt in Hc.
    cbn [flat_map]. rewrite <- app_assoc, scan_escape_char by exact Hc.
    rewrite (IH _ _ Hs), rev_app_distr, rev_involutive, <- app_assoc. reflexivity.
Qed.

Lemma join_literal c r : join_surrogates (Lit c :: r) = c :: join_surrogates r.
Proof. reflexivity. Qed.

Lemma join_unit hi r :
  ((55296 <=? hi) && (hi <=? 56319))%N = false ->
  join_surrogates (Esc hi :: r) = hi :: join_surrogates r.
Proof.
  intros H. cbn [join_surrogates]. destruct r as [|[c|lo] r']; try reflexivity.
  now rewrite H.
Qed.

(** The decoder joins what the encoder split: the items read from the
    escapes of a text without surrogates are the text. *)
Lemma join_items s :
  valid_text s = true -> join_surrogates (flat_map items_of_char s) = s.
Proof.
  unfold valid_text. induction s as [|c s IH]; [reflexivity|].
  cbn [forallb flat_map]. intros H. apply andb_prop in H as [Hc Hs].
  specialize (IH Hs). unfold items_of_char.
  destruct ((32 <=? c) && (c <=? 126))%N; [cbn [app]; rewrite join_literal; now f_equal|].
  destruct ((c =? 10) || (c =? 13) || (c =? 9) || (c =? 12) || (c =? 8))%N;
    [cbn [app]; rewrite join_literal; now f_equal|].
  unfold scalar_value in Hc.
  destruct (N.ltb_spec c 65536) as [Hs16|Hs16]; cbn [app].
  - rewrite join_unit; [now f_equal|].
    destruct (N.ltb_spec c 55296); cbn [orb] in Hc.
    + apply andb_false_intro1, N.leb_gt. lia.
    + apply andb_prop in Hc as [Hc _]. apply N.ltb_lt in Hc.
      apply andb_false_intro2, N.leb_gt. lia.
  - destruct (N.ltb_spec c 55296); [lia|]. cbn [orb] in Hc.
    apply andb_prop in Hc as [_ Hc]. apply N.ltb_lt in Hc.
    assert (Hq : ((c - 65536) / 1024 < 1024)%N)
      by (apply N.Div0.div_lt_upper_bound; lia).
    assert (Hm : ((c - 65536) mod 1024 < 1024)%N) by (apply N.mod_lt; lia).
    pose proof (N.div_mod' (c - 65536) 1024) as E.
    cbn [join_surrogates].
    revert E Hq Hm. generalize ((c - 65536) / 1024)%N ((c - 65536) mod 1024)%N.
    intros hi lo E Hq Hm.
    replace ((55296 <=? 55296 + hi) && (55296 + hi <=? 56319)
             && (56320 <=? 56320 + lo) && (56320 + lo <=? 57343))%N with true.
    + f_equal; [lia | exact IH].
    + symmetry. repeat (apply andb_true_intro; split); apply N.leb_le; lia.
Qed.

Lemma valid_text_bounded s :
  valid_text s = true -> forallb (fun c => (c <? 1114112)%N) s = true.
Proof.
  unfold valid_text. intros H. rewrite forallb_forall in *. intros c Hc.
  specialize (H c Hc). unfold scalar_value in H. apply N.ltb_lt.
  destruct (N.ltb_spec c 55296); [lia|]. cbn [orb] in H.
  apply andb_prop in H as [_ H]. now apply N.ltb_lt.
Qed.

(** The decoder reads back a text from its encoding, and stops after the
    closing quote. *)
Lemma scanstring_encoded s rest :
  valid_text s = true ->
  scanstring (flat_map escape_char s ++ 34%N :: rest) = Ok (s, rest).
Proof.
  intros H. unfold scanstring.
  rewrite (scan_escaped s [] rest (valid_text_bounded s H)). cbn [rbind rev app].
  now rewrite join_items.
Qed.

(** ** Fuel *)

Lemma rbind_not_starved {A B} (r : result A) (k : A -> result B) :
  rbind r k <> Err OutOfFuel -> r <> Err OutOfFuel.
Proof. intros H ->. now apply H. Qed.

(** A step of the decoder that did not run out of fuel gives the same
    result with more fuel. *)
Lemma decoder_fuel_more fuel :
  (forall depth s, scan_once fuel depth s <> Err OutOfFuel ->
     forall fuel', (fuel <= fuel')%nat ->
                   scan_once fuel' depth s = scan_once fuel depth s)
  /\ (forall depth acc s, object_loop fuel depth acc s <> Err OutOfFuel ->
        forall fuel', (fuel <= fuel')%nat ->
                      object_loop fuel' depth acc s = object_loop fuel depth acc s)
  /\ (forall depth acc s, array_loop fuel depth acc s <> Err OutOfFuel ->
        forall fuel', (fuel <= fuel')%nat ->
                      array_loop fuel' depth acc s = array_loop fuel depth acc s).
Proof.
  induction fuel as [|f (IHs & IHo & IHa)].
  { split; [|split]; intros; cbn in *; congruence. }
  split; [|split].
  - intros depth s H [|f'] Hle; [lia|]. assert (Hf : (f <= f')%nat) by lia.
    revert H. cbn [scan_once]. destruct s as [|c r]; [reflexivity|].
    destruct (c =? 34)%N; [reflexivity|].
    destruct (c =? 123)%N.
    { destruct depth as [|d]; [reflexivity|].
      destruct (head_is 125 (skip_ws r)); [reflexivity|].
      destruct (head_is 34 (skip_ws r)) as [r'|]; [|reflexivity].
      intros H. now rewrite (IHo d [] r' (rbind_not_starved _ _ H) f' Hf). }
    destruct (c =? 91)%N.
    { destruct depth as [|d]; [reflexivity|].
      destruct (head_is 93 (skip_ws r)); [reflexivity|].
      intros H. now rewrite (IHa d [] _ (rbind_not_starved _ _ H) f' Hf). }
    reflexivity.
  - intros depth acc s H [|f'] Hle; [lia|]. assert (Hf : (f <= f')%nat) by lia.
    revert H. cbn [object_loop].
    destruct (scanstring s) as [[key r1]|e]; cbn [rbind]; [|reflexivity].
    destruct (head_is 58 (skip_ws r1)) as [r2|]; [|reflexivity].
    intros H. rewrite (IHs _ _ (rbind_not_starved _ _ H) f' Hf).
    destruct (scan_once f depth (skip_ws r2)) as [[v r3]|e]; cbn [rbind] in *;
      [|reflexivity].
    destruct (head_is 125 (skip_ws r3)); [reflexivity|].
    destruct (head_is 44 (skip_ws r3)) as [r4|]; [|reflexivity].
    destruct (head_is 34 (skip_ws r4)) as [r5|]; [|reflexivity].
    now apply IHo.
  - intros depth acc s H [|f'] Hle; [lia|]. assert (Hf : (f <= f')%nat) by lia.
    revert H. cbn [array_loop]. intros H.
    rewrite (IHs _ _ (rbind_not_starved _ _ H) f' Hf).
    destruct (scan_once f depth s) as [[v r1]|e]; cbn [rbind] in *; [|reflexivity].
    destruct (head_is 93 (skip_ws r1)); [reflexivity|].
    destruct (head_is 44 (skip_ws r1)) as [r2|]; [|reflexivity].
    now apply IHa.
Qed.

(** A text that the decoder reads with some fuel and some levels is read by
    [json.loads] with at least as many levels. *)
Lemma json_loads_reads limit s v fuel depth :
  head_is 65279 s = None ->
  scan_once fuel depth (skip_ws s) = Ok (v, []) ->
  (depth <= limit)%nat ->
  json_loads limit s = Ok v.
Proof.
  intros Hb Hs Hd. unfold json_loads. rewrite Hb.
  pose proof (skip_ws_length s) as Hl.
  destruct (proj1 (decoder_fuel (2 * List.length s + 2)) limit (skip_ws s)) as [Hn _];
    [lia|].
  pose proof (proj1 (decoder_fuel_more _) _ _ Hn (Nat.max fuel (2 * List.length s + 2))
                (Nat.le_max_r _ _)) as H1.
  assert (Hr : scan_once fuel depth (skip_ws s) <> Err RecursionError)
    by (rewrite Hs; discriminate).
  pose proof (proj1 (decoder_depth_more _) _ _ Hr limit Hd) as H3.
  rewrite Hs in H3.
  assert (Hs' : scan_once fuel limit (skip_ws s) <> Err OutOfFuel)
    by (rewrite H3; discriminate).
  pose proof (proj1 (decoder_fuel_more _) _ _ Hs' (Nat.max fuel (2 * List.length s + 2))
                (Nat.le_max_l _ _)) as H2.
  rewrite <- H1, H2, H3. reflexivity.
Qed.

(** ** Values through [json.dumps] and [json.loads] *)

Lemma value_induction (P : value -> Prop) :
  P VNone -> (forall b, P (VBool b)) -> (forall z, P (VInt z)) ->
  (forall l, P (VFloat l)) -> (forall s, P (VStr s)) ->
  (forall l, Forall P l -> P (VList l)) ->
  (forall d, Forall (fun kv => P (snd kv)) d -> P (VDict d)) ->
  forall v, P v.
Proof.
  intros HN HB HI HF HS HL HD. fix IH 1.
  intros [ |b|z|l|s|l|d];
    [exact HN | apply HB | apply HI | apply HF | apply HS | | ].
  - apply HL. induction l as [|x l IHl]; constructor; [apply IH | exact IHl].
  - apply HD. induction d as [|[k x] d IHd]; constructor; [apply IH | exact IHd].
Qed.

Lemma skip_ws_head c t : json_ws c = false -> skip_ws (c :: t) = c :: t.
Proof. intros H. cbn [skip_ws]. now rewrite H. Qed.

Lemma skip_ws_spaces n X : skip_ws (repeat SPACE n ++ X) = skip_ws X.
Proof. induction n as [|n IH]; [reflexivity | exact IH]. Qed.

Lemma skip_ws_indent k X : skip_ws (newline_indent k ++ X) = skip_ws X.
Proof.
  unfold newline_indent. rewrite <- app_assoc.
  change (skip_ws (repeat SPACE (2 * k) ++ X) = skip_ws X). apply skip_ws_spaces.
Qed.

(** A serialized value starts with a character that is not whitespace. *)
Lemma dumps_head rt level v :
  textual v = true ->
  exists c t, dumps_indent rt level v = c :: t /\ json_ws c = false /\ c <> 93%N.
Proof.
  destruct v as [ |[|]|z|l|s|[|x l]|[|kv d]]; cbn [textual]; try discriminate; intros _;
    eexists _, _; (split; [reflexivity | split; [reflexivity | discriminate]]).
Qed.

Lemma skip_ws_dumps rt level v X :
  textual v = true ->
  skip_ws (dumps_indent rt level v ++ X) = dumps_indent rt level v ++ X.
Proof.
  intros H. destruct (dumps_head rt level v H) as (c & t & -> & Hc & _).
  now apply skip_ws_head.
Qed.

Lemma dict_set_fresh d k v :
  forallb (fun kv => negb (pystr_eqb (fst kv) k)) d = true ->
  dict_set d k v = d ++ [(k, v)].
Proof.
  induction d as [|[k' v'] d IH]; [reflexivity|]. cbn [forallb fst dict_set app].
  intros H. apply andb_prop in H as [Hk Hd].
  destruct (pystr_eqb k' k); [discriminate|]. now rewrite IH.
Qed.

Lemma distinct_app_cons a k r :
  distinct (a ++ k :: r) = true ->
  forallb (fun k' => negb (pystr_eqb k' k)) a = true.
Proof.
  induction a as [|x a IH]; [reflexivity|]. cbn [app distinct forallb].
  intros H. apply andb_prop in H as [Hx Ha]. rewrite (IH Ha), andb_true_r.
  rewrite existsb_app in Hx. cbn [existsb] in Hx.
  destruct (pystr_eqb x k); [|reflexivity].
  now rewrite orb_true_r in Hx.
Qed.

Lemma forallb_through_map {A B} (f : B -> bool) (g : A -> B) l :
  forallb f (map g l) = forallb (fun x => f (g x)) l.
Proof. induction l as [|x l IH]; [reflexivity|]. cbn [map forallb]. now rewrite IH. Qed.

Lemma dict_of_pairs_distinct_from pairs : forall acc,
  distinct (map fst (acc ++ pairs)) = true ->
  fold_left (fun d kv => dict_set d (fst kv) (snd kv)) pairs acc = acc ++ pairs.
Proof.
  induction pairs as [|[k v] pairs IH]; intros acc H; cbn [fold_left fst snd].
  - now rewrite app_nil_r.
  - rewrite dict_set_fresh.
    + rewrite IH; rewrite <- app_assoc; [reflexivity | exact H].
    + rewrite map_app in H. cbn [map fst] in H. apply distinct_app_cons in H.
      now rewrite forallb_through_map in H.
Qed.

Lemma dict_of_pairs_distinct d :
  distinct (map fst d) = true -> dict_of_pairs d = d.
Proof. intros H. exact (dict_of_pairs_distinct_from d [] H). Qed.

Lemma head_is_hit c t : head_is c (c :: t) = Some t.
Proof. cbn [head_is]. now rewrite N.eqb_refl. Qed.

Lemma head_is_miss c x t : x <> c -> head_is c (x :: t) = None.
Proof. intros H. cbn [head_is]. apply N.eqb_neq in H. now rewrite H. Qed.

Lemma join_one {A} sep (f : A -> pystr) x : join sep (map f [x]) = f x.
Proof. reflexivity. Qed.

Lemma join_two {A} sep (f : A -> pystr) x y l :
  join sep (map f (x :: y :: l)) = f x ++ sep ++ join sep (map f (y :: l)).
Proof. reflexivity. Qed.

Lemma nesting_list l : nesting (VList l) = S (list_max (map nesting l)).
Proof. reflexivity. Qed.

Lemma nesting_dict d :
  nesting (VDict d) = S (list_max (map (fun kv => nesting (snd kv)) d)).
Proof. reflexivity. Qed.

Lemma list_max_cons x l : list_max (x :: l) = Nat.max x (list_max l).
Proof. reflexivity. Qed.

Lemma reads_array rt level l :
  l <> [] ->
  Forall (fun v => textual v = true /\ readable rt v) l ->
  forall acc rest,
    reads (list_max (map nesting l))
      (fun fuel depth =>
         array_loop fuel depth acc
           (join (u "," ++ newline_indent (S level))
              (map (dumps_indent rt (S level)) l)
            ++ newline_indent level ++ 93%N :: rest))
      (acc ++ l, rest)
    /\ exists c t, join (u "," ++ newline_indent (S level))
                     (map (dumps_indent rt (S level)) l) = c :: t
                   /\ json_ws c = false /\ c <> 93%N.
Proof.
  induction l as [|x l IH]; [congruence|]. intros _ HF acc rest.
  inversion HF as [|? ? [Hx Rx] Hl]; subst.
  change (map nesting (x :: l)) with (nesting x :: map nesting l).
  rewrite list_max_cons.
  destruct l as [|y l'].
  - rewrite join_one. split; [|exact (dumps_head rt (S level) x Hx)].
    destruct (Rx (S level) (newline_indent level ++ 93%N :: rest)) as [f0 Hf0].
    exists (S f0). intros [|f] depth Hf Hd; [lia|]. cbn [array_loop].
    rewrite Hf0 by lia. cbn [rbind].
    rewrite skip_ws_indent, skip_ws_head by reflexivity.
    now rewrite head_is_hit.
  - rewrite join_two. split.
    + destruct (IH ltac:(discriminate) Hl (acc ++ [x]) rest)
        as [[f1 Hf1] (c & t & Hct & Hc & _)].
      destruct (Rx (S level)
                  ((u "," ++ newline_indent (S level))
                   ++ join (u "," ++ newline_indent (S level))
                        (map (dumps_indent rt (S level)) (y :: l'))
                   ++ newline_indent level ++ 93%N :: rest)) as [f0 Hf0].
      exists (S (Nat.max f0 f1)). intros [|f] depth Hf Hd; [lia|]. cbn [array_loop].
      rewrite <- !app_assoc. rewrite !app_assoc in Hf0. rewrite <- !app_assoc in Hf0.
      rewrite Hf0 by lia. cbn [rbind].
      change (u "," ++ ?X) with (44%N :: X).
      rewrite skip_ws_head by reflexivity.
      rewrite head_is_miss by discriminate. rewrite head_is_hit.
      rewrite skip_ws_indent. rewrite Hct. cbn [app]. rewrite skip_ws_head by exact Hc.
      change (c :: t ++ ?X) with ((c :: t) ++ X). rewrite <- Hct.
      rewrite Hf1 by lia. now rewrite <- app_assoc.
    + destruct (dumps_head rt (S level) x Hx) as (c & t & -> & Hc).
      exists c. eexists. split; [reflexivity | exact Hc].
Qed.

Lemma entry_shape rt level (kv : pystr * value) X :
  encode_basestring_ascii (fst kv) ++ u ": " ++ dumps_indent rt (S level) (snd kv) ++ X
  = 34%N :: flat_map escape_char (fst kv)
      ++ 34%N :: 58%N :: 32%N :: dumps_indent rt (S level) (snd kv) ++ X.
Proof.
  unfold encode_basestring_ascii. rewrite <- !app_assoc. reflexivity.
Qed.

Lemma reads_object rt level d :
  d <> [] ->
  Forall (fun kv => valid_text (fst kv) = true /\ textual (snd kv) = true
                    /\ readable rt (snd kv)) d ->
  forall acc rest,
  exists body,
    join (u "," ++ newline_indent (S level))
      (map (fun kv => encode_basestring_ascii (fst kv) ++ u ": "
                      ++ dumps_indent rt (S level) (snd kv)) d)
    ++ newline_indent level ++ 125%N :: rest
    = 34%N :: body
    /\ reads (list_max (map (fun kv => nesting (snd kv)) d))
         (fun fuel depth => object_loop fuel depth acc body) (acc ++ d, rest).
Proof.
  induction d as [|kv d IH]; [congruence|]. intros _ HF acc rest.
  inversion HF as [|? ? (Hk & Hv & Rv) Hd]; subst.
  change (map (fun kv => nesting (snd kv)) (kv :: d))
    with (nesting (snd kv) :: map (fun kv => nesting (snd kv)) d).
  rewrite list_max_cons.
  destruct d as [|kv2 d'].
  - rewrite join_one. cbv beta. eexists.
    split; [rewrite <- !app_assoc; apply entry_shape|].
    destruct (Rv (S level) (newline_indent level ++ 125%N :: rest)) as [f0 Hf0].
    exists (S f0). intros [|f] depth Hf Hdepth; [lia|]. cbn [object_loop].
    rewrite scanstring_encoded by exact Hk. cbn [rbind].
    rewrite skip_ws_head by reflexivity. rewrite head_is_hit.
    change (skip_ws (32%N :: ?X)) with (skip_ws X).
    rewrite skip_ws_dumps by exact Hv. rewrite Hf0 by lia. cbn [rbind].
    rewrite skip_ws_indent, skip_ws_head by reflexivity.
    rewrite head_is_hit. now destruct kv.
  - rewrite join_two. cbv beta.
    destruct (IH ltac:(discriminate) Hd (acc ++ [kv]) rest) as (body2 & Hb2 & [f1 Hf1]).
    change pystr with (list N) in *.
    eexists. split; [rewrite <- !app_assoc; apply entry_shape|].
    destruct (Rv (S level) (u "," ++ newline_indent (S level) ++ 34%N :: body2))
      as [f0 Hf0].
    exists (S (Nat.max f0 f1)). intros [|f] depth Hf Hdepth; [lia|]. cbv beta.
    rewrite Hb2. cbn [object_loop].
    rewrite scanstring_encoded by exact Hk. cbn [rbind].
    rewrite skip_ws_head by reflexivity. rewrite head_is_hit.
    change (skip_ws (32%N :: ?X)) with (skip_ws X).
    rewrite skip_ws_dumps by exact Hv. rewrite Hf0 by lia. cbn [rbind].
    change (u "," ++ ?X) with (44%N :: X).
    rewrite skip_ws_head by reflexivity.
    rewrite head_is_miss by discriminate. rewrite head_is_hit.
    rewrite skip_ws_indent, skip_ws_head by reflexivity. rewrite head_is_hit.
    rewrite <- surjective_pairing. rewrite Hf1 by lia. now rewrite <- app_assoc.
Qed.

(** Reading back what was written: with the levels of its nesting, the
    decoder returns every textual value from its indented serialization. *)
Lemma textual_readable rt v : textual v = true -> readable rt v.
Proof.
  induction v as [ |b|z|l|s|l IH|d IH] using value_induction;
    cbn [textual]; try discriminate; intros Hv level rest.
  - exists 1%nat. intros [|f] depth Hf _; [lia|]. reflexivity.
  - exists 1%nat. intros [|f] depth Hf _; [lia|]. destruct b; reflexivity.
  - exists 1%nat. intros [|f] depth Hf _; [lia|]. cbn [dumps_indent].
    unfold encode_basestring_ascii. rewrite <- !app_assoc.
    change DQUOTE with 34%N. cbn [app scan_once N.eqb Pos.eqb].
    now rewrite scanstring_encoded.
  - rewrite nesting_list. destruct l as [|x l].
    { exists 1%nat. intros [|f] [|depth] Hf Hd; try lia. reflexivity. }
    assert (HF : Forall (fun v => textual v = true /\ readable rt v) (x :: l)).
    { rewrite forallb_forall in Hv. rewrite Forall_forall in *. intros v Hin.
      split; [exact (Hv v Hin) | exact (IH v Hin (Hv v Hin))]. }
    destruct (reads_array rt level (x :: l) ltac:(discriminate) HF [] rest)
      as [[f0 Hf0] (c & t & Hct & Hc & Hc')].
    exists (S f0). intros [|f] [|depth] Hf Hd; try lia.
    change (dumps_indent rt level (VList (x :: l)))
      with (91%N :: newline_indent (S level)
            ++ join (u "," ++ newline_indent (S level))
                 (map (dumps_indent rt (S level)) (x :: l))
            ++ newline_indent level ++ [93%N]).
    cbn [app]. rewrite <- !app_assoc. cbn [app scan_once N.eqb Pos.eqb].
    rewrite skip_ws_indent, Hct. cbn [app]. rewrite skip_ws_head by exact Hc.
    rewrite head_is_miss by exact Hc'.
    change (c :: t ++ ?X) with ((c :: t) ++ X). rewrite <- Hct.
    rewrite Hf0 by lia. reflexivity.
  - rewrite nesting_dict. destruct d as [|kv d].
    { exists 1%nat. intros [|f] [|depth] Hf Hd; try lia. reflexivity. }
    apply andb_prop in Hv as [Hv Hkeys].
    assert (HF : Forall (fun kv => valid_text (fst kv) = true /\ textual (snd kv) = true
                                   /\ readable rt (snd kv)) (kv :: d)).
    { rewrite forallb_forall in Hv. rewrite Forall_forall in *. intros e Hin.
      specialize (Hv e Hin). apply andb_prop in Hv as [Hk Hs].
      split; [exact Hk|]. split; [exact Hs | exact (IH e Hin Hs)]. }
    destruct (reads_object rt level (kv :: d) ltac:(discriminate) HF [] rest)
      as (body & Hb & [f0 Hf0]).
    exists (S f0). intros [|f] [|depth] Hf Hd; try lia.
    change (dumps_indent rt level (VDict (kv :: d)))
      with (123%N :: newline_indent (S level)
            ++ join (u "," ++ newline_indent (S level))
                 (map (fun kv => encode_basestring_ascii (fst kv) ++ u ": "
                                 ++ dumps_indent rt (S level) (snd kv)) (kv :: d))
            ++ newline_indent level ++ [125%N]).
    cbn [app]. rewrite <- !app_assoc. cbn [app scan_once N.eqb Pos.eqb].
    rewrite skip_ws_indent, Hb. rewrite skip_ws_head by reflexivity.
    rewrite head_is_miss by discriminate. rewrite head_is_hit.
    rewrite Hf0 by lia. cbn [rbind app].
    now rewrite (dict_of_pairs_distinct _ Hkeys).
Qed.

(** [json.loads(json.dumps(v, indent=2))] is [v] for a textual value, where
    the decoder has the levels of its nesting. *)
Lemma loads_dumps rt limit v :
  textual v = true -> (nesting v <= limit)%nat ->
  json_loads limit (dumps_indent rt 0 v) = Ok v.
Proof.
  intros Hv Hn. destruct (textual_readable rt v Hv 0%nat []) as [f0 Hf0].
  specialize (Hf0 f0 (nesting v) (le_n _) (le_n _)). rewrite app_nil_r in Hf0.
  apply (json_loads_reads limit _ _ f0 (nesting v)); [| |exact Hn].
  - destruct v as [ |[|]|z|l|s|[|x l]|[|kv d]]; try discriminate; reflexivity.
  - destruct (dumps_head rt 0 v Hv) as (c & t & E & Hc & _).
    rewrite E, skip_ws_head by exact Hc. now rewrite <- E.
Qed.

(** ** What is sent and what is written *)

Lemma ascii_text_app a b : ascii_text (a ++ b) = ascii_text a && ascii_text b.
Proof. apply forallb_app. Qed.

Lemma hex_digit_ascii d : (d < 16)%N -> (hex_digit d <? 128)%N = true.
Proof.
  intros H. unfold hex_digit. apply N.ltb_lt. destruct (d <? 10)%N; lia.
Qed.

Lemma hex_ascii k : forall n, ascii_text (hex k n) = true.
Proof.
  induction k as [|k IH]; intros n; [reflexivity|]. cbn [hex].
  rewrite ascii_text_app, IH. cbn [ascii_text forallb andb].
  rewrite hex_digit_ascii; [reflexivity | apply N.mod_lt; lia].
Qed.

Lemma escape_char_ascii c : ascii_text (escape_char c) = true.
Proof.
  unfold escape_char.
  repeat match goal with
         | |- context [if ?b then _ else _] =>
             let E := fresh "E" in destruct b eqn:E; try reflexivity
         end.
  - apply andb_prop in E6 as [_ E6]. apply N.leb_le in E6.
    cbn [ascii_text forallb]. rewrite andb_true_r. apply N.ltb_lt. lia.
  - rewrite ascii_text_app, hex_ascii. reflexivity.
  - rewrite !ascii_text_app, !hex_ascii. reflexivity.
Qed.

Lemma escaped_ascii s : ascii_text (flat_map escape_char s) = true.
Proof.
  induction s as [|c s IH]; [reflexivity|]. cbn [flat_map].
  now rewrite ascii_text_app, escape_char_ascii.
Qed.

Lemma encoded_ascii s : ascii_text (encode_basestring_ascii s) = true.
Proof.
  unfold encode_basestring_ascii. now rewrite !ascii_text_app, escaped_ascii.
Qed.

Lemma newline_indent_ascii k : ascii_text (newline_indent k) = true.
Proof.
  unfold newline_indent. rewrite ascii_text_app. cbn [ascii_text forallb andb N.ltb N.compare Pos.compare Pos.compare_cont].
  induction (2 * k)%nat as [|n IH]; [reflexivity | exact IH].
Qed.

Lemma join_ascii sep l :
  ascii_text sep = true -> Forall (fun x => ascii_text x = true) l ->
  ascii_text (join sep l) = true.
Proof.
  intros Hs H. induction H as [|x l Hx Hl IH]; [reflexivity|].
  destruct l as [|y l]; [exact Hx|].
  change (join sep (x :: y :: l)) with (x ++ sep ++ join sep (y :: l)).
  now rewrite !ascii_text_app, Hx, Hs, IH.
Qed.

(** The serialization of a textual value is ASCII, whatever its texts. *)
Lemma dumps_ascii rt v :
  textual v = true -> forall level, ascii_text (dumps_indent rt level v) = true.
Proof.
  induction v as [ |b|z|l|s|l IH|d IH] using value_induction;
    cbn [textual]; try discriminate; intros Hv level.
  - reflexivity.
  - destruct b; reflexivity.
  - apply encoded_ascii.
  - destruct l as [|x l]; [reflexivity|].
    change (dumps_indent rt level (VList (x :: l)))
      with (u "[" ++ newline_indent (S level)
            ++ join (u "," ++ newline_indent (S level))
                 (map (dumps_indent rt (S level)) (x :: l))
            ++ newline_indent level ++ u "]").
    rewrite !ascii_text_app, !newline_indent_ascii, join_ascii; [reflexivity | |].
    + now rewrite ascii_text_app, newline_indent_ascii.
    + apply Forall_map. rewrite forallb_forall in Hv. rewrite Forall_forall in *.
      intros v Hin. exact (IH v Hin (Hv v Hin) (S level)).
  - destruct d as [|kv d]; [reflexivity|]. apply andb_prop in Hv as [Hv _].
    change (dumps_indent rt level (VDict (kv :: d)))
      with (u "{" ++ newline_indent (S level)
            ++ join (u "," ++ newline_indent (S level))
                 (map (fun kv => encode_basestring_ascii (fst kv) ++ u ": "
                                 ++ dumps_indent rt (S level) (snd kv)) (kv :: d))
            ++ newline_indent level ++ u "}").
    rewrite !ascii_text_app, !newline_indent_ascii, join_ascii; [reflexivity | |].
    + now rewrite ascii_text_app, newline_indent_ascii.
    + apply Forall_map. rewrite forallb_forall in Hv. rewrite Forall_forall in *.
      intros e Hin. specialize (Hv e Hin). apply andb_prop in Hv as [_ Hs].
      rewrite !ascii_text_app, encoded_ascii, (IH e Hin Hs (S level)). reflexivity.
Qed.

Lemma plain_scalar c : plain c -> scalar_value c = true.
Proof.
  unfold plain, scalar_value. intros H.
  destruct (N.ltb_spec c 55296) as [|Hc]; [reflexivity|]. exfalso.
  unfold escape_char in H.
  repeat match type of H with
         | (if ?b then _ else _) = _ =>
             let E := fresh "E" in destruct b eqn:E; try discriminate
         end.
  apply andb_prop in E6 as [_ E6]. apply N.leb_le in E6. lia.
Qed.

Lemma plain_valid s : Forall plain s -> valid_text s = true.
Proof.
  intros H. apply forallb_forall. rewrite Forall_forall in H.
  intros c Hc. apply plain_scalar, H, Hc.
Qed.

Lemma strftime_valid t : valid_text (strftime t) = true.
Proof.
  apply plain_valid. unfold strftime.
  repeat (apply Forall_app; split);
    first [ apply digits_plain | apply pad2_plain | repeat constructor ].
Qed.

Lemma forallb_map_true {A B} (f : B -> bool) (g : A -> B) l :
  forallb (fun x => f (g x)) l = true -> forallb f (map g l) = true.
Proof. now rewrite forallb_through_map. Qed.

Lemma textual_lens_value lens r :
  In lens LENSES -> from_table lens r -> valid_reply r = true ->
  textual (lens_value r) = true.
Proof.
  intros Hin (Hid & Ht & Hterms & Hnotes) Hr.
  apply andb_prop in Hr as [Hs Hk].
  assert (Htable : valid_text (fst lens) = true /\ valid_text (title (snd lens)) = true
                   /\ forallb valid_text (recommended_terms (snd lens)) = true
                   /\ source_notes (snd lens) = None).
  { unfold LENSES in Hin. cbn [In] in Hin.
    destruct Hin as [<-|[<-|[<-|[]]]]; repeat split; vm_compute; reflexivity. }
  destruct Htable as (T1 & T2 & T3 & T4). rewrite T4 in Hnotes.
  unfold lens_value, strings.
  cbn [textual forallb map fst snd]. rewrite Hid, Ht, Hterms, Hnotes, T1, T2, Hs.
  cbn [andb map forallb].
  rewrite (forallb_map_true textual VStr _ Hk), (forallb_map_true textual VStr _ T3).
  reflexivity.
Qed.

Lemma Forall2_In_r {A B} (P : A -> B -> Prop) ls rs r :
  Forall2 P ls rs -> In r rs -> exists l, In l ls /\ P l r.
Proof.
  intros HF. induction HF as [|l r' ls rs Hf HFs IH]; [contradiction|].
  intros [<-|Hr].
  - exists l. split; [now left | exact Hf].
  - destruct (IH Hr) as (l' & Hl & Hf'). exists l'. split; [now right | exact Hf'].
Qed.

Lemma textual_document t sections :
  Forall2 from_table LENSES sections ->
  forallb valid_reply sections = true ->
  textual (document (strftime t) sections) = true.
Proof.
  intros HF Hv. unfold document. cbn [textual forallb map fst snd].
  rewrite strftime_valid. cbn [andb].
  assert (H : forallb textual (map lens_value sections) = true).
  { apply forallb_map_true. apply forallb_forall. intros r Hr.
    rewrite forallb_forall in Hv.
    destruct (Forall2_In_r _ _ _ _ HF Hr) as (lens & Hl & Hf).
    exact (textual_lens_value lens r Hl Hf (Hv r Hr)). }
  rewrite H. reflexivity.
Qed.

Lemma nesting_strings l : nesting (strings l) = 1%nat.
Proof.
  unfold strings. rewrite nesting_list. f_equal.
  induction l as [|x l IH]; [reflexivity|].
  change (map nesting (map VStr (x :: l))) with (O :: map nesting (map VStr l)).
  rewrite list_max_cons. exact IH.
Qed.

Lemma nesting_lens_value r : nesting (lens_value r) = 2%nat.
Proof.
  unfold lens_value. rewrite nesting_dict.
  change (map (fun kv : pystr * value => nesting (snd kv)) ?d)
    with [O; O; O; nesting (strings (key_points r)); nesting (strings (lens_terms r));
          nesting (strings (lens_notes r))].
  now rewrite !nesting_strings.
Qed.

(** The document nests four levels at most. *)
Lemma nesting_document generated_at sections :
  (nesting (document generated_at sections) <= 4)%nat.
Proof.
  unfold document. rewrite nesting_dict.
  change (map (fun kv : pystr * value => nesting (snd kv)) ?d)
    with [O; O; nesting (VList (map lens_value sections))].
  rewrite nesting_list.
  assert (H : (list_max (map nesting (map lens_value sections)) <= 2)%nat).
  { apply list_max_le, Forall_forall. intros n Hn.
    rewrite map_map in Hn. apply in_map_iff in Hn as (r & <- & _).
    now rewrite nesting_lens_value. }
  rewrite !list_max_cons. change (list_max []) with O. lia.
Qed.

(** X15: a run that succeeds overwrites the output file, whatever it held,
    with ASCII bytes that decode and parse back, as JSON, to the document:
    the timestamp of the run, the model hint and the records of the lenses
    in table order; it prints one line naming the path.  The texts taken
    from the model are assumed free of surrogates. *)
Theorem output_parses_back rt w resume_text w1 sections w2 :
  load_resume w = (Ok resume_text, w1) ->
  generate_sections rt resume_text w1 = (Ok sections, w2) ->
  forallb valid_reply sections = true ->
  exists out,
    main rt w
    = (Ok tt,
       with_stdout (with_output w2 out)
         (stdout w ++ [u "Wrote " ++ root w ++ u "/data/resume_lenses.json"]))
    /\ forallb (fun b => (Byte.to_N b <? 128)%N) out = true
    /\ (try text <- decode_utf8 out; json_loads (nesting_limit rt) text)
       = Ok (document (strftime (now w)) sections).
Proof.
  intros Hl Hg Hv. pose proof (load_resume_frame _ _ _ Hl) as ->.
  pose proof Hg as Hg'. unfold generate_sections in Hg'.
  apply for_lenses_success in Hg' as (rs & Hrs & HF & _ & _ & Hw). cbn [app] in Hrs.
  subst rs.
  assert (Ht : textual (document (strftime (now w)) sections) = true)
    by exact (textual_document _ _ HF Hv).
  exists (encode_ascii (dumps_indent rt 0 (document (strftime (now w)) sections))).
  split; [|split].
  - rewrite main_unfold, Hl, Hg. rewrite Hw. reflexivity.
  - pose proof (dumps_ascii rt _ Ht 0%nat) as Ha. unfold ascii_text in Ha.
    unfold encode_ascii. rewrite forallb_through_map.
    rewrite forallb_forall in *. intros c Hc. specialize (Ha c Hc).
    rewrite to_N_byte_of_N; [exact Ha|]. apply N.ltb_lt in Ha. lia.
  - rewrite decode_encode_ascii by exact (dumps_ascii rt _ Ht 0%nat). cbn [rbind].
    apply (loads_dumps rt _ _ Ht).
    pose proof (nesting_document (strftime (now w)) sections).
    pose proof (nesting_limit_floor rt). lia.
Qed.

Lemma output_parses_back_witness :
  exists out,
    main example_runtime stub_world
    = (Ok tt,
       with_stdout
         (with_output
            (with_sent stub_world
               (requests_of stub_world (u "Ada Lovelace" ++ [NL] ++ u "Engineer") LENSES))
            out)
         (stdout stub_world ++ [u "Wrote " ++ root stub_world ++ u "/data/resume_lenses.json"]))
    /\ forallb (fun b => (Byte.to_N b <? 128)%N) out = true
    /\ (try text <- decode_utf8 out; json_loads (nesting_limit example_runtime) text)
       = Ok (document (strftime (now stub_world)) stub_sections).
Proof.
  apply (output_parses_back example_runtime stub_world
           (u "Ada Lovelace" ++ [NL] ++ u "Engineer") stub_world stub_sections
           (with_sent stub_world
              (requests_of stub_world (u "Ada Lovelace" ++ [NL] ++ u "Engineer") LENSES)));
    vm_compute; reflexivity.
Defined.

Lemma request_text_shape prompt :
  q "{'inputs': " ++ encode_basestring_ascii prompt
  ++ q ", 'parameters': {'max_new_tokens': 320, 'temperature': 0.2, 'return_full_text': false}}"
  = 123%N :: 34%N :: flat_map escape_char (u "inputs")
      ++ 34%N :: 58%N :: 32%N :: 34%N :: flat_map escape_char prompt
      ++ 34%N :: q ", 'parameters': {'max_new_tokens': 320, 'temperature': 0.2, 'return_full_text': false}}".
Proof.
  unfold encode_basestring_ascii. rewrite <- !app_assoc. reflexivity.
Qed.

(** X16: the body of the request is ASCII and parses back, as JSON, to the
    payload: the prompt under [inputs], character for character, and the
    three fixed generation parameters.  The prompt is assumed free of
    surrogates. *)
Theorem request_body_parses_back rt prompt :
  valid_text prompt = true ->
  forallb (fun b => (Byte.to_N b <? 128)%N) (request_body prompt) = true
  /\ (try text <- decode_utf8 (request_body prompt); json_loads (nesting_limit rt) text)
     = Ok (payload_of prompt).
Proof.
  intros Hp. unfold request_body.
  set (text := q "{'inputs': " ++ encode_basestring_ascii prompt ++ _).
  assert (Ha : ascii_text text = true).
  { unfold text. now rewrite !ascii_text_app, encoded_ascii. }
  split.
  - unfold encode_ascii. rewrite forallb_through_map. unfold ascii_text in Ha.
    rewrite forallb_forall in *. intros c Hc. specialize (Ha c Hc).
    rewrite to_N_byte_of_N; [exact Ha|]. apply N.ltb_lt in Ha. lia.
  - rewrite (decode_encode_ascii _ Ha). cbn [rbind].
    apply (json_loads_reads (nesting_limit rt) _ _ 10 2);
      [| |pose proof (nesting_limit_floor rt); lia];
      unfold text; rewrite request_text_shape; [reflexivity|].
    rewrite skip_ws_head by reflexivity.
    cbn [scan_once N.eqb Pos.eqb].
    rewrite skip_ws_head by reflexivity.
    rewrite head_is_miss by discriminate. rewrite head_is_hit.
    cbn [object_loop].
    rewrite scanstring_encoded by reflexivity. cbn [rbind].
    rewrite skip_ws_head by reflexivity. rewrite head_is_hit.
    change (skip_ws (32%N :: ?X)) with (skip_ws X).
    rewrite skip_ws_head by reflexivity.
    cbn [scan_once N.eqb Pos.eqb].
    rewrite scanstring_encoded by exact Hp. cbn [rbind].
    vm_compute. reflexivity.
Qed.

Lemma request_body_parses_back_witness :
  forallb (fun b => (Byte.to_N b <? 128)%N)
    (request_body (build_prompt (u "Ada Lovelace") AI_PRIVACY)) = true
  /\ (try text <- decode_utf8 (request_body (build_prompt (u "Ada Lovelace") AI_PRIVACY));
      json_loads (nesting_limit example_runtime) text)
     = Ok (payload_of (build_prompt (u "Ada Lovelace") AI_PRIVACY)).
Proof.
  apply (request_body_parses_back example_runtime
           (build_prompt (u "Ada Lovelace") AI_PRIVACY)).
  vm_compute. reflexivity.
Defined.

(** ** The characters of a prompt *)

Lemma forallb_rev_true (p : N -> bool) s : forallb p s = true -> forallb p (rev s) = true.
Proof.
  intros H. apply forallb_forall. rewrite forallb_forall in H.
  intros c Hc. apply H. now apply in_rev.
Qed.

Lemma forallb_lstrip (p : N -> bool) s : forallb p s = true -> forallb p (lstrip s) = true.
Proof.
  intros H. destruct (lstrip_split s) as (pre & _ & E). rewrite E in H.
  rewrite forallb_app in H. now apply andb_prop in H as [_ H].
Qed.

Lemma forallb_strip (p : N -> bool) s : forallb p s = true -> forallb p (strip s) = true.
Proof.
  intros H. unfold strip, rstrip.
  now apply forallb_rev_true, forallb_lstrip, forallb_rev_true, forallb_lstrip.
Qed.

Lemma forallb_skipn (p : N -> bool) n s : forallb p s = true -> forallb p (skipn n s) = true.
Proof.
  intros H. rewrite <- (firstn_skipn n s), forallb_app in H.
  now apply andb_prop in H as [_ H].
Qed.

Lemma forallb_join_lines_map (p : N -> bool) (f : pystr -> pystr) ls :
  (forall l, forallb p l = true -> forallb p (f l) = true) ->
  forallb p (join_lines ls) = true ->
  forallb p (join_lines (map f ls)) = true.
Proof.
  intros Hf. induction ls as [|x ls IH]; [trivial|].
  destruct ls as [|y ls]; [apply Hf|].
  change (map f (x :: y :: ls)) with (f x :: f y :: map f ls).
  rewrite !join_lines_cons, !forallb_app. intros H.
  apply andb_prop in H as [Hx H]. apply andb_prop in H as [Hn H].
  rewrite (Hf x Hx), Hn. exact (IH H).
Qed.

Lemma forallb_normalize_line (p : N -> bool) l :
  forallb p l = true -> forallb p (normalize_line l) = true.
Proof.
  unfold normalize_line. destruct l as [|c l]; [trivial|].
  now destruct (forallb is_blank (c :: l)).
Qed.

Lemma forallb_remove_margin (p : N -> bool) m l :
  forallb p l = true -> forallb p (remove_margin m l) = true.
Proof.
  unfold remove_margin. destruct (starts_with m l); [apply forallb_skipn | trivial].
Qed.

(** [dedent] only removes characters. *)
Lemma forallb_dedent (p : N -> bool) text :
  forallb p text = true -> forallb p (dedent text) = true.
Proof.
  intros H. rewrite <- (join_split text) in H. unfold dedent.
  pose proof (forallb_join_lines_map p normalize_line _ (forallb_normalize_line p) H) as Hn.
  destruct (fold_left _ _ _) as [[|c m]|]; trivial.
  exact (forallb_join_lines_map p _ _ (forallb_remove_margin p (c :: m)) Hn).
Qed.

(** X17: building the prompt only removes characters: a class of characters
    that holds all of the text of the template filled with the résumé and
    the instruction holds all of the prompt.  A résumé free of surrogates so
    gives prompts free of surrogates. *)
Theorem prompt_only_removes (p : N -> bool) resume_text spec :
  forallb p (template resume_text (instruction spec)) = true ->
  forallb p (build_prompt resume_text spec) = true.
Proof. intros H. unfold build_prompt. now apply forallb_strip, forallb_dedent. Qed.

Lemma prompt_only_removes_witness :
  valid_text (build_prompt (u "Ada Lovelace") AI_PRIVACY) = true.
Proof.
  apply (prompt_only_removes scalar_value (u "Ada Lovelace") AI_PRIVACY).
  vm_compute. reflexivity.
Defined.
